(** * CyberJournal: key hierarchy, entry codec and blind index

    A shallow embedding of [cyberjournal/crypto.py], [cyberjournal/db.py]
    and the engine part of [cyberjournal/logic.py], with the properties of
    the specification stated and proved (or refuted) over it.

    Conventions.
    - A Python [str] is a [string], a sequence of code points from U+0000
      to U+00FF; [bytes] is [list byte].  Every statement about text is a
      statement about text of these code points, on which [str.lower]
      works character by character.
    - The cryptographic libraries (argon2, scrypt, HKDF, AES-GCM, HMAC) and
      the UTF-8 codec are external to the repository: they are the fields
      of the record [Primitives], and what the proofs need of them is the
      contract [Ideal].
    - [Section Engine] is the code as it runs when every call that leaves
      the process succeeds; [Module Faulty] is the password change and
      the password reset with the failures of these calls.
    - The SQLite file is the record [database]; every function of [db.py]
      opens its own connection and commits before it returns, so each is a
      function on [database].
    - [secrets.token_bytes] reads an entropy tape; the clock readings are
      inputs ([Env]). *)

From Stdlib Require Import ZArith NArith Ascii String List Sorting.Sorted.
From Stdlib Require Import Strings.Byte.
From stdpp Require Import base decidable list sorting gmap strings.

Open Scope string_scope.
Open Scope list_scope.
Open Scope Z_scope.

(* ------------------------------------------------------------------ *)
(** ** Text: [str.lower], [str.strip] and [TOKEN_SPLIT_RE]            *)
(* ------------------------------------------------------------------ *)

Module Text.

Definition code (c : ascii) : N := N_of_ascii c.

Definition between (lo hi : N) (c : ascii) : bool :=
  ((lo <=? code c) && (code c <=? hi))%N.

(** [str.isalnum] on U+0000..U+00FF: letters, decimal digits and the
    other numeric characters (superscripts and vulgar fractions). *)
Definition isalnum (c : ascii) : bool :=
  between 48 57 c || between 65 90 c || between 97 122 c
  || between 170 170 c || between 178 179 c || between 181 181 c
  || between 185 186 c || between 188 190 c
  || between 192 214 c || between 216 246 c || between 248 255 c.

(** The character class of [TOKEN_SPLIT_RE = re.compile(r"[\W_]+")]:
    [\W] is every character that is neither alphanumeric nor the
    underscore, and the class adds the underscore back. *)
Definition is_sep (c : ascii) : bool :=
  negb (isalnum c || between 95 95 c) || between 95 95 c.

(** [str.isspace] on U+0000..U+00FF. *)
Definition isspace (c : ascii) : bool :=
  between 9 13 c || between 28 32 c || between 133 133 c || between 160 160 c.

Definition isupper (c : ascii) : bool :=
  between 65 90 c || between 192 214 c || between 216 222 c.

Definition lower_char (c : ascii) : ascii :=
  if isupper c then ascii_of_N (code c + 32) else c.

(** [text.lower()].  On the code points U+0000..U+00FF Python lower-cases
    character by character and stays in this range.  Beyond it that is
    no longer so: the lower case of the Greek capital sigma depends on
    its neighbours, and U+0130 becomes two characters. *)
Fixpoint lower (s : string) : string :=
  match s with
  | EmptyString => EmptyString
  | String c s' => String (lower_char c) (lower s')
  end.

Fixpoint lstrip (s : string) : string :=
  match s with
  | EmptyString => EmptyString
  | String c s' => if isspace c then lstrip s' else s
  end.

Fixpoint rstrip (s : string) : string :=
  match s with
  | EmptyString => EmptyString
  | String c s' =>
      match rstrip s' with
      | EmptyString => if isspace c then EmptyString else String c EmptyString
      | r => String c r
      end
  end.

(** [s.strip()] *)
Definition strip (s : string) : string := rstrip (lstrip s).

(** Python truthiness of a [str]: [if s] holds when [s] is not empty. *)
Definition truthy (s : string) : bool :=
  match s with EmptyString => false | _ => true end.

(** [TOKEN_SPLIT_RE.split]: the fragments between the maximal runs of
    separator characters.  [split_from in_sep s] returns the fragment that
    is being read and the fragments after it; [in_sep] tells that the
    previous character belonged to a separator run. *)
Fixpoint split_from (in_sep : bool) (s : string) : string * list string :=
  match s with
  | EmptyString => (EmptyString, [])
  | String c s' =>
      if is_sep c then
        if in_sep then split_from true s'
        else (EmptyString, uncurry cons (split_from true s'))
      else
        let '(w, ws) := split_from false s' in (String c w, ws)
  end.

Definition re_split (s : string) : list string :=
  uncurry cons (split_from false s).

(** [normalize_tokens]:
    [[p for p in TOKEN_SPLIT_RE.split(text.lower()) if p]] *)
Definition normalize_tokens (text : string) : list string :=
  List.filter truthy (re_split (lower text)).

(** The token set that the index is built from, [set(normalize_tokens(text))]. *)
Definition tokenize (text : string) : gset string :=
  list_to_set (normalize_tokens text).

(** The tokens of a text that is already in lower case. *)
Definition toks (s : string) : list string :=
  List.filter truthy (uncurry cons (split_from false s)).

(** Every character of [s] satisfies [p]. *)
Fixpoint all_chars (p : ascii -> bool) (s : string) : bool :=
  match s with
  | EmptyString => true
  | String c s' => p c && all_chars p s'
  end.


End Text.


(* ------------------------------------------------------------------ *)
(** ** Bytes, exceptions and the external primitives                  *)
(* ------------------------------------------------------------------ *)

Abbreviation bytes := (list byte).

#[global] Instance byte_eq_dec : EqDecision byte := Byte.byte_eq_dec.

(** A bytes literal [b"..."]. *)
Definition b (s : string) : bytes := list_byte_of_string s.

(** Python truthiness of [bytes] and of an optional column. *)
Definition nonempty {A} (l : list A) : bool :=
  match l with [] => false | _ => true end.

(** The exceptions that the engine raises or lets through. *)
Inductive exn : Type :=
| ValueError (msg : string)
| VerifyMismatchError              (* argon2.exceptions *)
| InvalidHashError                 (* argon2.exceptions *)
| InvalidTag                       (* cryptography.exceptions *)
| UnicodeDecodeError
| TypeError (msg : string)
| IntegrityError (msg : string)    (* sqlite3 *)
| OperationalError (msg : string)  (* sqlite3 *)
| HashingError                     (* argon2.exceptions *)
| MemoryError
| OSError (msg : string).

#[global] Instance exn_eq_dec : EqDecision exn.
Proof. solve_decision. Defined.

(** What [PasswordHasher.verify] does with a stored hash and a password. *)
Inductive verify_result : Type := Verified | Mismatch | InvalidHash.

(** The libraries the engine calls.  Randomness is made explicit: the
    salt of [PasswordHasher.hash] and the nonce of [AESGCM.encrypt] are
    arguments. *)
Record Primitives : Type := {
  argon2_hash : bytes -> string -> string;
  argon2_verify : string -> string -> verify_result;
  Scrypt_derive : bytes -> nat -> bytes -> bytes;        (* salt, length, password *)
  HKDF_derive : bytes -> nat -> bytes -> bytes;          (* info, length, key material *)
  AESGCM_encrypt : bytes -> bytes -> bytes -> option bytes -> bytes;
  AESGCM_decrypt : bytes -> bytes -> bytes -> option bytes -> option bytes;
  HMAC_SHA256 : bytes -> bytes -> bytes;                 (* key, message *)
  str_encode : string -> bytes;                          (* s.encode("utf-8") *)
  bytes_decode : bytes -> option string                  (* b.decode() *)
}.

(** The contract of the libraries that the proofs rely on.  AES-GCM
    decrypts what it encrypted, under the same key, nonce and associated
    data: this is the functional correctness of the cipher.  The password
    hash accepts the password it was made from and rejects every other
    one: the first half is functional correctness, the second is the
    symbolic (collision-free) reading of argon2.  Nothing is assumed of
    HKDF, scrypt and HMAC, and nothing of what AES-GCM does with a
    ciphertext, key or associated data that it did not produce. *)
Record Ideal (P : Primitives) : Prop := {
  argon2_spec : forall salt pw pw',
    argon2_verify P (argon2_hash P salt pw) pw' =
    if decide (pw = pw') then Verified else Mismatch;
  aead_roundtrip : forall k n m a,
    AESGCM_decrypt P k n (AESGCM_encrypt P k n m a) a = Some m
}.

(* ------------------------------------------------------------------ *)
(** ** Parameters of [crypto.py]                                      *)
(* ------------------------------------------------------------------ *)

Definition KEK_LEN : nat := 32.
Definition DEK_LEN : nat := 32.
Definition NONCE_LEN : nat := 12.

Definition HKDF_INFO_ENC : bytes := b "cyberjournal/enc-key".
Definition HKDF_INFO_HMAC : bytes := b "cyberjournal/search-key".

Record SessionKeys : Type := {
  user_id : Z;
  username : string;
  dek : bytes;
  enc_key : bytes;
  search_key : bytes
}.

(* ------------------------------------------------------------------ *)
(** ** The row store ([db.py])                                        *)
(* ------------------------------------------------------------------ *)

Record user_row : Type := {
  u_id : Z;
  u_username : string;
  u_pwd_hash : string;
  u_kek_salt : bytes;
  u_dek_wrapped : bytes;
  u_dek_wrap_nonce : bytes;
  u_security_question : string;
  u_security_answer_hash : string;
  u_created_at : string
}.

Record entry_row : Type := {
  e_id : Z;
  e_user_id : Z;
  e_created_at : string;
  e_title_nonce : bytes;
  e_title_ct : bytes;
  e_body_nonce : bytes;
  e_body_ct : bytes;
  e_map_nonce : option bytes;
  e_map_ct : option bytes;
  e_map_format : option string
}.

(** The three tables of [SCHEMA_SQL], rows in rowid order, and the
    AUTOINCREMENT counters of [users] and [entries]. *)
Record database : Type := {
  users : list user_row;
  users_seq : Z;
  entries : list entry_row;
  entries_seq : Z;
  entry_terms : list (Z * bytes)
}.

(** A connection.  SQLite enforces foreign keys (and so runs
    [ON DELETE CASCADE]) only on a connection on which
    [PRAGMA foreign_keys = ON] was executed; the setting is not stored in
    the file. *)
Record connection : Type := { foreign_keys : bool }.

(** [aiosqlite.connect(DB_PATH)] *)
Definition connect : connection := {| foreign_keys := false |}.

(** [PRAGMA foreign_keys = ON;] as [init_db] and [migrate_db] run it on
    their own connection. *)
Definition pragma_foreign_keys_on (conn : connection) : connection :=
  {| foreign_keys := true |}.

Definition with_users (us : list user_row) (seq : Z) (d : database) : database :=
  {| users := us; users_seq := seq; entries := entries d;
     entries_seq := entries_seq d; entry_terms := entry_terms d |}.

Definition with_entries (es : list entry_row) (seq : Z) (d : database) : database :=
  {| users := users d; users_seq := users_seq d; entries := es;
     entries_seq := seq; entry_terms := entry_terms d |}.

Definition with_entry_terms (ts : list (Z * bytes)) (d : database) : database :=
  {| users := users d; users_seq := users_seq d; entries := entries d;
     entries_seq := entries_seq d; entry_terms := ts |}.

(** [SELECT * FROM users WHERE username = ?], [fetchone]. *)
Definition get_user_by_username (name : string) (d : database) : option user_row :=
  List.find (fun r => bool_decide (u_username r = name)) (users d).

(** [insert_user]: the UNIQUE constraint on [username] makes the INSERT
    fail with [sqlite3.IntegrityError]. *)
Definition insert_user (name pwd_hash : string) (kek_salt dek_wrapped dek_wrap_nonce : bytes)
    (security_question security_answer_hash created_at : string)
    (d : database) : exn + database :=
  match get_user_by_username name d with
  | Some _ => inl (IntegrityError "UNIQUE constraint failed: users.username")
  | None =>
      let uid := users_seq d + 1 in
      inr (with_users
             (users d ++ [{| u_id := uid; u_username := name; u_pwd_hash := pwd_hash;
                             u_kek_salt := kek_salt; u_dek_wrapped := dek_wrapped;
                             u_dek_wrap_nonce := dek_wrap_nonce;
                             u_security_question := security_question;
                             u_security_answer_hash := security_answer_hash;
                             u_created_at := created_at |}])
             uid d)
  end.

Definition set_credentials (pwd_hash : string) (kek_salt dek_wrapped dek_wrap_nonce : bytes)
    (r : user_row) : user_row :=
  {| u_id := u_id r; u_username := u_username r; u_pwd_hash := pwd_hash;
     u_kek_salt := kek_salt; u_dek_wrapped := dek_wrapped;
     u_dek_wrap_nonce := dek_wrap_nonce;
     u_security_question := u_security_question r;
     u_security_answer_hash := u_security_answer_hash r;
     u_created_at := u_created_at r |}.

(** [update_user_credentials]: [UPDATE users SET ... WHERE id = ?]. *)
Definition update_user_credentials (uid : Z) (pwd_hash : string)
    (kek_salt dek_wrapped dek_wrap_nonce : bytes) (d : database) : database :=
  with_users
    (map (fun r => if bool_decide (u_id r = uid)
                   then set_credentials pwd_hash kek_salt dek_wrapped dek_wrap_nonce r
                   else r) (users d))
    (users_seq d) d.

(** [insert_entry_row]; returns [cur.lastrowid]. *)
Definition insert_entry_row (uid : Z) (created_at : string)
    (t_nonce t_ct b_nonce b_ct : bytes) (m_nonce m_ct : option bytes) (m_fmt : string)
    (d : database) : Z * database :=
  let eid := entries_seq d + 1 in
  (eid,
   with_entries
     (entries d ++ [{| e_id := eid; e_user_id := uid; e_created_at := created_at;
                       e_title_nonce := t_nonce; e_title_ct := t_ct;
                       e_body_nonce := b_nonce; e_body_ct := b_ct;
                       e_map_nonce := m_nonce; e_map_ct := m_ct;
                       e_map_format := Some m_fmt |}])
     eid d).

(** One [INSERT OR IGNORE INTO entry_terms]: [UNIQUE(entry_id, term_hash)]
    makes the statement a no-op on a pair that is already stored. *)
Definition insert_or_ignore (ts : list (Z * bytes)) (p : Z * bytes) : list (Z * bytes) :=
  if bool_decide (p ∈ ts) then ts else ts ++ [p].

(** [insert_entry_terms]: [executemany] over the pairs. *)
Definition insert_entry_terms (pairs : list (Z * bytes)) (d : database) : database :=
  if nonempty pairs
  then with_entry_terms (fold_left insert_or_ignore pairs (entry_terms d)) d
  else d.

(** The order [ORDER BY created_at DESC] (text, binary collation). *)
Definition created_desc (r1 r2 : entry_row) : Prop :=
  String.le (e_created_at r2) (e_created_at r1).

#[global] Instance created_desc_dec : RelDecision created_desc.
Proof. intros r1 r2. unfold created_desc. apply _. Defined.

(** [list_entry_rows_for_user].  SQLite leaves the order of rows with
    equal [created_at] open; here it is the one [merge_sort] gives. *)
Definition list_entry_rows_for_user (uid : Z) (d : database) : list entry_row :=
  merge_sort created_desc
    (List.filter (fun r => bool_decide (e_user_id r = uid)) (entries d)).

(** [get_entry_row] *)
Definition get_entry_row (uid eid : Z) (d : database) : option entry_row :=
  List.find (fun r => bool_decide (e_id r = eid) && bool_decide (e_user_id r = uid))
    (entries d).

(** [get_entry_ids_for_term] *)
Definition get_entry_ids_for_term (term_hash : bytes) (d : database) : list Z :=
  map fst (List.filter (fun t => bool_decide (snd t = term_hash)) (entry_terms d)).

Definition set_title_body (t_nonce t_ct b_nonce b_ct : bytes) (r : entry_row) : entry_row :=
  {| e_id := e_id r; e_user_id := e_user_id r; e_created_at := e_created_at r;
     e_title_nonce := t_nonce; e_title_ct := t_ct;
     e_body_nonce := b_nonce; e_body_ct := b_ct;
     e_map_nonce := e_map_nonce r; e_map_ct := e_map_ct r;
     e_map_format := e_map_format r |}.

Definition set_map (m_nonce m_ct : option bytes) (m_fmt : string) (r : entry_row) : entry_row :=
  {| e_id := e_id r; e_user_id := e_user_id r; e_created_at := e_created_at r;
     e_title_nonce := e_title_nonce r; e_title_ct := e_title_ct r;
     e_body_nonce := e_body_nonce r; e_body_ct := e_body_ct r;
     e_map_nonce := m_nonce; e_map_ct := m_ct; e_map_format := Some m_fmt |}.

(** The rows selected by [WHERE id = ? AND user_id = ?]. *)
Definition entry_is (eid uid : Z) (r : entry_row) : bool :=
  bool_decide (e_id r = eid) && bool_decide (e_user_id r = uid).

(** [update_entry_row] *)
Definition update_entry_row (eid uid : Z) (t_nonce t_ct b_nonce b_ct : bytes)
    (d : database) : database :=
  with_entries
    (map (fun r => if entry_is eid uid r
                   then set_title_body t_nonce t_ct b_nonce b_ct r else r) (entries d))
    (entries_seq d) d.

(** [update_entry_row_with_map] *)
Definition update_entry_row_with_map (eid uid : Z) (t_nonce t_ct b_nonce b_ct : bytes)
    (m_nonce m_ct : option bytes) (m_fmt : string) (d : database) : database :=
  with_entries
    (map (fun r => if entry_is eid uid r
                   then set_map m_nonce m_ct m_fmt (set_title_body t_nonce t_ct b_nonce b_ct r)
                   else r) (entries d))
    (entries_seq d) d.

(** [DELETE FROM entries WHERE ...] on connection [conn]: the rows of
    [entry_terms] that reference a deleted entry go with it only when the
    connection enforces foreign keys. *)
Definition delete_entries_where (conn : connection) (p : entry_row -> bool)
    (d : database) : database :=
  let gone := map e_id (List.filter p (entries d)) in
  {| users := users d; users_seq := users_seq d;
     entries := List.filter (fun r => negb (p r)) (entries d);
     entries_seq := entries_seq d;
     entry_terms :=
       if foreign_keys conn
       then List.filter (fun t => negb (bool_decide (fst t ∈ gone))) (entry_terms d)
       else entry_terms d |}.

(** [delete_entry_row] *)
Definition delete_entry_row (eid uid : Z) (d : database) : database :=
  let conn := connect in
  delete_entries_where conn (entry_is eid uid) d.

(** [delete_entries_for_user] *)
Definition delete_entries_for_user (uid : Z) (d : database) : database :=
  let conn := connect in
  delete_entries_where conn (fun r => bool_decide (e_user_id r = uid)) d.

(** [clear_entry_terms]: [DELETE FROM entry_terms WHERE entry_id = ?]. *)
Definition clear_entry_terms (eid : Z) (d : database) : database :=
  with_entry_terms
    (List.filter (fun t => negb (bool_decide (fst t = eid))) (entry_terms d)) d.

(* ------------------------------------------------------------------ *)
(** ** The world and the monad of the engine                          *)
(* ------------------------------------------------------------------ *)

(** The durable store, the complete backup copies beside it (one for each
    file name, which is the timestamp; newest first) and the read position
    on the entropy tape. *)
Record world : Type := {
  store : database;
  backups : list (string * database);
  cursor : nat
}.

(** What a call reads from outside: the entropy behind
    [secrets.token_bytes] and [os.urandom], and the clock. *)
Record Env : Type := {
  tape : nat -> byte;
  utcnow_isoformat : string;      (* datetime.utcnow().isoformat() *)
  now_strftime : string           (* datetime.now().strftime("%Y%m%d-%H%M%S") *)
}.

Inductive outcome (A : Type) : Type :=
| Return (a : A)
| Raise (e : exn).
Arguments Return {A} a.
Arguments Raise {A} e.

(** A computation runs on a world and ends normally or with an exception;
    in both cases the world it leaves is explicit, since every statement
    of [db.py] is committed when it is executed. *)
Definition M (A : Type) : Type := world -> outcome A * world.

#[global] Instance M_ret : MRet M := fun A a w => (Return a, w).

#[global] Instance M_bind : MBind M := fun A B f m w =>
  match m w with
  | (Return a, w') => f a w'
  | (Raise e, w') => (Raise e, w')
  end.

Definition raise {A} (e : exn) : M A := fun w => (Raise e, w).

(** [try: m except VerifyMismatchError as exc: raise ValueError(msg) from exc] *)
Definition except_mismatch {A} (m : M A) (msg : string) : M A := fun w =>
  match m w with
  | (Raise VerifyMismatchError, w') => (Raise (ValueError msg), w')
  | r => r
  end.

(** [shutil.copy2(db_path, backup_path)]: a file of the same name is
    replaced. *)
Definition copy_to (name : string) (d : database) (dir : list (string * database)) :
    list (string * database) :=
  (name, d) :: List.filter (fun f => negb (bool_decide (fst f = name))) dir.

(** A read and a committed write of the store. *)
Definition query {A} (f : database -> A) : M A := fun w => (Return (f (store w)), w).

Definition execute (f : database -> database) : M unit := fun w =>
  (Return tt, {| store := f (store w); backups := backups w; cursor := cursor w |}).

(** [for x in xs: body(x)] *)
Fixpoint for_each {A} (xs : list A) (body : A -> M unit) : M unit :=
  match xs with
  | [] => mret tt
  | x :: xs' => _ ← body x; for_each xs' body
  end.

(** [for x in xs: out.append(body(x))] *)
Fixpoint collect {A B} (xs : list A) (body : A -> M B) : M (list B) :=
  match xs with
  | [] => mret []
  | x :: xs' => y ← body x; ys ← collect xs' body; mret (y :: ys)
  end.

(** The order of [sorted(..., reverse=True)] on entry ids. *)
Definition descending (x y : Z) : Prop := y <= x.

#[global] Instance descending_dec : RelDecision descending.
Proof. intros x y. unfold descending. apply _. Defined.

(** [sorted(s, reverse=True)] on a set of entry ids. *)
Definition sorted_reverse (s : gset Z) : list Z :=
  merge_sort descending (elements s).

(** [set.intersection( *sets )] for a non-empty argument list. *)
Definition set_intersection (s : gset Z) (sets : list (gset Z)) : gset Z :=
  fold_left (fun acc t => acc ∩ t) sets s.

(* ------------------------------------------------------------------ *)
(** ** [crypto.py] and [logic.py]                                     *)
(* ------------------------------------------------------------------ *)

Section Engine.

Context (P : Primitives) (E : Env).

(** The [n] bytes of the tape from position [pos]. *)
Definition drawn (pos n : nat) : bytes := map (tape E) (seq pos n).

(** [secrets.token_bytes(n)] *)
Definition token_bytes (n : nat) : M bytes := fun w =>
  (Return (drawn (cursor w) n),
   {| store := store w; backups := backups w; cursor := (cursor w + n)%nat |}).

(** [PH.hash(password)]; the hasher draws a 16-byte salt ([salt_len=16]). *)
Definition PH_hash (password : string) : M string :=
  salt ← token_bytes 16; mret (argon2_hash P salt password).

(** [PH.verify(hash, password)] *)
Definition PH_verify (hash password : string) : M unit :=
  match argon2_verify P hash password with
  | Verified => mret tt
  | Mismatch => raise VerifyMismatchError
  | InvalidHash => raise InvalidHashError
  end.

Definition scrypt_kdf (password : string) (salt : bytes) (length : nat) : bytes :=
  Scrypt_derive P salt length (str_encode P password).

Definition hkdf_derive (key_material info : bytes) (length : nat) : bytes :=
  HKDF_derive P info length key_material.

Definition aesgcm_encrypt (key plaintext : bytes) (aad : option bytes) : M (bytes * bytes) :=
  nonce ← token_bytes NONCE_LEN;
  let ct := AESGCM_encrypt P key nonce plaintext aad in
  mret (nonce, ct).

Definition aesgcm_decrypt (key nonce ciphertext : bytes) (aad : option bytes) : M bytes :=
  match AESGCM_decrypt P key nonce ciphertext aad with
  | Some plaintext => mret plaintext
  | None => raise InvalidTag
  end.

(** [data.decode()] *)
Definition decode (data : bytes) : M string :=
  match bytes_decode P data with
  | Some s => mret s
  | None => raise UnicodeDecodeError
  end.

Definition hmac_token (key : bytes) (token : string) : bytes :=
  HMAC_SHA256 P key (str_encode P token).

(** The two derivations of lines 161-162 and 211-212 of [logic.py]. *)
Definition derive_session_keys (dek : bytes) : bytes * bytes :=
  (hkdf_derive dek HKDF_INFO_ENC 32, hkdf_derive dek HKDF_INFO_HMAC 32).

(** [_backup_database]: copies the database file to
    [backups/<name>.bak-<timestamp>].  Here the file is there and the copy
    goes through; [Faulty._backup_database] is the function with its
    failures. *)
Definition _backup_database : M unit := fun w =>
  (Return tt,
   {| store := store w; backups := copy_to (now_strftime E) (store w) (backups w);
      cursor := cursor w |}).

Definition db_insert_user (name pwd_hash : string) (kek_salt dek_wrapped dek_wrap_nonce : bytes)
    (security_question security_answer_hash created_at : string) : M unit := fun w =>
  match insert_user name pwd_hash kek_salt dek_wrapped dek_wrap_nonce
          security_question security_answer_hash created_at (store w) with
  | inl e => (Raise e, w)
  | inr d => (Return tt, {| store := d; backups := backups w; cursor := cursor w |})
  end.

Definition register_user (name password security_question security_answer : string) : M unit :=
  let created_at := utcnow_isoformat E in
  pwd_hash ← PH_hash password;
  if negb (Text.truthy (Text.strip security_question))
     || negb (Text.truthy (Text.strip security_answer))
  then raise (ValueError "Security question and answer are required")
  else
    answer_hash ← PH_hash security_answer;
    dek ← token_bytes DEK_LEN;
    kek_salt ← token_bytes 16;
    let kek := scrypt_kdf password kek_salt 32 in
    let wrap_key := hkdf_derive kek (b "wrap-key") 32 in
    '(nonce, wrapped) ← aesgcm_encrypt wrap_key dek (Some (str_encode P name));
    db_insert_user name pwd_hash kek_salt wrapped nonce
      security_question answer_hash created_at.

Definition login_user (name password : string) : M SessionKeys :=
  row ← query (get_user_by_username name);
  match row with
  | None => raise (ValueError "User not found")
  | Some row =>
      _ ← except_mismatch (PH_verify (u_pwd_hash row) password) "Invalid password";
      let kek := scrypt_kdf password (u_kek_salt row) 32 in
      let wrap_key := hkdf_derive kek (b "wrap-key") 32 in
      dek ← aesgcm_decrypt wrap_key (u_dek_wrap_nonce row) (u_dek_wrapped row)
              (Some (str_encode P (u_username row)));
      let enc_key := hkdf_derive dek HKDF_INFO_ENC 32 in
      let search_key := hkdf_derive dek HKDF_INFO_HMAC 32 in
      mret {| user_id := u_id row; username := u_username row; dek := dek;
              enc_key := enc_key; search_key := search_key |}
  end.

(** The blind-index rows of one entry:
    [[(eid, hmac_token(key, t)) for t in set(normalize_tokens(title) + normalize_tokens(body))]] *)
Definition index_pairs (key : bytes) (eid : Z) (title body : string) : list (Z * bytes) :=
  let terms : gset string :=
    list_to_set (Text.normalize_tokens title ++ Text.normalize_tokens body) in
  map (fun t => (eid, hmac_token key t)) (elements terms).

(** The body of the loop of [change_password_logged_in]. *)
Definition migrate_entry (sess : SessionKeys) (new_enc_key new_search_key : bytes)
    (entry : entry_row) : M unit :=
  let aad := Some (str_encode P (username sess)) in
  title_b ← aesgcm_decrypt (enc_key sess) (e_title_nonce entry) (e_title_ct entry) aad;
  title ← decode title_b;
  body_b ← aesgcm_decrypt (enc_key sess) (e_body_nonce entry) (e_body_ct entry) aad;
  body ← decode body_b;
  let map_format :=
    match e_map_format entry with
    | Some f => if Text.truthy f then f else "ascii"
    | None => "ascii"
    end in
  '(map_nonce, map_ct) ←
    match e_map_ct entry with
    | Some ct =>
        if nonempty ct then
          map_nonce ← match e_map_nonce entry with
                      | Some n => mret n
                      | None => raise (TypeError "nonce must be bytes-like")
                      end;
          map_b ← aesgcm_decrypt (enc_key sess) map_nonce ct aad;
          map_text ← decode map_b;
          '(n, c) ← aesgcm_encrypt new_enc_key (str_encode P map_text) aad;
          mret (Some n, Some c)
        else mret (None, None)
    | None => mret (None, None)
    end;
  '(t_nonce, t_ct) ← aesgcm_encrypt new_enc_key (str_encode P title) aad;
  '(b_nonce, b_ct) ← aesgcm_encrypt new_enc_key (str_encode P body) aad;
  _ ← execute (update_entry_row_with_map (e_id entry) (user_id sess)
                 t_nonce t_ct b_nonce b_ct map_nonce map_ct map_format);
  _ ← execute (clear_entry_terms (e_id entry));
  execute (insert_entry_terms (index_pairs new_search_key (e_id entry) title body)).

Definition change_password_logged_in (sess : SessionKeys)
    (current_password new_password : string) : M SessionKeys :=
  if negb (Text.truthy current_password) then raise (ValueError "Current password required")
  else if negb (Text.truthy new_password) then raise (ValueError "New password required")
  else
    row ← query (get_user_by_username (username sess));
    match row with
    | None => raise (ValueError "User not found")
    | Some row =>
        _ ← except_mismatch (PH_verify (u_pwd_hash row) current_password) "Invalid password";
        _ ← _backup_database;
        new_dek ← token_bytes DEK_LEN;
        new_pwd_hash ← PH_hash new_password;
        new_kek_salt ← token_bytes 16;
        let new_kek := scrypt_kdf new_password new_kek_salt 32 in
        let new_wrap_key := hkdf_derive new_kek (b "wrap-key") 32 in
        '(new_nonce, new_wrapped) ←
          aesgcm_encrypt new_wrap_key new_dek (Some (str_encode P (username sess)));
        let new_enc_key := hkdf_derive new_dek HKDF_INFO_ENC 32 in
        let new_search_key := hkdf_derive new_dek HKDF_INFO_HMAC 32 in
        rows ← query (list_entry_rows_for_user (user_id sess));
        _ ← for_each rows (migrate_entry sess new_enc_key new_search_key);
        _ ← execute (update_user_credentials (user_id sess)
                       new_pwd_hash new_kek_salt new_wrapped new_nonce);
        mret {| user_id := user_id sess; username := username sess; dek := new_dek;
                enc_key := new_enc_key; search_key := new_search_key |}
    end.

Definition reset_password_with_security_answer
    (name security_answer new_password : string) : M unit :=
  if negb (Text.truthy security_answer) then raise (ValueError "Security answer required")
  else if negb (Text.truthy new_password) then raise (ValueError "New password required")
  else
    row ← query (get_user_by_username name);
    match row with
    | None => raise (ValueError "User not found")
    | Some row =>
        _ ← except_mismatch (PH_verify (u_security_answer_hash row) security_answer)
              "Invalid security answer";
        _ ← _backup_database;
        _ ← execute (delete_entries_for_user (u_id row));
        new_dek ← token_bytes DEK_LEN;
        new_pwd_hash ← PH_hash new_password;
        new_kek_salt ← token_bytes 16;
        let new_kek := scrypt_kdf new_password new_kek_salt 32 in
        let new_wrap_key := hkdf_derive new_kek (b "wrap-key") 32 in
        '(new_nonce, new_wrapped) ←
          aesgcm_encrypt new_wrap_key new_dek (Some (str_encode P name));
        execute (update_user_credentials (u_id row)
                   new_pwd_hash new_kek_salt new_wrapped new_nonce)
    end.

Definition update_entry (sess : SessionKeys) (entry_id : Z)
    (new_title new_body : string) : M unit :=
  let aad := Some (str_encode P (username sess)) in
  '(t_nonce, t_ct) ← aesgcm_encrypt (enc_key sess) (str_encode P new_title) aad;
  '(b_nonce, b_ct) ← aesgcm_encrypt (enc_key sess) (str_encode P new_body) aad;
  _ ← execute (update_entry_row entry_id (user_id sess) t_nonce t_ct b_nonce b_ct);
  _ ← execute (clear_entry_terms entry_id);
  let pairs := index_pairs (search_key sess) entry_id new_title new_body in
  if nonempty pairs then execute (insert_entry_terms pairs) else mret tt.

Definition delete_entry (sess : SessionKeys) (entry_id : Z) : M unit :=
  execute (delete_entry_row entry_id (user_id sess)).

Definition search_entries (sess : SessionKeys) (q : string) : M (list Z) :=
  let tokens := List.filter Text.truthy (Text.normalize_tokens q) in
  if negb (nonempty tokens) then mret []
  else
    id_sets ← collect tokens (fun token =>
                let th := hmac_token (search_key sess) token in
                ids ← query (get_entry_ids_for_term th);
                mret (list_to_set ids : gset Z));
    match id_sets with
    | s :: sets => mret (sorted_reverse (set_intersection s sets))
    | [] => mret []
    end.

End Engine.

(* ------------------------------------------------------------------ *)
(** ** The engine with calls that fail                                *)
(* ------------------------------------------------------------------ *)

(** In [Section Engine] every statement sent to SQLite goes through, the
    backup copy succeeds and the memory-hard functions return: this is
    how the code runs when nothing outside the program goes wrong.
    [Module Faulty] reads the two functions that rewrite a whole account,
    [change_password_logged_in] and [reset_password_with_security_answer],
    again, with the failures of the calls that leave the process:
    - every function of [db.py], which opens a connection, runs its
      statement and commits (a locked or unwritable database raises
      [sqlite3.OperationalError]); a call that fails has committed
      nothing;
    - the three file-system steps of [_backup_database];
    - [PH.verify], [PH.hash] and [scrypt_kdf], which allocate their work
      memory (100 MiB and 16 MiB with the parameters of [crypto.py]). *)
Module Faulty.

(** The state of a run: the answers that the outside world holds ready
    for the calls that leave the process, in the order of the calls
    ([None]: the call goes through; [Some x]: it raises [x]), and the
    world.  A run that outlives the list meets no further failure. *)
Record state : Type := {
  pending : list (option exn);
  current : world
}.

Definition F (A : Type) : Type := state -> outcome A * state.

#[global] Instance F_ret : MRet F := fun A a s => (Return a, s).

#[global] Instance F_bind : MBind F := fun A B f m s =>
  match m s with
  | (Return a, s') => f a s'
  | (Raise e, s') => (Raise e, s')
  end.

Definition raise {A} (e : exn) : F A := fun s => (Raise e, s).

(** [try: m except VerifyMismatchError as exc: raise ValueError(msg) from exc] *)
Definition except_mismatch {A} (m : F A) (msg : string) : F A := fun s =>
  match m s with
  | (Raise VerifyMismatchError, s') => (Raise (ValueError msg), s')
  | r => r
  end.

(** [for x in xs: body(x)] *)
Fixpoint for_each {A} (xs : list A) (body : A -> F unit) : F unit :=
  match xs with
  | [] => mret tt
  | x :: xs' => _ ← body x; for_each xs' body
  end.

(** A step that stays inside the process. *)
Definition local {A} (m : M A) : F A := fun s =>
  let '(o, w) := m (current s) in (o, {| pending := pending s; current := w |}).

(** A call that leaves the process.  It takes the next answer of the
    outside world: on a failure it raises and has done nothing. *)
Definition call {A} (m : M A) : F A := fun s =>
  match pending s with
  | Some x :: rest => (Raise x, {| pending := rest; current := current s |})
  | _ => local m {| pending := tail (pending s); current := current s |}
  end.

(** [db_path.exists()]: the outside world tells whether the file is
    there. *)
Definition path_exists : F bool := fun s =>
  match pending s with
  | Some _ :: rest => (Return false, {| pending := rest; current := current s |})
  | _ => (Return true, {| pending := tail (pending s); current := current s |})
  end.

(** [backups_dir.mkdir(parents=True, exist_ok=True)] *)
Definition mkdir : F unit := call (mret tt).

(** [shutil.copy2(db_path, backup_path)].  A copy that fails may have
    truncated the file of that name, so the list of the complete copies
    loses it. *)
Definition shutil_copy2 (name : string) : F unit := fun s =>
  let w := current s in
  match pending s with
  | Some x :: rest =>
      (Raise x,
       {| pending := rest;
          current := {| store := store w;
                        backups := List.filter (fun f => negb (bool_decide (fst f = name)))
                                     (backups w);
                        cursor := cursor w |} |})
  | _ =>
      (Return tt,
       {| pending := tail (pending s);
          current := {| store := store w; backups := copy_to name (store w) (backups w);
                        cursor := cursor w |} |})
  end.

(** The functions of [db.py] that the two operations await. *)
Definition db_get_user_by_username (name : string) : F (option user_row) :=
  call (query (get_user_by_username name)).

Definition db_list_entry_rows_for_user (uid : Z) : F (list entry_row) :=
  call (query (list_entry_rows_for_user uid)).

Definition db_update_entry_row_with_map (eid uid : Z) (t_nonce t_ct b_nonce b_ct : bytes)
    (m_nonce m_ct : option bytes) (m_fmt : string) : F unit :=
  call (execute (update_entry_row_with_map eid uid t_nonce t_ct b_nonce b_ct
                   m_nonce m_ct m_fmt)).

Definition db_clear_entry_terms (eid : Z) : F unit :=
  call (execute (clear_entry_terms eid)).

(** [insert_entry_terms] returns before it connects when there is nothing
    to insert. *)
Definition db_insert_entry_terms (pairs : list (Z * bytes)) : F unit :=
  if negb (nonempty pairs) then mret tt
  else call (execute (insert_entry_terms pairs)).

Definition db_delete_entries_for_user (uid : Z) : F unit :=
  call (execute (delete_entries_for_user uid)).

Definition db_update_user_credentials (uid : Z) (pwd_hash : string)
    (kek_salt dek_wrapped dek_wrap_nonce : bytes) : F unit :=
  call (execute (update_user_credentials uid pwd_hash kek_salt dek_wrapped dek_wrap_nonce)).

Section Engine.

Context (P : Primitives) (E : Env).

Definition _backup_database : F unit :=
  found ← path_exists;
  if negb found then raise (ValueError "Database file not found for backup")
  else
    _ ← mkdir;
    shutil_copy2 (now_strftime E).

(** The body of the loop of [change_password_logged_in]. *)
Definition migrate_entry (sess : SessionKeys) (new_enc_key new_search_key : bytes)
    (entry : entry_row) : F unit :=
  let aad := Some (str_encode P (username sess)) in
  title_b ← local (aesgcm_decrypt P (enc_key sess) (e_title_nonce entry)
                     (e_title_ct entry) aad);
  title ← local (decode P title_b);
  body_b ← local (aesgcm_decrypt P (enc_key sess) (e_body_nonce entry)
                    (e_body_ct entry) aad);
  body ← local (decode P body_b);
  let map_format :=
    match e_map_format entry with
    | Some f => if Text.truthy f then f else "ascii"
    | None => "ascii"
    end in
  '(map_nonce, map_ct) ←
    match e_map_ct entry with
    | Some ct =>
        if nonempty ct then
          map_nonce ← match e_map_nonce entry with
                      | Some n => mret n
                      | None => raise (TypeError "nonce must be bytes-like")
                      end;
          map_b ← local (aesgcm_decrypt P (enc_key sess) map_nonce ct aad);
          map_text ← local (decode P map_b);
          '(n, c) ← local (aesgcm_encrypt P E new_enc_key (str_encode P map_text) aad);
          mret (Some n, Some c)
        else mret (None, None)
    | None => mret (None, None)
    end;
  '(t_nonce, t_ct) ← local (aesgcm_encrypt P E new_enc_key (str_encode P title) aad);
  '(b_nonce, b_ct) ← local (aesgcm_encrypt P E new_enc_key (str_encode P body) aad);
  _ ← db_update_entry_row_with_map (e_id entry) (user_id sess)
        t_nonce t_ct b_nonce b_ct map_nonce map_ct map_format;
  _ ← db_clear_entry_terms (e_id entry);
  db_insert_entry_terms (index_pairs P new_search_key (e_id entry) title body).

Definition change_password_logged_in (sess : SessionKeys)
    (current_password new_password : string) : F SessionKeys :=
  if negb (Text.truthy current_password) then raise (ValueError "Current password required")
  else if negb (Text.truthy new_password) then raise (ValueError "New password required")
  else
    row ← db_get_user_by_username (username sess);
    match row with
    | None => raise (ValueError "User not found")
    | Some row =>
        _ ← except_mismatch (call (PH_verify P (u_pwd_hash row) current_password))
              "Invalid password";
        _ ← _backup_database;
        new_dek ← local (token_bytes E DEK_LEN);
        new_pwd_hash ← call (PH_hash P E new_password);
        new_kek_salt ← local (token_bytes E 16);
        new_kek ← call (mret (scrypt_kdf P new_password new_kek_salt 32));
        let new_wrap_key := hkdf_derive P new_kek (b "wrap-key") 32 in
        '(new_nonce, new_wrapped) ←
          local (aesgcm_encrypt P E new_wrap_key new_dek
                   (Some (str_encode P (username sess))));
        let new_enc_key := hkdf_derive P new_dek HKDF_INFO_ENC 32 in
        let new_search_key := hkdf_derive P new_dek HKDF_INFO_HMAC 32 in
        rows ← db_list_entry_rows_for_user (user_id sess);
        _ ← for_each rows (migrate_entry sess new_enc_key new_search_key);
        _ ← db_update_user_credentials (user_id sess)
              new_pwd_hash new_kek_salt new_wrapped new_nonce;
        mret {| user_id := user_id sess; username := username sess; dek := new_dek;
                enc_key := new_enc_key; search_key := new_search_key |}
    end.

Definition reset_password_with_security_answer
    (name security_answer new_password : string) : F unit :=
  if negb (Text.truthy security_answer) then raise (ValueError "Security answer required")
  else if negb (Text.truthy new_password) then raise (ValueError "New password required")
  else
    row ← db_get_user_by_username name;
    match row with
    | None => raise (ValueError "User not found")
    | Some row =>
        _ ← except_mismatch (call (PH_verify P (u_security_answer_hash row) security_answer))
              "Invalid security answer";
        _ ← _backup_database;
        _ ← db_delete_entries_for_user (u_id row);
        new_dek ← local (token_bytes E DEK_LEN);
        new_pwd_hash ← call (PH_hash P E new_password);
        new_kek_salt ← local (token_bytes E 16);
        new_kek ← call (mret (scrypt_kdf P new_password new_kek_salt 32));
        let new_wrap_key := hkdf_derive P new_kek (b "wrap-key") 32 in
        '(new_nonce, new_wrapped) ←
          local (aesgcm_encrypt P E new_wrap_key new_dek (Some (str_encode P name)));
        db_update_user_credentials (u_id row)
          new_pwd_hash new_kek_salt new_wrapped new_nonce
    end.

End Engine.

(** What a run leaves of a world, when the outside world answers with
    [script]. *)
Definition run {A} (m : F A) (script : list (option exn)) (w : world) : outcome A * world :=
  let '(o, s) := m {| pending := script; current := w |} in (o, current s).

(** The answers of an outside world that lets [n] calls through and fails
    the next one with [x]. *)
Definition fails_at (n : nat) (x : exn) : list (option exn) :=
  replicate n None ++ [Some x].

(** [mf] runs as [m] when the outside world never fails. *)
Definition agrees {A} (mf : F A) (m : M A) : Prop :=
  forall w,
    mf {| pending := []; current := w |} =
    (fst (m w), {| pending := []; current := snd (m w) |}).

End Faulty.

(* ------------------------------------------------------------------ *)
(** ** A reference instance of the primitives                         *)
(* ------------------------------------------------------------------ *)

(** A transparent instance of [Primitives] that satisfies [Ideal]: it
    shows that the contract is consistent and lets the engine be run on
    concrete stores.  Nothing is secret in it: a ciphertext is the framed
    key, associated data and nonce followed by the plaintext, written
    twice. *)
Module Reference.

(** A self-delimiting encoding of a byte string. *)
Definition frame (x : bytes) : bytes :=
  flat_map (fun c => ["001"%byte; c]) x ++ ["000"%byte].

Definition aad_bytes (a : option bytes) : bytes :=
  match a with
  | None => []
  | Some x => "001"%byte :: x
  end.

Definition header (k n : bytes) (a : option bytes) : bytes :=
  frame k ++ frame (aad_bytes a) ++ frame n.

Definition encrypt (k n m : bytes) (a : option bytes) : bytes :=
  (header k n a ++ m) ++ (header k n a ++ m).

Definition decrypt (k n c : bytes) (a : option bytes) : option bytes :=
  let h := (length c / 2)%nat in
  let c1 := take h c in
  let c2 := drop h c in
  if decide (c1 = c2) then
    if decide (take (length (header k n a)) c1 = header k n a)
    then Some (drop (length (header k n a)) c1)
    else None
  else None.

Definition hash (salt : bytes) (password : string) : string :=
  String "$"%char password.

Definition verify (h password : string) : verify_result :=
  match h with
  | String "$"%char rest => if decide (rest = password) then Verified else Mismatch
  | _ => InvalidHash
  end.

Definition primitives : Primitives := {|
  argon2_hash := hash;
  argon2_verify := verify;
  Scrypt_derive := fun salt n password => salt ++ password;
  HKDF_derive := fun info n key => info ++ key;
  AESGCM_encrypt := encrypt;
  AESGCM_decrypt := decrypt;
  HMAC_SHA256 := fun key msg => key ++ msg;
  str_encode := list_byte_of_string;
  bytes_decode := fun x => Some (string_of_list_byte x)
|}.

(** An environment: the tape counts 0, 1, 2, ... modulo 256. *)
Definition env : Env := {|
  tape := fun n => default "000"%byte (Byte.of_nat (n mod 256));
  utcnow_isoformat := "2024-01-03T00:00:00";
  now_strftime := "20240103-000000"
|}.

Definition empty_db : database :=
  {| users := []; users_seq := 0; entries := []; entries_seq := 0; entry_terms := [] |}.

Definition empty_world : world :=
  {| store := empty_db; backups := []; cursor := 0 |}.

(** The world after [register("alice", "Pw1!", "pet name?", "Rex")]. *)
Definition alice_world : world :=
  snd (register_user primitives env "alice" "Pw1!" "pet name?" "Rex" empty_world).

(** The session of [login("alice", "Pw1!")] on [alice_world]. *)
Definition alice_session : SessionKeys :=
  let dek := drawn env 32 32 in
  {| user_id := 1; username := "alice"; dek := dek;
     enc_key := hkdf_derive primitives dek HKDF_INFO_ENC 32;
     search_key := hkdf_derive primitives dek HKDF_INFO_HMAC 32 |}.

(** An entry row as the session writes it: title and body sealed under
    the session's encryption key and bound to its username; no map. *)
Definition sealed_entry (sess : SessionKeys) (eid : Z) (created_at : string)
    (t_nonce b_nonce : bytes) (title body : string) : entry_row :=
  let aad := Some (str_encode primitives (username sess)) in
  {| e_id := eid; e_user_id := user_id sess; e_created_at := created_at;
     e_title_nonce := t_nonce;
     e_title_ct := encrypt (enc_key sess) t_nonce (str_encode primitives title) aad;
     e_body_nonce := b_nonce;
     e_body_ct := encrypt (enc_key sess) b_nonce (str_encode primitives body) aad;
     e_map_nonce := None; e_map_ct := None; e_map_format := Some "ascii" |}.

Definition entry2 : entry_row :=
  sealed_entry alice_session 2 "2024-01-02T09:00:00" (b "nonce-2-title") (b "nonce-2-body!")
    "Day 2" "Night storm".

Definition entry1 : entry_row :=
  sealed_entry alice_session 1 "2024-01-01T09:00:00" (b "nonce-1-title") (b "nonce-1-body!")
    "Day 1" "It rained.".

(** The first entry with a title ciphertext that the store has damaged. *)
Definition entry1_damaged : entry_row :=
  set_title_body (e_title_nonce entry1) (b "damaged") (e_body_nonce entry1) (e_body_ct entry1)
    entry1.

Definition journal_terms : list (Z * bytes) :=
  index_pairs primitives (search_key alice_session) 1 "Day 1" "It rained."
  ++ index_pairs primitives (search_key alice_session) 2 "Day 2" "Night storm".

(** Alice's journal with two entries. *)
Definition journal_world : world :=
  {| store := with_entry_terms journal_terms
                (with_entries [entry1; entry2] 2 (store alice_world));
     backups := [];
     cursor := cursor alice_world |}.

(** The same journal with the older entry damaged. *)
Definition damaged_world : world :=
  {| store := with_entry_terms journal_terms
                (with_entries [entry1_damaged; entry2] 2 (store alice_world));
     backups := [];
     cursor := cursor alice_world |}.

End Reference.

(* ------------------------------------------------------------------ *)
(** ** The remaining reads and writes of [db.py] and [logic.py]       *)
(* ------------------------------------------------------------------ *)

(** [get_user_security_question]:
    [SELECT id, security_question FROM users WHERE username = ?]. *)
Definition get_user_security_question (name : string) (d : database) : option (Z * string) :=
  option_map (fun r => (u_id r, u_security_question r)) (get_user_by_username name d).

(** A row of [list_entry_headers]: id, created_at, title_nonce, title_ct. *)
Record entry_header : Type := {
  h_id : Z;
  h_created_at : string;
  h_title_nonce : bytes;
  h_title_ct : bytes
}.

Definition header_of (r : entry_row) : entry_header :=
  {| h_id := e_id r; h_created_at := e_created_at r;
     h_title_nonce := e_title_nonce r; h_title_ct := e_title_ct r |}.

(** [list_entry_headers] *)
Definition list_entry_headers (uid : Z) (d : database) : list entry_header :=
  map header_of
    (merge_sort created_desc
       (List.filter (fun r => bool_decide (e_user_id r = uid)) (entries d))).

(** [update_entry_map_row] *)
Definition update_entry_map_row (eid uid : Z) (m_nonce m_ct : option bytes) (m_fmt : string)
    (d : database) : database :=
  with_entries
    (map (fun r => if entry_is eid uid r then set_map m_nonce m_ct m_fmt r else r) (entries d))
    (entries_seq d) d.

Section Journal.

Context (P : Primitives) (E : Env).

(** The text that [_render_entry_map_text(title, body, fmt="ascii",
    max_side=32)] returns beside the format ["ascii"].  The renderer of
    [map.py] computes in floating point over SHA-256 digests and stays
    outside this development. *)
Context (render_entry_map_text : string -> string -> string).

Definition get_security_question (name : string) : M string :=
  row ← query (get_user_security_question name);
  match row with
  | None => raise (ValueError "User not found")
  | Some (_, security_question) =>
      let question := Text.strip security_question in
      if negb (Text.truthy question) then raise (ValueError "Security question not set")
      else mret question
  end.

Definition add_entry (sess : SessionKeys) (title body : string) : M Z :=
  let created_at := utcnow_isoformat E in
  let aad := Some (str_encode P (username sess)) in
  '(t_nonce, t_ct) ← aesgcm_encrypt P E (enc_key sess) (str_encode P title) aad;
  '(b_nonce, b_ct) ← aesgcm_encrypt P E (enc_key sess) (str_encode P body) aad;
  let map_text := render_entry_map_text title body in
  let map_fmt := "ascii" in
  '(m_nonce, m_ct) ← aesgcm_encrypt P E (enc_key sess) (str_encode P map_text) aad;
  eid ← (fun w =>
           let '(eid, d) := insert_entry_row (user_id sess) created_at
                              t_nonce t_ct b_nonce b_ct (Some m_nonce) (Some m_ct) map_fmt
                              (store w) in
           (Return eid, {| store := d; backups := backups w; cursor := cursor w |}));
  let pairs := index_pairs P (search_key sess) eid title body in
  _ ← execute (insert_entry_terms pairs);
  mret eid.

Definition list_entries (sess : SessionKeys) : M (list (Z * string * string)) :=
  rows ← query (list_entry_headers (user_id sess));
  collect rows (fun r =>
    title_b ← aesgcm_decrypt P (enc_key sess) (h_title_nonce r) (h_title_ct r)
                (Some (str_encode P (username sess)));
    title ← decode P title_b;
    mret (h_id r, h_created_at r, title)).

Definition get_entry (sess : SessionKeys) (entry_id : Z) : M (string * string * string) :=
  r ← query (get_entry_row (user_id sess) entry_id);
  match r with
  | None => raise (ValueError "Entry not found")
  | Some r =>
      let aad := Some (str_encode P (username sess)) in
      title_b ← aesgcm_decrypt P (enc_key sess) (e_title_nonce r) (e_title_ct r) aad;
      title ← decode P title_b;
      body_b ← aesgcm_decrypt P (enc_key sess) (e_body_nonce r) (e_body_ct r) aad;
      body ← decode P body_b;
      mret (e_created_at r, title, body)
  end.

Definition get_entry_with_map (sess : SessionKeys) (entry_id : Z) :
    M (string * string * string * string * string) :=
  row ← query (get_entry_row (user_id sess) entry_id);
  match row with
  | None => raise (ValueError "Entry not found")
  | Some row =>
      let aad := Some (str_encode P (username sess)) in
      title_b ← aesgcm_decrypt P (enc_key sess) (e_title_nonce row) (e_title_ct row) aad;
      title ← decode P title_b;
      body_b ← aesgcm_decrypt P (enc_key sess) (e_body_nonce row) (e_body_ct row) aad;
      body ← decode P body_b;
      let map_fmt := match e_map_format row with
                     | Some f => if Text.truthy f then f else "ascii"
                     | None => "ascii"
                     end in
      map_text ←
        match e_map_ct row with
        | Some ct =>
            if nonempty ct then
              map_nonce ← match e_map_nonce row with
                          | Some n => mret n
                          | None => raise (TypeError "nonce must be bytes-like")
                          end;
              map_b ← aesgcm_decrypt P (enc_key sess) map_nonce ct aad;
              decode P map_b
            else mret ""
        | None => mret ""
        end;
      mret (e_created_at row, title, body, map_text, map_fmt)
  end.

End Journal.

(** The invariants that the schema gives the store: [username] is UNIQUE,
    both [id] columns are primary keys handed out by AUTOINCREMENT, and
    [(entry_id, term_hash)] is UNIQUE. *)
Record well_formed (d : database) : Prop := {
  wf_usernames : NoDup (map u_username (users d));
  wf_user_ids : NoDup (map u_id (users d));
  wf_users_seq : Forall (fun r => u_id r <= users_seq d) (users d);
  wf_entry_ids : NoDup (map e_id (entries d));
  wf_entries_seq : Forall (fun r => e_id r <= entries_seq d) (entries d);
  wf_terms : NoDup (entry_terms d)
}.

(** The UTF-8 codec decodes what it encoded. *)
Definition codec_roundtrip (P : Primitives) : Prop :=
  forall s, bytes_decode P (str_encode P s) = Some s.

(** The ids that [search_entries] returns on a store. *)
Definition search_ids (P : Primitives) (sess : SessionKeys) (q : string) (d : database) :
    list Z :=
  match map (fun t => (list_to_set
                         (get_entry_ids_for_term (hmac_token P (search_key sess) t) d)
                       : gset Z))
            (Text.normalize_tokens q) with
  | [] => []
  | s :: sets => sorted_reverse (set_intersection s sets)
  end.

(** A character that a token may contain: not a separator, and left
    alone by [str.lower]. *)
Definition token_char (c : ascii) : bool :=
  negb (Text.is_sep c) && bool_decide (Text.lower_char c = c).

(** [m] keeps [I]: whenever it is started in a world with [I] it leaves
    a world with [I], whether it returns or raises. *)
Definition preserves {A} (I : world -> Prop) (m : M A) : Prop :=
  forall w o w', m w = (o, w') -> I w -> I w'.

(** A property of worlds that only looks at the store. *)
Definition on_store (J : database -> Prop) (w : world) : Prop := J (store w).

(* ------------------------------------------------------------------ *)
(** ** Notions used in the statements                                 *)
(* ------------------------------------------------------------------ *)

(** The title and the body of a row decrypt under the encryption key of
    the session, with the session's username as associated data. *)
Definition readable (P : Primitives) (sess : SessionKeys) (r : entry_row) : bool :=
  let aad := Some (str_encode P (username sess)) in
  match AESGCM_decrypt P (enc_key sess) (e_title_nonce r) (e_title_ct r) aad,
        AESGCM_decrypt P (enc_key sess) (e_body_nonce r) (e_body_ct r) aad with
  | Some _, Some _ => true
  | _, _ => false
  end.

(** "The store remains entirely on the old key set": the credential rows
    are as before, every entry of the user that decrypted under the
    session's key still does, and the index holds no digest that it did
    not hold before. *)
Definition remains_on_old_keys (P : Primitives) (sess : SessionKeys)
    (before after : database) : Prop :=
  users after = users before /\
  (forall r r', r ∈ entries before -> r' ∈ entries after ->
     e_id r' = e_id r -> e_user_id r = user_id sess ->
     readable P sess r = true -> readable P sess r' = true) /\
  (forall p, p ∈ entry_terms after -> p ∈ entry_terms before).

(** What [update_entry] may change in a row of [entries]: nothing, unless
    the row is the entry itself, and then only the title and body columns. *)
Definition entry_frame (entry_id : Z) (r r' : entry_row) : Prop :=
  e_id r' = e_id r /\ e_user_id r' = e_user_id r /\
  e_created_at r' = e_created_at r /\
  e_map_nonce r' = e_map_nonce r /\ e_map_ct r' = e_map_ct r /\
  e_map_format r' = e_map_format r /\
  (e_id r <> entry_id -> r' = r).

Section Notions.
Context (P : Primitives) (E : Env).

(** The store after a successful reset of the user of [row]. *)
Definition reset_store (row : user_row) (new_password : string) (w : world) : database :=
  let new_dek := drawn E (cursor w) 32 in
  let new_pwd_hash := argon2_hash P (drawn E (cursor w + 32) 16) new_password in
  let new_kek_salt := drawn E (cursor w + 32 + 16) 16 in
  let new_nonce := drawn E (cursor w + 32 + 16 + 16) 12 in
  let new_wrap_key :=
    hkdf_derive P (scrypt_kdf P new_password new_kek_salt 32) (b "wrap-key") 32 in
  update_user_credentials (u_id row) new_pwd_hash new_kek_salt
    (AESGCM_encrypt P new_wrap_key new_nonce new_dek (Some (str_encode P (u_username row))))
    new_nonce
    (delete_entries_for_user (u_id row) (store w)).

(** Decrypt-then-decode of one stored field. *)
Definition open_field (key nonce ct : bytes) (aad : option bytes) : exn + string :=
  match AESGCM_decrypt P key nonce ct aad with
  | None => inl InvalidTag
  | Some x =>
      match bytes_decode P x with
      | None => inl UnicodeDecodeError
      | Some s => inr s
      end
  end.

(** The reads of the loop body of [change_password_logged_in], in its
    order: title, body, and the map when the row has one.  *)
Definition open_entry (sess : SessionKeys) (entry : entry_row) :
    exn + (string * string * option string) :=
  let aad := Some (str_encode P (username sess)) in
  match open_field (enc_key sess) (e_title_nonce entry) (e_title_ct entry) aad with
  | inl x => inl x
  | inr title =>
      match open_field (enc_key sess) (e_body_nonce entry) (e_body_ct entry) aad with
      | inl x => inl x
      | inr body =>
          match e_map_ct entry with
          | Some ct =>
              if nonempty ct then
                match e_map_nonce entry with
                | None => inl (TypeError "nonce must be bytes-like")
                | Some n =>
                    match open_field (enc_key sess) n ct aad with
                    | inl x => inl x
                    | inr m => inr (title, body, Some m)
                    end
                end
              else inr (title, body, None)
          | None => inr (title, body, None)
          end
      end
  end.

(** The writes of the loop body for an entry that was read. *)
Definition migrated (sess : SessionKeys) (k_enc k_search : bytes) (entry : entry_row)
    (title body : string) (map_text : option string) (w : world) : world :=
  let aad := Some (str_encode P (username sess)) in
  let pos := match map_text with Some _ => (cursor w + 12)%nat | None => cursor w end in
  let m_nonce := option_map (fun _ => drawn E (cursor w) 12) map_text in
  let m_ct := option_map (fun m => AESGCM_encrypt P k_enc (drawn E (cursor w) 12)
                                     (str_encode P m) aad) map_text in
  let m_fmt := match e_map_format entry with
               | Some f => if Text.truthy f then f else "ascii"
               | None => "ascii"
               end in
  let t_nonce := drawn E pos 12 in
  let b_nonce := drawn E (pos + 12) 12 in
  {| store :=
       insert_entry_terms (index_pairs P k_search (e_id entry) title body)
         (clear_entry_terms (e_id entry)
            (update_entry_row_with_map (e_id entry) (user_id sess)
               t_nonce (AESGCM_encrypt P k_enc t_nonce (str_encode P title) aad)
               b_nonce (AESGCM_encrypt P k_enc b_nonce (str_encode P body) aad)
               m_nonce m_ct m_fmt (store w)));
     backups := backups w;
     cursor := (pos + 12 + 12)%nat |}.

(** The world in the course of the loop body, for an entry that was
    read: the fresh nonces are drawn and the first [statements] of the
    three statements of the body are committed.  With all three it is
    [migrated]. *)
Definition migrated_upto (statements : nat) (sess : SessionKeys) (k_enc k_search : bytes)
    (entry : entry_row) (title body : string) (map_text : option string) (w : world) :
    world :=
  let aad := Some (str_encode P (username sess)) in
  let pos := match map_text with Some _ => (cursor w + 12)%nat | None => cursor w end in
  let m_nonce := option_map (fun _ => drawn E (cursor w) 12) map_text in
  let m_ct := option_map (fun m => AESGCM_encrypt P k_enc (drawn E (cursor w) 12)
                                     (str_encode P m) aad) map_text in
  let m_fmt := match e_map_format entry with
               | Some f => if Text.truthy f then f else "ascii"
               | None => "ascii"
               end in
  let t_nonce := drawn E pos 12 in
  let b_nonce := drawn E (pos + 12) 12 in
  let d1 := update_entry_row_with_map (e_id entry) (user_id sess)
              t_nonce (AESGCM_encrypt P k_enc t_nonce (str_encode P title) aad)
              b_nonce (AESGCM_encrypt P k_enc b_nonce (str_encode P body) aad)
              m_nonce m_ct m_fmt (store w) in
  let d2 := clear_entry_terms (e_id entry) d1 in
  let d3 := insert_entry_terms (index_pairs P k_search (e_id entry) title body) d2 in
  {| store := match statements with
              | 0%nat => store w
              | 1%nat => d1
              | 2%nat => d2
              | _ => d3
              end;
     backups := backups w;
     cursor := (pos + 12 + 12)%nat |}.

(** The world at the start of the loop of [change_password_logged_in]:
    the backup is written and the new key material is drawn. *)
Definition loop_start (w : world) : world :=
  {| store := store w;
     backups := copy_to (now_strftime E) (store w) (backups w);
     cursor := (cursor w + 32 + 16 + 16 + 12)%nat |}.

End Notions.

(** A store in the course of the loop of [change_password_logged_in] that
    started on [w0]: some first entries of [rows] are migrated, and the
    next one is untouched or has the first one or two of its three
    statements committed. *)
Definition partly_migrated (P : Primitives) (E : Env) (sess : SessionKeys)
    (k_enc k_search : bytes) (rows : list entry_row) (w0 : world) (d : database) : Prop :=
  exists done rest w1,
    rows = done ++ rest /\
    for_each done (migrate_entry P E sess k_enc k_search) w0 = (Return tt, w1) /\
    (d = store w1 \/
     exists entry rest' title body map_text,
       rest = entry :: rest' /\
       open_entry P sess entry = inr (title, body, map_text) /\
       (d = store (migrated_upto P E 1 sess k_enc k_search entry title body map_text w1) \/
        d = store (migrated_upto P E 2 sess k_enc k_search entry title body map_text w1))).

(** The row that [add_entry] inserts. *)
Definition added_row (P : Primitives) (E : Env) (render : string -> string -> string)
    (sess : SessionKeys) (title body : string) (w : world) : entry_row :=
  let aad := Some (str_encode P (username sess)) in
  let t_nonce := drawn E (cursor w) 12 in
  let b_nonce := drawn E (cursor w + 12) 12 in
  let m_nonce := drawn E (cursor w + 12 + 12) 12 in
  {| e_id := entries_seq (store w) + 1; e_user_id := user_id sess;
     e_created_at := utcnow_isoformat E;
     e_title_nonce := t_nonce;
     e_title_ct := AESGCM_encrypt P (enc_key sess) t_nonce (str_encode P title) aad;
     e_body_nonce := b_nonce;
     e_body_ct := AESGCM_encrypt P (enc_key sess) b_nonce (str_encode P body) aad;
     e_map_nonce := Some m_nonce;
     e_map_ct := Some (AESGCM_encrypt P (enc_key sess) m_nonce
                         (str_encode P (render title body)) aad);
     e_map_format := Some "ascii" |}.

(** The title and body ciphertexts of [r] are encryptions of [title] and
    [body] under [key], bound to [name]. *)
Definition sealed (P : Primitives) (key : bytes) (name title body : string)
    (r : entry_row) : Prop :=
  AESGCM_decrypt P key (e_title_nonce r) (e_title_ct r) (Some (str_encode P name))
    = Some (str_encode P title) /\
  AESGCM_decrypt P key (e_body_nonce r) (e_body_ct r) (Some (str_encode P name))
    = Some (str_encode P body).

(** How the migration of the entries [done] relates a row before to the
    row in its place after. *)
Definition migrated_rows (P : Primitives) (sess : SessionKeys) (k_enc : bytes)
    (done : list entry_row) (r r' : entry_row) : Prop :=
  e_id r' = e_id r /\ e_user_id r' = e_user_id r /\ e_created_at r' = e_created_at r /\
  (e_id r ∉ map e_id done -> r' = r) /\
  (forall e, e ∈ done -> e_id e = e_id r -> e_user_id r = user_id sess ->
     exists title body m,
       open_entry P sess e = inr (title, body, m) /\
       sealed P k_enc (username sess) title body r').

(** How the migration of the entries [done] relates the index before to
    the index after. *)
Definition migrated_terms (P : Primitives) (sess : SessionKeys) (k_search : bytes)
    (done : list entry_row) (ts ts' : list (Z * bytes)) : Prop :=
  forall eid h,
    (eid ∉ map e_id done -> ((eid, h) ∈ ts' <-> (eid, h) ∈ ts)) /\
    (forall e, e ∈ done -> e_id e = eid ->
       exists title body m,
         open_entry P sess e = inr (title, body, m) /\
         ((eid, h) ∈ ts' <->
          exists t, t ∈ Text.tokenize title ∪ Text.tokenize body /\
                    h = hmac_token P k_search t)).

(* ================================================================== *)
(** * Properties                                                      *)
(* ================================================================== *)

(* ------------------------------------------------------------------ *)
(** ** Tokenization                                                   *)
(* ------------------------------------------------------------------ *)

Module TextFacts.
Import Text.

Lemma normalize_tokens_toks t : normalize_tokens t = toks (lower t).
Proof. reflexivity. Qed.

Lemma lower_char_idem c : lower_char (lower_char c) = lower_char c.
Proof. destruct c as [[] [] [] [] [] [] [] []]; reflexivity. Qed.

Lemma is_sep_lower_char c : is_sep (lower_char c) = is_sep c.
Proof. destruct c as [[] [] [] [] [] [] [] []]; reflexivity. Qed.


Lemma lower_app s t : lower (s +:+ t) = lower s +:+ lower t.
Proof.
  induction s as [|c s IH]; [done|].
  change (String c s +:+ t) with (String c (s +:+ t)). simpl. by rewrite IH.
Qed.

Lemma all_sep_lower s : all_chars is_sep (lower s) = all_chars is_sep s.
Proof. induction s as [|c s IH]; simpl; [done|]. by rewrite is_sep_lower_char, IH. Qed.

Lemma lower_empty s : lower s = "" -> s = "".
Proof. by destruct s. Qed.

(** After a separator the flag of [split_from] only decides whether an
    empty fragment is emitted. *)
Lemma toks_split_true s :
  List.filter truthy (uncurry cons (split_from true s)) = toks s.
Proof.
  unfold toks. destruct s as [|c s]; simpl; [done|].
  destruct (is_sep c); simpl; done.
Qed.

Lemma split_from_app_sep a c r :
  is_sep c = true ->
  fst (split_from false (a +:+ String c r)) = fst (split_from false a) /\
  List.filter truthy (snd (split_from false (a +:+ String c r))) =
    List.filter truthy (snd (split_from false a)) ++ toks r.
Proof.
  intros Hc. induction a as [|x a [IH1 IH2]]; simpl.
  - rewrite Hc. simpl. split; [done|]. apply toks_split_true.
  - destruct (is_sep x) eqn:Hx; simpl.
    + split; [done|].
      rewrite !toks_split_true. unfold toks.
      destruct (split_from false (a +:+ String c r)) as [w' ws'].
      destruct (split_from false a) as [w ws]. simpl in *. subst w'.
      destruct (truthy w); simpl; by rewrite IH2.
    + destruct (split_from false (a +:+ String c r)) as [w' ws'].
      destruct (split_from false a) as [w ws]. simpl in *. by subst w'.
Qed.

(** A separator character between two texts keeps their tokens apart. *)
Lemma toks_app_sep a c r :
  is_sep c = true -> toks (a +:+ String c r) = toks a ++ toks r.
Proof.
  intros Hc. destruct (split_from_app_sep a c r Hc) as [H1 H2].
  unfold toks at 1 2.
  destruct (split_from false (a +:+ String c r)) as [w' ws'].
  destruct (split_from false a) as [w ws]. simpl in *. subst w'.
  destruct (truthy w); simpl; by rewrite H2.
Qed.

Lemma toks_seps_l s r : all_chars is_sep s = true -> toks (s +:+ r) = toks r.
Proof.
  induction s as [|c s IH]; simpl; [done|].
  intros [Hc Hs]%andb_true_iff.
  change (String c s +:+ r) with ("" +:+ String c (s +:+ r)).
  rewrite toks_app_sep by done. simpl. by apply IH.
Qed.

Lemma append_empty_r s : s +:+ "" = s.
Proof.
  induction s as [|c s IH]; [done|].
  change (String c s +:+ "") with (String c (s +:+ "")). by rewrite IH.
Qed.

Lemma toks_seps s : all_chars is_sep s = true -> toks s = [].
Proof.
  intros Hs. pose proof (toks_seps_l s "" Hs) as H.
  by rewrite append_empty_r in H.
Qed.

(** A non-empty run of separators between two texts. *)
Lemma toks_app_seps a s r :
  all_chars is_sep s = true -> s <> "" -> toks (a +:+ s +:+ r) = toks a ++ toks r.
Proof.
  destruct s as [|c s]; [done|]. simpl. intros [Hc Hs]%andb_true_iff _.
  change (String c s +:+ r) with (String c (s +:+ r)).
  rewrite toks_app_sep by done. by rewrite toks_seps_l.
Qed.


Lemma normalize_tokens_app_seps a s r :
  all_chars is_sep s = true -> s <> "" ->
  normalize_tokens (a +:+ s +:+ r) = normalize_tokens a ++ normalize_tokens r.
Proof.
  intros Hs Hne. rewrite !normalize_tokens_toks, !lower_app.
  apply toks_app_seps.
  - by rewrite all_sep_lower.
  - intros H%lower_empty. done.
Qed.



Lemma normalize_tokens_truthy t w : w ∈ normalize_tokens t -> truthy w = true.
Proof.
  unfold normalize_tokens. rewrite list_elem_of_In, filter_In. tauto.
Qed.

Lemma filter_truthy_normalize t :
  List.filter truthy (normalize_tokens t) = normalize_tokens t.
Proof.
  unfold normalize_tokens.
  induction (re_split (lower t)) as [|w ws IH]; simpl; [done|].
  destruct (truthy w) eqn:Hw; simpl; [|done]. by rewrite Hw, IH.
Qed.

End TextFacts.

Example normalize_tokens_example :
  Text.normalize_tokens "Night Storm, rain_fell!" = ["night"; "storm"; "rain"; "fell"].
Proof. reflexivity. Qed.

Example re_split_example : Text.re_split "--a__b c!" = [""; "a"; "b"; "c"; ""].
Proof. reflexivity. Qed.

Example tokenize_storm : Text.tokenize "Storm!" = Text.tokenize "storm".
Proof. reflexivity. Qed.

Example strip_example : Text.strip "  pet name?  " = "pet name?" /\ Text.strip "   " = "".
Proof. split; reflexivity. Qed.




(* ------------------------------------------------------------------ *)
(** ** Running computations                                           *)
(* ------------------------------------------------------------------ *)

Lemma bind_Return {A B} (m : M A) (f : A -> M B) w a w' :
  m w = (Return a, w') -> (m ≫= f) w = f a w'.
Proof. intros H. unfold mbind, M_bind. by rewrite H. Qed.

Lemma bind_Raise {A B} (m : M A) (f : A -> M B) w e w' :
  m w = (Raise e, w') -> (m ≫= f) w = (Raise e, w').
Proof. intros H. unfold mbind, M_bind. by rewrite H. Qed.

(** A bind ends normally only if both parts do. *)
Lemma bind_inv_Return {A B} (m : M A) (f : A -> M B) w y w'' :
  (m ≫= f) w = (Return y, w'') ->
  exists a w', m w = (Return a, w') /\ f a w' = (Return y, w'').
Proof.
  unfold mbind, M_bind. destruct (m w) as [[a|e] w']; [eauto|discriminate].
Qed.

(** A bind that raises: the first part raised, or it returned and the
    continuation raised. *)
Lemma bind_inv_Raise {A B} (m : M A) (f : A -> M B) w e w'' :
  (m ≫= f) w = (Raise e, w'') ->
  m w = (Raise e, w'') \/
  exists a w', m w = (Return a, w') /\ f a w' = (Raise e, w'').
Proof.
  unfold mbind, M_bind. destruct (m w) as [[a|e'] w']; [eauto|].
  intros [= -> ->]. by left.
Qed.

Lemma collect_query {A B C} (f : A -> database -> B) (g : B -> C) xs w :
  collect xs (fun x => y ← query (f x); mret (g y)) w =
  (Return (map (fun x => g (f x (store w))) xs), w).
Proof.
  induction xs as [|x xs IH]; [done|].
  cbn [collect map].
  erewrite bind_Return; [|reflexivity].
  erewrite bind_Return; [|exact IH]. reflexivity.
Qed.

(* ------------------------------------------------------------------ *)
(** ** Search                                                         *)
(* ------------------------------------------------------------------ *)

#[local] Instance descending_total : Total descending.
Proof. intros x y. unfold descending. lia. Qed.

#[local] Instance descending_trans : Transitive descending.
Proof. intros x y z. unfold descending. lia. Qed.

Lemma elem_of_set_intersection x s sets :
  x ∈ set_intersection s sets <-> x ∈ s /\ Forall (fun t => x ∈ t) sets.
Proof.
  unfold set_intersection. revert s.
  induction sets as [|t sets IH]; intros s; simpl.
  - split; [intros H; split; [done|constructor] | tauto].
  - rewrite IH, elem_of_intersection, Forall_cons. tauto.
Qed.

Lemma elem_of_sorted_reverse x s : x ∈ sorted_reverse s <-> x ∈ s.
Proof.
  unfold sorted_reverse. rewrite merge_sort_Permutation. apply elem_of_elements.
Qed.

Lemma NoDup_sorted_reverse s : NoDup (sorted_reverse s).
Proof.
  unfold sorted_reverse. rewrite merge_sort_Permutation. apply NoDup_elements.
Qed.

Lemma strictly_descending l :
  StronglySorted descending l -> NoDup l -> StronglySorted (fun x y => y < x) l.
Proof.
  induction 1 as [|x l Hl IH Hx]; intros Hnd; [constructor|].
  apply NoDup_cons in Hnd as [Hnin Hnd].
  constructor; [by apply IH|].
  rewrite Forall_forall in Hx |- *. intros y Hy.
  specialize (Hx y Hy). unfold descending in Hx.
  assert (y <> x) by (intros ->; done). lia.
Qed.

Lemma elem_of_get_entry_ids_for_term eid th d :
  eid ∈ get_entry_ids_for_term th d <-> (eid, th) ∈ entry_terms d.
Proof.
  unfold get_entry_ids_for_term. rewrite list_elem_of_fmap. split.
  - intros [[e h] [-> Hin]]. simpl.
    apply list_elem_of_In, filter_In in Hin as [Hin Hh].
    apply bool_decide_eq_true in Hh. simpl in Hh. subst. by apply list_elem_of_In.
  - intros Hin. exists (eid, th). split; [done|].
    apply list_elem_of_In, filter_In. split; [by apply list_elem_of_In|].
    by apply bool_decide_eq_true.
Qed.

(** C2.  [search_entries] ends normally, leaves the world as it found it,
    and returns: nothing when the query has no token; otherwise exactly
    the entry ids that have a term row for the digest of every query
    token; in strictly descending order (so sorted newest-first and
    without duplicates). *)
Theorem search_entries_spec (P : Primitives)
    (sess : SessionKeys) (q : string) (w : world) :
  exists ids,
    search_entries P sess q w = (Return ids, w) /\
    (Text.normalize_tokens q = [] -> ids = []) /\
    (forall eid,
       eid ∈ ids <->
       Text.normalize_tokens q <> [] /\
       forall t, t ∈ Text.normalize_tokens q ->
         (eid, hmac_token P (search_key sess) t) ∈ entry_terms (store w)) /\
    StronglySorted (fun x y => y < x) ids /\
    NoDup ids.
Proof.
  unfold search_entries. rewrite TextFacts.filter_truthy_normalize.
  destruct (Text.normalize_tokens q) as [|t ts] eqn:Hq.
  - exists []. simpl. split; [done|]. split; [done|]. split; [|split; constructor].
    intros eid. split; [intros Hin; by apply elem_of_nil in Hin|].
    intros [Hne _]. done.
  - cbn [nonempty negb].
    lazymatch goal with
    | |- context [collect ?xs ?f] =>
        pose proof (collect_query
          (fun token => get_entry_ids_for_term (hmac_token P (search_key sess) token))
          (fun ids => (list_to_set ids : gset Z)) xs w) as Hc
    end.
    cbn [map] in Hc.
    eexists. split; [|split; [|split; [|split]]].
    + erewrite bind_Return; [|exact Hc]. reflexivity.
    + discriminate.
    + intros eid. rewrite elem_of_sorted_reverse, elem_of_set_intersection.
      rewrite elem_of_list_to_set, elem_of_get_entry_ids_for_term.
      rewrite Forall_fmap, Forall_forall. split.
      * intros [Ht Hts]. split; [done|]. intros t' [->|Hin]%elem_of_cons; [done|].
        specialize (Hts t' Hin). simpl in Hts.
        by rewrite elem_of_list_to_set, elem_of_get_entry_ids_for_term in Hts.
      * intros [_ H]. split; [apply H; by left|].
        intros t' Hin. simpl.
        rewrite elem_of_list_to_set, elem_of_get_entry_ids_for_term.
        apply H. by right.
    + apply strictly_descending.
      * apply StronglySorted_merge_sort; apply _.
      * apply NoDup_sorted_reverse.
    + apply NoDup_sorted_reverse.
Qed.

(** The scenarios of the specification on Alice's journal ("Day 1" /
    "It rained." is entry 1, "Day 2" / "Night storm" is entry 2). *)
Example search_rained :
  fst (search_entries Reference.primitives Reference.alice_session "rained"
         Reference.journal_world) = Return [1].
Proof. vm_compute. reflexivity. Qed.

Example search_day :
  fst (search_entries Reference.primitives Reference.alice_session "DAY"
         Reference.journal_world) = Return [2; 1].
Proof. vm_compute. reflexivity. Qed.

Example search_and :
  fst (search_entries Reference.primitives Reference.alice_session "day, storm!"
         Reference.journal_world) = Return [2] /\
  fst (search_entries Reference.primitives Reference.alice_session "storm rained"
         Reference.journal_world) = Return [].
Proof. split; vm_compute; reflexivity. Qed.

Example search_empty :
  fst (search_entries Reference.primitives Reference.alice_session " ?! "
         Reference.journal_world) = Return [].
Proof. vm_compute. reflexivity. Qed.

(* ------------------------------------------------------------------ *)
(** ** The term index                                                 *)
(* ------------------------------------------------------------------ *)

Lemma insert_or_ignore_elem ts p q :
  q ∈ insert_or_ignore ts p <-> q ∈ ts \/ q = p.
Proof.
  unfold insert_or_ignore. case_bool_decide as Hp.
  - split; [by left|]. intros [?| ->]; done.
  - rewrite elem_of_app, list_elem_of_singleton. done.
Qed.

Lemma fold_insert_or_ignore_elem pairs ts q :
  q ∈ fold_left insert_or_ignore pairs ts <-> q ∈ ts \/ q ∈ pairs.
Proof.
  revert ts. induction pairs as [|p pairs IH]; intros ts; simpl.
  - rewrite elem_of_nil. tauto.
  - rewrite IH, insert_or_ignore_elem, elem_of_cons. tauto.
Qed.

Lemma insert_or_ignore_NoDup ts p : NoDup ts -> NoDup (insert_or_ignore ts p).
Proof.
  intros Hnd. unfold insert_or_ignore. case_bool_decide as Hp; [done|].
  apply NoDup_app. split; [done|]. split; [|apply NoDup_singleton].
  intros x Hx ->%list_elem_of_singleton. done.
Qed.

Lemma fold_insert_or_ignore_NoDup pairs ts :
  NoDup ts -> NoDup (fold_left insert_or_ignore pairs ts).
Proof.
  revert ts. induction pairs as [|p pairs IH]; intros ts Hnd; simpl; [done|].
  by apply IH, insert_or_ignore_NoDup.
Qed.

(** The statements only append rows, and only rows of the batch. *)
Lemma fold_insert_or_ignore_app pairs ts :
  exists extra,
    fold_left insert_or_ignore pairs ts = ts ++ extra /\
    Forall (fun p => p ∈ pairs) extra.
Proof.
  revert ts. induction pairs as [|p pairs IH]; intros ts; simpl.
  - exists []. by rewrite app_nil_r.
  - destruct (IH (insert_or_ignore ts p)) as (extra & -> & Hex).
    unfold insert_or_ignore. case_bool_decide.
    + exists extra. split; [done|].
      eapply Forall_impl; [exact Hex|]. intros x Hx. by right.
    + exists (p :: extra). split; [by rewrite <- app_assoc|].
      constructor; [by left|].
      eapply Forall_impl; [exact Hex|]. intros x Hx. by right.
Qed.

Lemma insert_entry_terms_elem pairs d q :
  q ∈ entry_terms (insert_entry_terms pairs d) <-> q ∈ entry_terms d \/ q ∈ pairs.
Proof.
  unfold insert_entry_terms. destruct pairs as [|p pairs]; simpl.
  - rewrite elem_of_nil. tauto.
  - rewrite (fold_insert_or_ignore_elem pairs), insert_or_ignore_elem, elem_of_cons. tauto.
Qed.

Lemma insert_entry_terms_NoDup pairs d :
  NoDup (entry_terms d) -> NoDup (entry_terms (insert_entry_terms pairs d)).
Proof.
  intros Hnd. unfold insert_entry_terms. destruct (nonempty pairs); [|done].
  simpl. by apply fold_insert_or_ignore_NoDup.
Qed.

Lemma insert_entry_terms_app pairs d :
  exists extra,
    entry_terms (insert_entry_terms pairs d) = entry_terms d ++ extra /\
    Forall (fun p => p ∈ pairs) extra.
Proof.
  unfold insert_entry_terms. destruct (nonempty pairs).
  - simpl. apply fold_insert_or_ignore_app.
  - exists []. by rewrite app_nil_r.
Qed.

Lemma insert_entry_terms_frame pairs d :
  users (insert_entry_terms pairs d) = users d /\
  users_seq (insert_entry_terms pairs d) = users_seq d /\
  entries (insert_entry_terms pairs d) = entries d /\
  entries_seq (insert_entry_terms pairs d) = entries_seq d.
Proof. unfold insert_entry_terms. by destruct (nonempty pairs). Qed.

Lemma clear_entry_terms_elem eid d e h :
  (e, h) ∈ entry_terms (clear_entry_terms eid d) <-> (e, h) ∈ entry_terms d /\ e <> eid.
Proof.
  unfold clear_entry_terms. simpl.
  rewrite list_elem_of_In, filter_In, <- list_elem_of_In. simpl.
  rewrite negb_true_iff, bool_decide_eq_false. done.
Qed.

Lemma NoDup_filter_list {A} (f : A -> bool) (l : list A) :
  NoDup l -> NoDup (List.filter f l).
Proof.
  induction 1 as [|x l Hx Hl IH]; simpl; [constructor|].
  destruct (f x); [|done]. constructor; [|done].
  rewrite list_elem_of_In, filter_In, <- list_elem_of_In. tauto.
Qed.

Lemma insert_or_ignore_NoDup_filter (f : Z * bytes -> bool) ts p :
  NoDup (List.filter f ts) -> NoDup (List.filter f (insert_or_ignore ts p)).
Proof.
  intros Hnd. unfold insert_or_ignore. case_bool_decide as Hp; [done|].
  rewrite List.filter_app. simpl. destruct (f p); [|by rewrite app_nil_r].
  apply NoDup_app. split; [done|]. split; [|apply NoDup_singleton].
  intros x Hx ->%list_elem_of_singleton.
  apply list_elem_of_In, filter_In in Hx as [Hx _]. by apply list_elem_of_In in Hx.
Qed.

Lemma insert_entry_terms_NoDup_filter (f : Z * bytes -> bool) pairs d :
  NoDup (List.filter f (entry_terms d)) ->
  NoDup (List.filter f (entry_terms (insert_entry_terms pairs d))).
Proof.
  unfold insert_entry_terms. destruct (nonempty pairs); [|done]. simpl.
  generalize (entry_terms d). induction pairs as [|p pairs IH]; intros ts Hnd; simpl; [done|].
  by apply IH, insert_or_ignore_NoDup_filter.
Qed.

(** [clear_entry_terms] leaves no row of the entry. *)
Lemma clear_entry_terms_own eid d :
  List.filter (fun p => bool_decide (fst p = eid)) (entry_terms (clear_entry_terms eid d)) = [].
Proof.
  unfold clear_entry_terms. simpl.
  induction (entry_terms d) as [|x l IH]; simpl; [done|].
  case_bool_decide; simpl; [done|]. by rewrite bool_decide_false.
Qed.

(** [clear_entry_terms] keeps the rows of the other entries, in order. *)
Lemma clear_entry_terms_others eid d :
  List.filter (fun p => negb (bool_decide (fst p = eid)))
    (entry_terms (clear_entry_terms eid d)) =
  List.filter (fun p => negb (bool_decide (fst p = eid))) (entry_terms d).
Proof.
  unfold clear_entry_terms. simpl.
  induction (entry_terms d) as [|x l IH]; simpl; [done|].
  case_bool_decide as Hx; simpl; [done|].
  rewrite bool_decide_false by done. simpl. by rewrite IH.
Qed.

Section Index.
Context (P : Primitives).

Lemma index_pairs_elem key eid title body e h :
  (e, h) ∈ index_pairs P key eid title body <->
  e = eid /\ exists t, t ∈ Text.tokenize title ∪ Text.tokenize body /\ h = hmac_token P key t.
Proof.
  unfold index_pairs, Text.tokenize. rewrite list_elem_of_fmap.
  setoid_rewrite elem_of_elements. rewrite list_to_set_app_L. split.
  - intros (t & [= -> ->] & Ht). eauto.
  - intros (-> & t & Ht & ->). eauto.
Qed.

Lemma index_pairs_fst key eid title body p :
  p ∈ index_pairs P key eid title body -> fst p = eid.
Proof. destruct p as [e h]. rewrite index_pairs_elem. simpl. tauto. Qed.

End Index.

(* ------------------------------------------------------------------ *)
(** ** [update_entry]                                                 *)
(* ------------------------------------------------------------------ *)

Section UpdateEntry.
Context (P : Primitives) (E : Env).

(** [update_entry] always ends normally; the store it leaves. *)
Lemma update_entry_run sess eid title body w :
  let aad := Some (str_encode P (username sess)) in
  let t_nonce := drawn E (cursor w) 12 in
  let b_nonce := drawn E (cursor w + 12) 12 in
  let t_ct := AESGCM_encrypt P (enc_key sess) t_nonce (str_encode P title) aad in
  let b_ct := AESGCM_encrypt P (enc_key sess) b_nonce (str_encode P body) aad in
  update_entry P E sess eid title body w =
  (Return tt,
   {| store :=
        insert_entry_terms (index_pairs P (search_key sess) eid title body)
          (clear_entry_terms eid
             (update_entry_row eid (user_id sess) t_nonce t_ct b_nonce b_ct (store w)));
      backups := backups w;
      cursor := (cursor w + 12 + 12)%nat |}).
Proof.
  intros. unfold update_entry.
  unfold mbind, M_bind, aesgcm_encrypt, token_bytes, mret, M_ret, execute, NONCE_LEN.
  cbn [store backups cursor].
  destruct (nonempty (index_pairs P (search_key sess) eid title body)) eqn:Hp.
  - reflexivity.
  - unfold insert_entry_terms. rewrite Hp. reflexivity.
Qed.

End UpdateEntry.

(** C7.  After [update_entry] the term rows of the entry are exactly the
    digests, under the session's search key, of the tokens of the new
    title and the new body: no digest of the previous text survives.  The
    rows of the entry are pairwise distinct, and a table without
    duplicate pairs stays without duplicate pairs. *)
Theorem update_entry_rebuilds_index (P : Primitives) (E : Env)
    (sess : SessionKeys) (entry_id : Z) (new_title new_body : string) (w : world) :
  exists w',
    update_entry P E sess entry_id new_title new_body w = (Return tt, w') /\
    (forall h,
       (entry_id, h) ∈ entry_terms (store w') <->
       exists t, t ∈ Text.tokenize new_title ∪ Text.tokenize new_body /\
                 h = hmac_token P (search_key sess) t) /\
    NoDup (List.filter (fun p => bool_decide (fst p = entry_id)) (entry_terms (store w'))) /\
    (NoDup (entry_terms (store w)) -> NoDup (entry_terms (store w'))).
Proof.
  eexists. split; [apply update_entry_run|]. cbn [store].
  split; [|split].
  - intros h. rewrite insert_entry_terms_elem, clear_entry_terms_elem, index_pairs_elem.
    split.
    + intros [[_ Hne]|[_ H]]; [done|exact H].
    + intros H. right. done.
  - apply insert_entry_terms_NoDup_filter. rewrite clear_entry_terms_own. constructor.
  - intros Hnd. apply insert_entry_terms_NoDup. unfold clear_entry_terms. simpl.
    by apply NoDup_filter_list.
Qed.

Lemma Forall2_map_self {A} (R : A -> A -> Prop) (f : A -> A) (l : list A) :
  (forall x, R x (f x)) -> Forall2 R l (map f l).
Proof. intros H. induction l; simpl; constructor; auto. Qed.

(** Rows appended by [insert_entry_terms] belong to the batch, so a filter
    that rejects the batch does not see them. *)
Lemma insert_entry_terms_others (f : Z * bytes -> bool) pairs d :
  (forall p, p ∈ pairs -> f p = false) ->
  List.filter f (entry_terms (insert_entry_terms pairs d)) = List.filter f (entry_terms d).
Proof.
  intros Hf. destruct (insert_entry_terms_app pairs d) as (extra & -> & Hex).
  rewrite List.filter_app.
  replace (List.filter f extra) with (@nil (Z * bytes)); [by rewrite app_nil_r|].
  induction Hex as [|x l Hx Hl IH]; simpl; [done|].
  by rewrite (Hf x Hx).
Qed.

Lemma update_entry_row_frame eid uid tn tc bn bc d :
  Forall2 (entry_frame eid) (entries d) (entries (update_entry_row eid uid tn tc bn bc d)).
Proof.
  unfold update_entry_row. cbn [entries with_entries].
  apply Forall2_map_self. intros r. unfold entry_frame, entry_is.
  destruct (bool_decide (e_id r = eid)) eqn:Hid; simpl.
  - apply bool_decide_eq_true in Hid.
    destruct (bool_decide (e_user_id r = uid)); simpl; repeat split; done.
  - repeat split; done.
Qed.

(** The store that [update_entry] leaves, against the one it started from. *)
Lemma update_store_frame pairs eid uid tn tc bn bc d :
  (forall p, p ∈ pairs -> fst p = eid) ->
  let d' := insert_entry_terms pairs
              (clear_entry_terms eid (update_entry_row eid uid tn tc bn bc d)) in
  users d' = users d /\ users_seq d' = users_seq d /\ entries_seq d' = entries_seq d /\
  Forall2 (entry_frame eid) (entries d) (entries d') /\
  List.filter (fun p => negb (bool_decide (fst p = eid))) (entry_terms d') =
  List.filter (fun p => negb (bool_decide (fst p = eid))) (entry_terms d).
Proof.
  intros Hp d'.
  destruct (insert_entry_terms_frame pairs
              (clear_entry_terms eid (update_entry_row eid uid tn tc bn bc d)))
    as (Hu & Hus & He & Hes).
  subst d'. rewrite Hu, Hus, He, Hes.
  repeat (split; [reflexivity|]). split.
  - change (entries (clear_entry_terms eid (update_entry_row eid uid tn tc bn bc d)))
      with (entries (update_entry_row eid uid tn tc bn bc d)).
    apply update_entry_row_frame.
  - rewrite insert_entry_terms_others.
    + apply (clear_entry_terms_others eid (update_entry_row eid uid tn tc bn bc d)).
    + intros p Hin. by rewrite (Hp p Hin), bool_decide_true.
Qed.

(** C10.  [update_entry] leaves the [users] table, both AUTOINCREMENT
    counters and the backups as they were; the [entries] table keeps its
    rows in place, each with the same id, owner, creation time and map
    columns, and every row with another id entirely unchanged; and the
    term rows of the other entries are the same rows in the same order. *)
Theorem update_entry_frame (P : Primitives) (E : Env)
    (sess : SessionKeys) (entry_id : Z) (new_title new_body : string) (w : world) :
  exists w',
    update_entry P E sess entry_id new_title new_body w = (Return tt, w') /\
    users (store w') = users (store w) /\
    users_seq (store w') = users_seq (store w) /\
    entries_seq (store w') = entries_seq (store w) /\
    backups w' = backups w /\
    Forall2 (entry_frame entry_id) (entries (store w)) (entries (store w')) /\
    List.filter (fun p => negb (bool_decide (fst p = entry_id))) (entry_terms (store w')) =
    List.filter (fun p => negb (bool_decide (fst p = entry_id))) (entry_terms (store w)).
Proof.
  eexists. split; [apply update_entry_run|]. cbn [store backups].
  edestruct (update_store_frame
               (index_pairs P (search_key sess) entry_id new_title new_body))
    as (Hu & Hus & Hes & He & Ht);
    [intros p; apply index_pairs_fst|].
  split; [exact Hu|]. split; [exact Hus|]. split; [exact Hes|].
  split; [reflexivity|]. split; [exact He|exact Ht].
Qed.

(* ------------------------------------------------------------------ *)
(** ** The reference primitives satisfy the contract                  *)
(* ------------------------------------------------------------------ *)

Module ReferenceFacts.
Import Reference.

Lemma half_double (n : nat) : ((n + n) / 2)%nat = n.
Proof.
  replace (n + n)%nat with (n * 2)%nat by lia. by apply Nat.div_mul.
Qed.

Lemma decrypt_encrypt k n m a : decrypt k n (encrypt k n m a) a = Some m.
Proof.
  unfold decrypt, encrypt. rewrite length_app, half_double.
  rewrite take_app_length, drop_app_length.
  rewrite decide_True by done.
  rewrite take_app_length, drop_app_length.
  by rewrite decide_True.
Qed.

Lemma ideal : Ideal primitives.
Proof.
  constructor; simpl.
  - intros salt pw pw'. done.
  - apply decrypt_encrypt.
Qed.

End ReferenceFacts.

(* ------------------------------------------------------------------ *)
(** ** Registration and login                                         *)
(* ------------------------------------------------------------------ *)

Lemma rstrip_empty s : Text.rstrip s = "" <-> Text.all_chars Text.isspace s = true.
Proof.
  induction s as [|c s IH]; simpl; [done|].
  destruct (Text.rstrip s) as [|c' r].
  - destruct (Text.isspace c); simpl; [tauto|]. split; discriminate.
  - split; [discriminate|]. intros [_ H]%andb_true_iff. apply IH in H. discriminate.
Qed.

Lemma lstrip_cases s :
  (Text.lstrip s = "" /\ Text.all_chars Text.isspace s = true) \/
  (exists c r, Text.lstrip s = String c r /\ Text.isspace c = false /\
               Text.all_chars Text.isspace s = false).
Proof.
  induction s as [|c s IH]; simpl; [by left|].
  destruct (Text.isspace c) eqn:Hc; simpl; [exact IH|].
  right. eauto.
Qed.

(** [not s.strip()] holds exactly for the empty and the whitespace-only
    strings. *)
Lemma strip_blank s :
  negb (Text.truthy (Text.strip s)) = Text.all_chars Text.isspace s.
Proof.
  unfold Text.strip. destruct (lstrip_cases s) as [[-> ->]|(c & r & -> & Hc & ->)]; [done|].
  destruct (Text.rstrip (String c r)) eqn:Hr; [|done].
  apply rstrip_empty in Hr. simpl in Hr. by rewrite Hc in Hr.
Qed.

Lemma find_app_None {A} (f : A -> bool) (l : list A) (x : A) :
  List.find f l = None -> List.find f (l ++ [x]) = if f x then Some x else None.
Proof.
  induction l as [|y l IH]; simpl; [done|].
  destruct (f y); [discriminate|]. exact IH.
Qed.

Section Register.
Context (P : Primitives) (E : Env).

(** The rejection of a blank question or answer. *)
Lemma register_user_blank name password q a w :
  Text.all_chars Text.isspace q || Text.all_chars Text.isspace a = true ->
  register_user P E name password q a w =
  (Raise (ValueError "Security question and answer are required"),
   {| store := store w; backups := backups w; cursor := (cursor w + 16)%nat |}).
Proof.
  intros Hb. unfold register_user. rewrite !strip_blank, Hb. reflexivity.
Qed.

(** With a question and an answer, [register_user] reaches the INSERT. *)
Lemma register_user_insert name password q a w :
  Text.all_chars Text.isspace q || Text.all_chars Text.isspace a = false ->
  let pwd_hash := argon2_hash P (drawn E (cursor w) 16) password in
  let answer_hash := argon2_hash P (drawn E (cursor w + 16) 16) a in
  let dek := drawn E (cursor w + 16 + 16) 32 in
  let kek_salt := drawn E (cursor w + 16 + 16 + 32) 16 in
  let nonce := drawn E (cursor w + 16 + 16 + 32 + 16) 12 in
  let wrap_key := hkdf_derive P (scrypt_kdf P password kek_salt 32) (b "wrap-key") 32 in
  let wrapped := AESGCM_encrypt P wrap_key nonce dek (Some (str_encode P name)) in
  let w1 := {| store := store w; backups := backups w;
               cursor := (cursor w + 16 + 16 + 32 + 16 + 12)%nat |} in
  register_user P E name password q a w =
  match insert_user name pwd_hash kek_salt wrapped nonce q answer_hash
          (utcnow_isoformat E) (store w) with
  | inl e => (Raise e, w1)
  | inr d => (Return tt, {| store := d; backups := backups w; cursor := cursor w1 |})
  end.
Proof.
  intros Hb. unfold register_user. rewrite !strip_blank, Hb. reflexivity.
Qed.

End Register.

(** C9.  [register_user] raises [ValueError("Security question and answer
    are required")] (the spec's ValidationError) when the question or the
    answer is empty or consists of whitespace; otherwise, when a row with
    the username exists, the INSERT violates the UNIQUE constraint and
    [sqlite3.IntegrityError] (the spec's DuplicateUser) comes out.  In
    both cases the store is left as it was: no row is added and the
    existing row is unchanged. *)
Theorem register_user_rejects (P : Primitives) (E : Env)
    (name password question answer : string) (w : world) :
  let blank := Text.all_chars Text.isspace question || Text.all_chars Text.isspace answer in
  blank = true \/ get_user_by_username name (store w) <> None ->
  exists w',
    register_user P E name password question answer w =
      (Raise (if blank
              then ValueError "Security question and answer are required"
              else IntegrityError "UNIQUE constraint failed: users.username"), w') /\
    store w' = store w /\ backups w' = backups w.
Proof.
  intros blank H. subst blank.
  destruct (Text.all_chars Text.isspace question || Text.all_chars Text.isspace answer)
    eqn:Hb.
  - eexists. split; [by apply register_user_blank|]. done.
  - destruct H as [H|H]; [done|].
    rewrite register_user_insert by done. cbv zeta.
    unfold insert_user.
    destruct (get_user_by_username name (store w)); [|done].
    eexists. split; [reflexivity|]. done.
Qed.

(** A blank question with an unused name, and a proper question with a
    name that is taken. *)
Lemma register_user_rejects_witness :
  (exists w',
     register_user Reference.primitives Reference.env "alice" "Pw1!" "  " "Rex"
       Reference.empty_world =
     (Raise (ValueError "Security question and answer are required"), w') /\
     store w' = store Reference.empty_world /\ backups w' = backups Reference.empty_world) /\
  (exists w',
     register_user Reference.primitives Reference.env "alice" "Other9" "first car?" "Mini"
       Reference.alice_world =
     (Raise (IntegrityError "UNIQUE constraint failed: users.username"), w') /\
     store w' = store Reference.alice_world /\ backups w' = backups Reference.alice_world).
Proof.
  split.
  - apply (register_user_rejects Reference.primitives Reference.env
             "alice" "Pw1!" "  " "Rex" Reference.empty_world).
    left. reflexivity.
  - apply (register_user_rejects Reference.primitives Reference.env
             "alice" "Other9" "first car?" "Mini" Reference.alice_world).
    right. discriminate.
Defined.

Section Login.
Context (P : Primitives).

(** [login_user] on a stored row, step by step. *)
Lemma login_user_row name password w row :
  get_user_by_username name (store w) = Some row ->
  login_user P name password w =
  match argon2_verify P (u_pwd_hash row) password with
  | Verified =>
      let wrap_key :=
        hkdf_derive P (scrypt_kdf P password (u_kek_salt row) 32) (b "wrap-key") 32 in
      match AESGCM_decrypt P wrap_key (u_dek_wrap_nonce row) (u_dek_wrapped row)
              (Some (str_encode P (u_username row))) with
      | Some dek =>
          (Return {| user_id := u_id row; username := u_username row; dek := dek;
                     enc_key := hkdf_derive P dek HKDF_INFO_ENC 32;
                     search_key := hkdf_derive P dek HKDF_INFO_HMAC 32 |}, w)
      | None => (Raise InvalidTag, w)
      end
  | Mismatch => (Raise (ValueError "Invalid password"), w)
  | InvalidHash => (Raise InvalidHashError, w)
  end.
Proof.
  intros Hrow. unfold login_user.
  erewrite bind_Return; [|unfold query; by rewrite Hrow].
  unfold mbind, M_bind, except_mismatch, PH_verify, aesgcm_decrypt.
  destruct (argon2_verify P (u_pwd_hash row) password); try reflexivity.
  cbn. destruct (AESGCM_decrypt P _ _ _ _); reflexivity.
Qed.

Lemma login_user_unknown name password w :
  get_user_by_username name (store w) = None ->
  login_user P name password w = (Raise (ValueError "User not found"), w).
Proof.
  intros Hrow. unfold login_user.
  erewrite bind_Return; [|unfold query; by rewrite Hrow]. reflexivity.
Qed.

Lemma get_user_by_username_name name d row :
  get_user_by_username name d = Some row -> u_username row = name.
Proof.
  unfold get_user_by_username. intros [_ H]%find_some.
  by apply bool_decide_eq_true in H.
Qed.

End Login.

(** C4.  After a successful [register_user], [login_user] with the same
    name and password ends normally and returns the session of the new
    row: its [dek] is the 32 bytes that registration drew for the DEK,
    and its two subkeys are the HKDF derivations of that DEK.  A login
    with any other password raises [ValueError("Invalid password")] (the
    spec's AuthenticationFailure), as does, on any store, a login whose
    hash check reports a mismatch; and a login for a name without a row
    raises [ValueError("User not found")] (UserNotFound). *)
Theorem register_then_login (P : Primitives) (E : Env) (HP : Ideal P)
    (name password question answer : string) (w w' : world) :
  register_user P E name password question answer w = (Return tt, w') ->
  let dek0 := drawn E (cursor w + 16 + 16) 32 in
  login_user P name password w' =
    (Return {| user_id := users_seq (store w) + 1; username := name; dek := dek0;
               enc_key := hkdf_derive P dek0 HKDF_INFO_ENC 32;
               search_key := hkdf_derive P dek0 HKDF_INFO_HMAC 32 |}, w') /\
  (forall pw, pw <> password ->
     login_user P name pw w' = (Raise (ValueError "Invalid password"), w')) /\
  (forall v n pw row,
     get_user_by_username n (store v) = Some row ->
     argon2_verify P (u_pwd_hash row) pw = Mismatch ->
     login_user P n pw v = (Raise (ValueError "Invalid password"), v)) /\
  (forall v n pw,
     get_user_by_username n (store v) = None ->
     login_user P n pw v = (Raise (ValueError "User not found"), v)).
Proof.
  intros Hreg dek0.
  destruct (Text.all_chars Text.isspace question || Text.all_chars Text.isspace answer)
    eqn:Hb.
  { rewrite register_user_blank in Hreg by done. discriminate. }
  rewrite register_user_insert in Hreg by done. cbv zeta in Hreg.
  unfold insert_user in Hreg.
  destruct (get_user_by_username name (store w)) eqn:Hnone; [discriminate|].
  injection Hreg as <-.
  match goal with
  | |- context [with_users (users (store w) ++ [?r]) _ _] => set (row := r)
  end.
  assert (Hrow : get_user_by_username name
                   (with_users (users (store w) ++ [row]) (users_seq (store w) + 1) (store w))
                 = Some row).
  { unfold get_user_by_username in *. cbn [users with_users].
    rewrite find_app_None by done. subst row. cbn [u_username].
    by rewrite bool_decide_true. }
  split; [|split; [|split]].
  - rewrite (login_user_row P name password _ row) by exact Hrow.
    subst row. cbn [u_pwd_hash u_kek_salt u_dek_wrap_nonce u_dek_wrapped u_username u_id].
    rewrite (argon2_spec P HP), decide_True by done. cbv zeta.
    rewrite (aead_roundtrip P HP). reflexivity.
  - intros pw Hpw.
    rewrite (login_user_row P name pw _ row) by exact Hrow.
    subst row. cbn [u_pwd_hash].
    rewrite (argon2_spec P HP), decide_False by done. reflexivity.
  - intros v n pw r Hr Hm. rewrite (login_user_row P n pw v r) by exact Hr.
    by rewrite Hm.
  - intros v n pw Hn. by apply login_user_unknown.
Qed.

(** The scenario of the specification:
    register("alice","Pw1!","pet name?","Rex"), then login. *)
Lemma register_then_login_witness :
  exists sess,
    login_user Reference.primitives "alice" "Pw1!" Reference.alice_world =
      (Return sess, Reference.alice_world) /\
    dek sess = drawn Reference.env 32 32 /\
    login_user Reference.primitives "alice" "wrong" Reference.alice_world =
      (Raise (ValueError "Invalid password"), Reference.alice_world).
Proof.
  pose proof (register_then_login Reference.primitives Reference.env ReferenceFacts.ideal
                "alice" "Pw1!" "pet name?" "Rex"
                Reference.empty_world Reference.alice_world eq_refl) as (H1 & H2 & _).
  eexists. split; [exact H1|]. split; [reflexivity|].
  apply H2. discriminate.
Defined.

(* ------------------------------------------------------------------ *)
(** ** The session keys and the entry codec                           *)
(* ------------------------------------------------------------------ *)

(** What the code decides of the two subkeys: they are derived from one
    DEK, with the same length and with two different labels.  Whether the
    two derived keys differ is a property of HKDF. *)
Lemma HKDF_INFO_distinct : HKDF_INFO_ENC <> HKDF_INFO_HMAC.
Proof. discriminate. Qed.

Lemma login_user_session_keys (P : Primitives) name password w sess w' :
  login_user P name password w = (Return sess, w') ->
  (enc_key sess, search_key sess) = derive_session_keys P (dek sess).
Proof.
  intros Hlogin.
  destruct (get_user_by_username name (store w)) as [row|] eqn:Hrow.
  - rewrite (login_user_row P name password w row Hrow) in Hlogin.
    destruct (argon2_verify P (u_pwd_hash row) password); try discriminate.
    cbv zeta in Hlogin.
    destruct (AESGCM_decrypt P _ _ _ _) as [d|]; [|discriminate].
    by injection Hlogin as <- <-.
  - rewrite login_user_unknown in Hlogin by done. discriminate.
Qed.

(** What the code decides of the entry codec: [aesgcm_encrypt] draws a
    12-byte nonce and returns it with the ciphertext, and
    [aesgcm_decrypt] hands key, nonce, ciphertext and associated data to
    the library unchanged, so the pair decrypts to the plaintext whenever
    the library decrypts what it encrypted.  What the library does with
    any other input is the library's. *)
Lemma aesgcm_wrappers_roundtrip (P : Primitives) (E : Env) (HP : Ideal P)
    (K M0 : bytes) (aad : option bytes) (w : world) :
  exists nonce ct w',
    aesgcm_encrypt P E K M0 aad w = (Return (nonce, ct), w') /\
    length nonce = NONCE_LEN /\
    (forall v, aesgcm_decrypt P K nonce ct aad v = (Return M0, v)).
Proof.
  eexists _, _, _. split; [reflexivity|].
  split; [unfold drawn; by rewrite List.length_map, List.length_seq|].
  intros v. unfold aesgcm_decrypt. by rewrite (aead_roundtrip P HP).
Qed.

(* ------------------------------------------------------------------ *)
(** ** Password reset                                                 *)
(* ------------------------------------------------------------------ *)

Lemma find_map_preserve {A} (p : A -> bool) (f : A -> A) (l : list A) :
  (forall x, p (f x) = p x) -> List.find p (map f l) = option_map f (List.find p l).
Proof.
  intros Hp. induction l as [|x l IH]; simpl; [done|].
  rewrite Hp. by destruct (p x).
Qed.

Section Reset.
Context (P : Primitives) (E : Env).

(** [reset_password_with_security_answer], case by case. *)
Lemma reset_password_cases name security_answer new_password w :
  reset_password_with_security_answer P E name security_answer new_password w =
  if negb (Text.truthy security_answer)
  then (Raise (ValueError "Security answer required"), w)
  else if negb (Text.truthy new_password)
  then (Raise (ValueError "New password required"), w)
  else match get_user_by_username name (store w) with
       | None => (Raise (ValueError "User not found"), w)
       | Some row =>
           match argon2_verify P (u_security_answer_hash row) security_answer with
           | Verified =>
               (Return tt,
                {| store := reset_store P E row new_password w;
                   backups := copy_to (now_strftime E) (store w) (backups w);
                   cursor := (cursor w + 32 + 16 + 16 + 12)%nat |})
           | Mismatch => (Raise (ValueError "Invalid security answer"), w)
           | InvalidHash => (Raise InvalidHashError, w)
           end
       end.
Proof.
  unfold reset_password_with_security_answer.
  destruct (negb (Text.truthy security_answer)); [done|].
  destruct (negb (Text.truthy new_password)); [done|].
  unfold mbind at 1, M_bind at 1, query.
  destruct (get_user_by_username name (store w)) as [row|] eqn:Hrow; [|done].
  pose proof (get_user_by_username_name name (store w) row Hrow) as Hname.
  unfold mbind, M_bind, except_mismatch, PH_verify.
  destruct (argon2_verify P (u_security_answer_hash row) security_answer); try reflexivity.
  unfold reset_store. rewrite Hname. reflexivity.
Qed.

End Reset.

(** C3, where the code departs from it.  A successful
    [reset_password_with_security_answer] leaves the [entry_terms] table
    exactly as it was: [delete_entries_for_user] runs its DELETE on a
    fresh connection on which foreign keys are not enforced, so the
    term rows of the deleted entries are not removed by the cascade. *)
Theorem reset_password_keeps_term_rows (P : Primitives) (E : Env)
    (name security_answer new_password : string) (w w' : world) :
  reset_password_with_security_answer P E name security_answer new_password w
    = (Return tt, w') ->
  entry_terms (store w') = entry_terms (store w).
Proof.
  rewrite reset_password_cases.
  destruct (negb (Text.truthy security_answer)); [discriminate|].
  destruct (negb (Text.truthy new_password)); [discriminate|].
  destruct (get_user_by_username name (store w)) as [row|]; [|discriminate].
  destruct (argon2_verify P (u_security_answer_hash row) security_answer); try discriminate.
  intros [= <-]. reflexivity.
Qed.

(** Alice resets her password: her two entries are gone and all their
    term rows are still in the index. *)
Lemma reset_password_keeps_term_rows_witness :
  let r := reset_password_with_security_answer Reference.primitives Reference.env
             "alice" "Rex" "Pw2!" Reference.journal_world in
  fst r = Return tt /\
  entries (store (snd r)) = [] /\
  entry_terms (store (snd r)) = Reference.journal_terms /\
  (1, hmac_token Reference.primitives (search_key Reference.alice_session) "rained")
    ∈ entry_terms (store (snd r)).
Proof.
  intros r.
  assert (Hr : r = (Return tt, snd r)) by (vm_compute; reflexivity).
  split; [vm_compute; reflexivity|]. split; [vm_compute; reflexivity|].
  pose proof (reset_password_keeps_term_rows Reference.primitives Reference.env
                "alice" "Rex" "Pw2!" Reference.journal_world (snd r) Hr) as Hkeep.
  split; [exact Hkeep|].
  rewrite Hkeep. vm_compute. apply list_elem_of_In. vm_compute. tauto.
Defined.

(** The intended behaviour is within reach of the schema: on a connection
    that enforces foreign keys the same DELETE removes the term rows of
    the deleted entries. *)
Lemma delete_entries_where_cascade conn p d eid h :
  foreign_keys conn = true ->
  eid ∈ map e_id (List.filter p (entries d)) ->
  (eid, h) ∉ entry_terms (delete_entries_where conn p d).
Proof.
  intros Hfk Hin. unfold delete_entries_where. cbn [entry_terms]. rewrite Hfk.
  rewrite list_elem_of_In, filter_In. intros [_ H]. simpl in H.
  apply negb_true_iff, bool_decide_eq_false in H. done.
Qed.

(** The rest of C3 holds.  After a successful reset the user owns no
    entry row, the credential row wraps the DEK drawn during the call,
    login with the new password returns that DEK, and login with any
    other password (the old one, unless it was chosen again) raises
    [ValueError("Invalid password")]; an answer that does not verify
    raises [ValueError("Invalid security answer")] and changes nothing. *)
Lemma reset_password_rest (P : Primitives) (E : Env) (HP : Ideal P)
    (name security_answer new_password : string) (w : world) :
  (forall w',
     reset_password_with_security_answer P E name security_answer new_password w
       = (Return tt, w') ->
     exists row,
       get_user_by_username name (store w) = Some row /\
       (forall r, r ∈ entries (store w') -> e_user_id r <> u_id row) /\
       login_user P name new_password w' =
         (Return {| user_id := u_id row; username := name;
                    dek := drawn E (cursor w) 32;
                    enc_key := hkdf_derive P (drawn E (cursor w) 32) HKDF_INFO_ENC 32;
                    search_key := hkdf_derive P (drawn E (cursor w) 32) HKDF_INFO_HMAC 32 |},
          w') /\
       (forall pw, pw <> new_password ->
          login_user P name pw w' = (Raise (ValueError "Invalid password"), w'))) /\
  (forall row,
     Text.truthy security_answer = true -> Text.truthy new_password = true ->
     get_user_by_username name (store w) = Some row ->
     argon2_verify P (u_security_answer_hash row) security_answer = Mismatch ->
     reset_password_with_security_answer P E name security_answer new_password w
       = (Raise (ValueError "Invalid security answer"), w)).
Proof.
  split.
  - intros w'. rewrite reset_password_cases.
    destruct (negb (Text.truthy security_answer)); [discriminate|].
    destruct (negb (Text.truthy new_password)); [discriminate|].
    destruct (get_user_by_username name (store w)) as [row|] eqn:Hrow; [|discriminate].
    destruct (argon2_verify P (u_security_answer_hash row) security_answer); try discriminate.
    intros [= <-]. exists row. split; [done|].
    pose proof (get_user_by_username_name name (store w) row Hrow) as Hname.
    match goal with
    | |- context [login_user P name new_password ?v] => set (w1 := v)
    end.
    assert (Hnew : exists row',
               get_user_by_username name (store w1) = Some row' /\
               u_id row' = u_id row /\ u_username row' = name /\
               u_pwd_hash row' = argon2_hash P (drawn E (cursor w + 32) 16) new_password /\
               AESGCM_decrypt P
                 (hkdf_derive P (scrypt_kdf P new_password (u_kek_salt row') 32)
                    (b "wrap-key") 32)
                 (u_dek_wrap_nonce row') (u_dek_wrapped row')
                 (Some (str_encode P (u_username row'))) = Some (drawn E (cursor w) 32)).
    { eexists. split.
      - subst w1. cbn [store]. unfold reset_store, update_user_credentials,
          get_user_by_username in *. cbn [users with_users delete_entries_for_user
          delete_entries_where].
        rewrite find_map_preserve.
        + rewrite Hrow. cbn [option_map]. rewrite bool_decide_true by done. reflexivity.
        + intros x. by destruct (bool_decide (u_id x = u_id row)).
      - cbn. rewrite (aead_roundtrip P HP). done. }
    destruct Hnew as (row' & Hrow' & Hid & Hn & Hh & Hd).
    split; [|split].
    + intros r Hr. subst w1. cbn in Hr.
      apply list_elem_of_In, filter_In in Hr as [_ Hr].
      by apply negb_true_iff, bool_decide_eq_false in Hr.
    + rewrite (login_user_row P name new_password w1 row' Hrow').
      rewrite Hh, (argon2_spec P HP), decide_True by done. cbv zeta.
      rewrite Hd, Hid, Hn. reflexivity.
    + intros pw Hpw.
      rewrite (login_user_row P name pw w1 row' Hrow').
      rewrite Hh, (argon2_spec P HP), decide_False by done. reflexivity.
  - intros row Ha Hn Hrow Hm. rewrite reset_password_cases, Ha, Hn, Hrow, Hm. reflexivity.
Qed.

(* ------------------------------------------------------------------ *)
(** ** Password change                                                *)
(* ------------------------------------------------------------------ *)

Section ChangePassword.
Context (P : Primitives) (E : Env).

Lemma bind_ret_l {A B} (a : A) (f : A -> M B) w : (mret a ≫= f) w = f a w.
Proof. reflexivity. Qed.

Lemma bind_raise_l {A B} (x : exn) (f : A -> M B) w :
  (raise x ≫= f) w = (Raise x, w).
Proof. reflexivity. Qed.

Lemma bind_bind {A B C} (m : M A) (f : A -> M B) (g : B -> M C) w :
  ((m ≫= f) ≫= g) w = (m ≫= fun a => f a ≫= g) w.
Proof. unfold mbind, M_bind. by destruct (m w) as [[a|x] w']. Qed.

Lemma bind_aesgcm_encrypt {B} key pt aad (f : bytes * bytes -> M B) w :
  (aesgcm_encrypt P E key pt aad ≫= f) w =
  f (drawn E (cursor w) 12, AESGCM_encrypt P key (drawn E (cursor w) 12) pt aad)
    {| store := store w; backups := backups w; cursor := (cursor w + 12)%nat |}.
Proof. reflexivity. Qed.

Lemma bind_execute {B} (g : database -> database) (f : unit -> M B) w :
  (execute g ≫= f) w =
  f tt {| store := g (store w); backups := backups w; cursor := cursor w |}.
Proof. reflexivity. Qed.

(** The loop body either raises while reading, and then has written
    nothing, or reads everything and then commits its three statements. *)
Lemma migrate_entry_cases sess k_enc k_search entry w :
  migrate_entry P E sess k_enc k_search entry w =
  match open_entry P sess entry with
  | inl x => (Raise x, w)
  | inr (title, body, map_text) =>
      (Return tt, migrated P E sess k_enc k_search entry title body map_text w)
  end.
Proof.
  unfold migrate_entry, open_entry, open_field, aesgcm_decrypt, decode.
  destruct (AESGCM_decrypt P (enc_key sess) (e_title_nonce entry) (e_title_ct entry) _)
    as [tb|]; [rewrite bind_ret_l|by rewrite bind_raise_l].
  destruct (bytes_decode P tb) as [title|]; [rewrite bind_ret_l|by rewrite bind_raise_l].
  destruct (AESGCM_decrypt P (enc_key sess) (e_body_nonce entry) (e_body_ct entry) _)
    as [bb|]; [rewrite bind_ret_l|by rewrite bind_raise_l].
  destruct (bytes_decode P bb) as [body|]; [rewrite bind_ret_l|by rewrite bind_raise_l].
  destruct (e_map_ct entry) as [ct|].
  - destruct (nonempty ct).
    + rewrite bind_bind.
      destruct (e_map_nonce entry) as [n|]; [rewrite bind_ret_l|by rewrite bind_raise_l].
      rewrite bind_bind.
      destruct (AESGCM_decrypt P (enc_key sess) n ct _) as [mb|];
        [rewrite bind_ret_l|by rewrite bind_raise_l].
      rewrite bind_bind.
      destruct (bytes_decode P mb) as [map_text|];
        [rewrite bind_ret_l|by rewrite bind_raise_l].
      rewrite bind_bind, bind_aesgcm_encrypt, bind_ret_l.
      rewrite !bind_aesgcm_encrypt, !bind_execute. reflexivity.
    + rewrite bind_ret_l, !bind_aesgcm_encrypt, !bind_execute. reflexivity.
  - rewrite bind_ret_l, !bind_aesgcm_encrypt, !bind_execute. reflexivity.
Qed.

Lemma migrate_entry_raise sess k_enc k_search entry w x w' :
  migrate_entry P E sess k_enc k_search entry w = (Raise x, w') -> w' = w.
Proof.
  rewrite migrate_entry_cases.
  destruct (open_entry P sess entry) as [y|[[title body] m]]; [|discriminate].
  by intros [= _ ->].
Qed.

Lemma update_entry_row_with_map_frame eid uid tn tc bn bc mn mc mf d :
  Forall2 (fun r r' => e_id r <> eid -> r' = r)
    (entries d) (entries (update_entry_row_with_map eid uid tn tc bn bc mn mc mf d)).
Proof.
  unfold update_entry_row_with_map. cbn [entries with_entries].
  apply Forall2_map_self. intros r Hne. unfold entry_is.
  by rewrite bool_decide_false.
Qed.

(** What a completed loop body leaves of the store it found. *)
Lemma migrate_entry_frame sess k_enc k_search entry w w' :
  migrate_entry P E sess k_enc k_search entry w = (Return tt, w') ->
  users (store w') = users (store w) /\
  users_seq (store w') = users_seq (store w) /\
  backups w' = backups w /\
  Forall2 (fun r r' => e_id r <> e_id entry -> r' = r)
    (entries (store w)) (entries (store w')).
Proof.
  rewrite migrate_entry_cases.
  destruct (open_entry P sess entry) as [y|[[title body] m]]; [discriminate|].
  intros [= <-]. unfold migrated. cbn [store backups].
  destruct (insert_entry_terms_frame
              (index_pairs P k_search (e_id entry) title body)
              (clear_entry_terms (e_id entry)
                 (update_entry_row_with_map (e_id entry) (user_id sess)
                    (drawn E (match m with Some _ => (cursor w + 12)%nat | None => cursor w end) 12)
                    (AESGCM_encrypt P k_enc
                       (drawn E (match m with Some _ => (cursor w + 12)%nat | None => cursor w end) 12)
                       (str_encode P title) (Some (str_encode P (username sess))))
                    (drawn E (match m with Some _ => (cursor w + 12)%nat | None => cursor w end + 12) 12)
                    (AESGCM_encrypt P k_enc
                       (drawn E (match m with Some _ => (cursor w + 12)%nat | None => cursor w end + 12) 12)
                       (str_encode P body) (Some (str_encode P (username sess))))
                    (option_map (fun _ => drawn E (cursor w) 12) m)
                    (option_map (fun m0 => AESGCM_encrypt P k_enc (drawn E (cursor w) 12)
                                   (str_encode P m0) (Some (str_encode P (username sess)))) m)
                    (match e_map_format entry with
                     | Some f => if Text.truthy f then f else "ascii"
                     | None => "ascii"
                     end)
                    (store w)))) as (Hu & Hus & He & _).
  rewrite Hu, Hus, He.
  repeat (split; [reflexivity|]).
  apply update_entry_row_with_map_frame.
Qed.

(** A loop that raises has completed a prefix of its list and raised on
    the next element. *)
Lemma for_each_raise {A} (xs : list A) (body : A -> M unit) w x w' :
  for_each xs body w = (Raise x, w') ->
  exists done failing rest w1,
    xs = done ++ failing :: rest /\
    for_each done body w = (Return tt, w1) /\
    body failing w1 = (Raise x, w').
Proof.
  revert w. induction xs as [|a xs IH]; intros w; [discriminate|].
  cbn [for_each]. intros [H|(u & w1 & Ha & H)]%bind_inv_Raise.
  - exists [], a, xs, w. done.
  - destruct u. apply IH in H as (done & failing & rest & w2 & -> & Hd & Hf).
    exists (a :: done), failing, rest, w2. split; [done|]. split; [|done].
    cbn [for_each]. by erewrite bind_Return.
Qed.

Lemma for_each_migrate_frame sess k_enc k_search done w w' :
  for_each done (migrate_entry P E sess k_enc k_search) w = (Return tt, w') ->
  users (store w') = users (store w) /\
  users_seq (store w') = users_seq (store w) /\
  backups w' = backups w /\
  Forall2 (fun r r' => e_id r ∉ map e_id done -> r' = r)
    (entries (store w)) (entries (store w')).
Proof.
  revert w. induction done as [|a done IH]; intros w.
  - intros [= <-]. repeat (split; [reflexivity|]).
    apply Forall2_same_length_lookup_2; [done|]. intros i r r' H1 H2 _. congruence.
  - cbn [for_each]. intros ([] & w1 & Ha & H)%bind_inv_Return.
    apply migrate_entry_frame in Ha as (Hu1 & Hs1 & Hb1 & He1).
    apply IH in H as (Hu2 & Hs2 & Hb2 & He2).
    split; [congruence|]. split; [congruence|]. split; [congruence|].
    apply Forall2_same_length_lookup_2.
    + apply Forall2_length in He1, He2. congruence.
    + intros i r r' Hr Hr' Hnin.
      destruct (Forall2_lookup_l _ _ _ _ _ He1 Hr) as (r1 & Hr1 & H1).
      destruct (Forall2_lookup_l _ _ _ _ _ He2 Hr1) as (r2 & Hr2 & H2).
      assert (r1 = r) as ->.
      { apply H1. intros Heq. apply Hnin. cbn [map]. rewrite Heq. by left. }
      assert (r2 = r) as ->.
      { apply H2. intros Hin. apply Hnin. cbn [map]. by right. }
      congruence.
Qed.

(** [change_password_logged_in], case by case. *)
Lemma change_password_cases sess current_password new_password w :
  change_password_logged_in P E sess current_password new_password w =
  if negb (Text.truthy current_password)
  then (Raise (ValueError "Current password required"), w)
  else if negb (Text.truthy new_password)
  then (Raise (ValueError "New password required"), w)
  else match get_user_by_username (username sess) (store w) with
       | None => (Raise (ValueError "User not found"), w)
       | Some row =>
           match argon2_verify P (u_pwd_hash row) current_password with
           | Verified =>
               let new_dek := drawn E (cursor w) 32 in
               let new_pwd_hash := argon2_hash P (drawn E (cursor w + 32) 16) new_password in
               let new_kek_salt := drawn E (cursor w + 32 + 16) 16 in
               let new_nonce := drawn E (cursor w + 32 + 16 + 16) 12 in
               let new_wrap_key :=
                 hkdf_derive P (scrypt_kdf P new_password new_kek_salt 32) (b "wrap-key") 32 in
               let new_wrapped :=
                 AESGCM_encrypt P new_wrap_key new_nonce new_dek
                   (Some (str_encode P (username sess))) in
               let k_enc := hkdf_derive P new_dek HKDF_INFO_ENC 32 in
               let k_search := hkdf_derive P new_dek HKDF_INFO_HMAC 32 in
               let w0 := {| store := store w;
                            backups := copy_to (now_strftime E) (store w) (backups w);
                            cursor := (cursor w + 32 + 16 + 16 + 12)%nat |} in
               match for_each (list_entry_rows_for_user (user_id sess) (store w))
                       (migrate_entry P E sess k_enc k_search) w0 with
               | (Return _, w1) =>
                   (Return {| user_id := user_id sess; username := username sess;
                              dek := new_dek; enc_key := k_enc; search_key := k_search |},
                    {| store := update_user_credentials (user_id sess) new_pwd_hash
                                  new_kek_salt new_wrapped new_nonce (store w1);
                       backups := backups w1; cursor := cursor w1 |})
               | (Raise x, w1) => (Raise x, w1)
               end
           | Mismatch => (Raise (ValueError "Invalid password"), w)
           | InvalidHash => (Raise InvalidHashError, w)
           end
       end.
Proof.
  unfold change_password_logged_in.
  destruct (negb (Text.truthy current_password)); [done|].
  destruct (negb (Text.truthy new_password)); [done|].
  unfold mbind at 1, M_bind at 1, query.
  destruct (get_user_by_username (username sess) (store w)) as [row|]; [|done].
  unfold mbind at 1, M_bind at 1, except_mismatch, PH_verify.
  destruct (argon2_verify P (u_pwd_hash row) current_password); reflexivity.
Qed.

End ChangePassword.

(* ------------------------------------------------------------------ *)
(** ** Password change and reset with calls that fail                 *)
(* ------------------------------------------------------------------ *)

Section FaultyFacts.
Context (P : Primitives) (E : Env).

Lemma faulty_bind_inv {A B} (m : Faulty.F A) (f : A -> Faulty.F B) s o s' :
  (m ≫= f) s = (o, s') ->
  (exists x, o = Raise x /\ m s = (Raise x, s')) \/
  (exists a s1, m s = (Return a, s1) /\ f a s1 = (o, s')).
Proof.
  unfold mbind, Faulty.F_bind. destruct (m s) as [[a|x] s1]; intros H.
  - right. eauto.
  - left. injection H as <- <-. eauto.
Qed.

Lemma faulty_local_inv {A} (m : M A) s o s' :
  Faulty.local m s = (o, s') -> m (Faulty.current s) = (o, Faulty.current s').
Proof.
  unfold Faulty.local. destruct (m (Faulty.current s)) as [o1 w1].
  by intros [= <- <-].
Qed.

Lemma faulty_call_inv {A} (m : M A) s o s' :
  Faulty.call m s = (o, s') ->
  (exists x, o = Raise x /\ Faulty.current s' = Faulty.current s) \/
  m (Faulty.current s) = (o, Faulty.current s').
Proof.
  unfold Faulty.call. destruct (Faulty.pending s) as [|[x|] rest].
  - intros H%faulty_local_inv. by right.
  - intros [= <- <-]. left. eauto.
  - intros H%faulty_local_inv. by right.
Qed.


Lemma fl_ret {A B} (a : A) (f : A -> Faulty.F B) sc w :
  (Faulty.local (mret a) ≫= f) {| Faulty.pending := sc; Faulty.current := w |} =
  f a {| Faulty.pending := sc; Faulty.current := w |}.
Proof. reflexivity. Qed.

Lemma fl_raise {A B} x (f : A -> Faulty.F B) sc w :
  (Faulty.local (raise x) ≫= f) {| Faulty.pending := sc; Faulty.current := w |} =
  (Raise x, {| Faulty.pending := sc; Faulty.current := w |}).
Proof. reflexivity. Qed.

Lemma f_ret_l {A B} (a : A) (f : A -> Faulty.F B) s : (mret a ≫= f) s = f a s.
Proof. reflexivity. Qed.

Lemma f_raise_l {A B} x (f : A -> Faulty.F B) s :
  (Faulty.raise x ≫= f) s = (Raise x, s).
Proof. reflexivity. Qed.

Lemma f_bind_bind {A B C} (m : Faulty.F A) (f : A -> Faulty.F B) (g : B -> Faulty.F C) s :
  ((m ≫= f) ≫= g) s = (m ≫= fun a => f a ≫= g) s.
Proof. unfold mbind, Faulty.F_bind. by destruct (m s) as [[a|x] s1]. Qed.

Lemma fl_encrypt {B} key pt aad (f : bytes * bytes -> Faulty.F B) sc w :
  (Faulty.local (aesgcm_encrypt P E key pt aad) ≫= f)
    {| Faulty.pending := sc; Faulty.current := w |} =
  f (drawn E (cursor w) 12, AESGCM_encrypt P key (drawn E (cursor w) 12) pt aad)
    {| Faulty.pending := sc;
       Faulty.current := {| store := store w; backups := backups w;
                            cursor := (cursor w + 12)%nat |} |}.
Proof. reflexivity. Qed.

Lemma f_call_execute {B} (g : database -> database) (f : unit -> Faulty.F B) sc w :
  (Faulty.call (execute g) ≫= f) {| Faulty.pending := sc; Faulty.current := w |} =
  match sc with
  | Some x :: rest => (Raise x, {| Faulty.pending := rest; Faulty.current := w |})
  | _ => f tt {| Faulty.pending := tail sc;
                 Faulty.current := {| store := g (store w); backups := backups w;
                                      cursor := cursor w |} |}
  end.
Proof. by destruct sc as [|[x|] rest]. Qed.

Lemma faulty_writes sess k_search entry title body m_nonce m_ct m_fmt
    t_nonce t_ct b_nonce b_ct sc w o s' :
  (Faulty.db_update_entry_row_with_map (e_id entry) (user_id sess)
     t_nonce t_ct b_nonce b_ct m_nonce m_ct m_fmt ≫= fun _ =>
   Faulty.db_clear_entry_terms (e_id entry) ≫= fun _ =>
   Faulty.db_insert_entry_terms (index_pairs P k_search (e_id entry) title body))
    {| Faulty.pending := sc; Faulty.current := w |} = (o, s') ->
  let d1 := update_entry_row_with_map (e_id entry) (user_id sess)
              t_nonce t_ct b_nonce b_ct m_nonce m_ct m_fmt (store w) in
  let d2 := clear_entry_terms (e_id entry) d1 in
  let d3 := insert_entry_terms (index_pairs P k_search (e_id entry) title body) d2 in
  let W d := {| store := d; backups := backups w; cursor := cursor w |} in
  match o with
  | Return _ => Faulty.current s' = W d3
  | Raise _ =>
      Faulty.current s' = w \/ Faulty.current s' = W d1 \/ Faulty.current s' = W d2
  end.
Proof.
  intros H d1 d2 d3 W.
  unfold Faulty.db_update_entry_row_with_map, Faulty.db_clear_entry_terms,
    Faulty.db_insert_entry_terms in H.
  rewrite f_call_execute in H.
  assert (Hlast : forall sc2 o2 s2,
            (if negb (nonempty (index_pairs P k_search (e_id entry) title body))
             then mret tt
             else Faulty.call (execute (insert_entry_terms
                                 (index_pairs P k_search (e_id entry) title body))))
              {| Faulty.pending := sc2; Faulty.current := W d2 |} = (o2, s2) ->
            match o2 with
            | Return _ => Faulty.current s2 = W d3
            | Raise _ => Faulty.current s2 = W d2
            end).
  { intros sc2 o2 s2. unfold d3, insert_entry_terms.
    destruct (nonempty (index_pairs P k_search (e_id entry) title body)); cbn [negb].
    - intros [(x & -> & ->)|Hx]%faulty_call_inv; [done|].
      cbn in Hx. injection Hx as <- <-. done.
    - intros [= <- <-]. done. }
  destruct sc as [|[x|] sc]; [| injection H as <- <-; by left |]; cbn [tail] in H;
    rewrite f_call_execute in H.
  - cbn [tail] in H. apply Hlast in H. destruct o; auto.
  - destruct sc as [|[x|] sc]; [| injection H as <- <-; right; by left |]; cbn [tail] in H;
      apply Hlast in H; destruct o; auto.
Qed.

Lemma faulty_body sess k_enc k_search entry s o s' :
  Faulty.migrate_entry P E sess k_enc k_search entry s = (o, s') ->
  match open_entry P sess entry with
  | inl x => o = Raise x /\ Faulty.current s' = Faulty.current s
  | inr (title, body, m) =>
      let W n := migrated_upto P E n sess k_enc k_search entry title body m
                   (Faulty.current s) in
      match o with
      | Return _ => Faulty.current s' = W 3%nat
      | Raise _ =>
          Faulty.current s' = W 0%nat \/ Faulty.current s' = W 1%nat \/
          Faulty.current s' = W 2%nat
      end
  end.
Proof.
  destruct s as [sc w]. cbn [Faulty.current].
  unfold Faulty.migrate_entry, open_entry, open_field, aesgcm_decrypt, decode.
  destruct (AESGCM_decrypt P (enc_key sess) (e_title_nonce entry) (e_title_ct entry) _)
    as [tb|]; [rewrite fl_ret|by rewrite fl_raise; intros [= <- <-]].
  destruct (bytes_decode P tb) as [title|];
    [rewrite fl_ret|by rewrite fl_raise; intros [= <- <-]].
  destruct (AESGCM_decrypt P (enc_key sess) (e_body_nonce entry) (e_body_ct entry) _)
    as [bb|]; [rewrite fl_ret|by rewrite fl_raise; intros [= <- <-]].
  destruct (bytes_decode P bb) as [body|];
    [rewrite fl_ret|by rewrite fl_raise; intros [= <- <-]].
  destruct (e_map_ct entry) as [ct|].
  - destruct (nonempty ct).
    + rewrite f_bind_bind.
      destruct (e_map_nonce entry) as [n|];
        [rewrite f_ret_l|by rewrite f_raise_l; intros [= <- <-]].
      rewrite f_bind_bind.
      destruct (AESGCM_decrypt P (enc_key sess) n ct _) as [mb|];
        [rewrite fl_ret|by rewrite fl_raise; intros [= <- <-]].
      rewrite f_bind_bind.
      destruct (bytes_decode P mb) as [map_text|];
        [rewrite fl_ret|by rewrite fl_raise; intros [= <- <-]].
      rewrite f_bind_bind, fl_encrypt, f_ret_l, !fl_encrypt.
      intros H%faulty_writes. cbv zeta in H. cbn [store backups cursor] in H.
      destruct o; exact H.
    + rewrite f_ret_l, !fl_encrypt.
      intros H%faulty_writes. cbv zeta in H. cbn [store backups cursor] in H.
      destruct o; exact H.
  - rewrite f_ret_l, !fl_encrypt.
    intros H%faulty_writes. cbv zeta in H. cbn [store backups cursor] in H.
    destruct o; exact H.
Qed.


Lemma faulty_loop sess k_enc k_search rows s o s' :
  Faulty.for_each rows (Faulty.migrate_entry P E sess k_enc k_search) s = (o, s') ->
  backups (Faulty.current s') = backups (Faulty.current s) /\
  exists done rest w1,
    rows = done ++ rest /\
    for_each done (migrate_entry P E sess k_enc k_search) (Faulty.current s)
      = (Return tt, w1) /\
    match o with
    | Return _ => rest = [] /\ Faulty.current s' = w1
    | Raise _ =>
        exists entry rest', rest = entry :: rest' /\
        (store (Faulty.current s') = store w1 \/
         exists title body m,
           open_entry P sess entry = inr (title, body, m) /\
           (Faulty.current s' =
              migrated_upto P E 1 sess k_enc k_search entry title body m w1 \/
            Faulty.current s' =
              migrated_upto P E 2 sess k_enc k_search entry title body m w1))
    end.
Proof.
  revert s. induction rows as [|a rows IH]; intros s.
  - intros [= <- <-]. split; [done|]. exists [], [], (Faulty.current s). done.
  - cbn [Faulty.for_each].
    intros [(x & -> & Ha)|([] & s1 & Ha & H)]%faulty_bind_inv.
    + apply faulty_body in Ha.
      destruct (open_entry P sess a) as [y|[[title body] m]] eqn:Hopen.
      * destruct Ha as [_ Hc]. split; [by rewrite Hc|].
        exists [], (a :: rows), (Faulty.current s). split; [done|]. split; [done|].
        exists a, rows. split; [done|]. left. by rewrite Hc.
      * cbv zeta in Ha. split; [by destruct Ha as [->|[->| ->]]|].
        exists [], (a :: rows), (Faulty.current s). split; [done|]. split; [done|].
        exists a, rows. split; [done|].
        destruct Ha as [->|Ha]; [by left|]. right. exists title, body, m. done.
    + apply faulty_body in Ha.
      destruct (open_entry P sess a) as [y|[[title body] m]] eqn:Hopen;
        [by destruct Ha|].
      cbv zeta in Ha.
      apply IH in H as (Hb & done & rest & w1 & -> & Hd & Ho).
      rewrite Ha in Hb, Hd. split; [exact Hb|].
      exists (a :: done), rest, w1. split; [done|]. split; [|exact Ho].
      cbn [for_each]. erewrite bind_Return; [exact Hd|].
      rewrite migrate_entry_cases, Hopen. reflexivity.
Qed.

Lemma faulty_verify_inv h pw msg s o s' :
  Faulty.except_mismatch (Faulty.call (PH_verify P h pw)) msg s = (o, s') ->
  Faulty.current s' = Faulty.current s.
Proof.
  unfold Faulty.except_mismatch.
  destruct (Faulty.call (PH_verify P h pw) s) as [o1 s1] eqn:Hc.
  assert (Faulty.current s1 = Faulty.current s) as <-.
  { apply faulty_call_inv in Hc as [(x & _ & Hc)|Hc]; [done|].
    unfold PH_verify in Hc. by destruct (argon2_verify P h pw); injection Hc as _ <-. }
  destruct o1 as [u|[]]; by intros [= _ <-].
Qed.

Lemma faulty_backup_inv s o s' :
  Faulty._backup_database E s = (o, s') ->
  store (Faulty.current s') = store (Faulty.current s) /\
  cursor (Faulty.current s') = cursor (Faulty.current s) /\
  match o with
  | Return _ =>
      backups (Faulty.current s') =
      copy_to (now_strftime E) (store (Faulty.current s)) (backups (Faulty.current s))
  | Raise _ => True
  end.
Proof.
  destruct s as [sc w]. unfold Faulty._backup_database, Faulty.path_exists, Faulty.mkdir,
    Faulty.shutil_copy2, Faulty.call, Faulty.local, Faulty.raise, mbind, Faulty.F_bind.
  cbn [Faulty.pending Faulty.current].
  destruct sc as [|[x|] [|[y|] [|[z|] sc]]]; cbn; intros [= <- <-]; done.
Qed.

Lemma faulty_early sess k_enc k_search rows w d :
  d = store w -> partly_migrated P E sess k_enc k_search rows (loop_start E w) d.
Proof. intros ->. exists [], rows, (loop_start E w). split; [done|]. split; [done|]. by left. Qed.

Lemma fl_token_bytes {B} n (f : bytes -> Faulty.F B) sc w :
  (Faulty.local (token_bytes E n) ≫= f) {| Faulty.pending := sc; Faulty.current := w |} =
  f (drawn E (cursor w) n)
    {| Faulty.pending := sc;
       Faulty.current := {| store := store w; backups := backups w;
                            cursor := (cursor w + n)%nat |} |}.
Proof. reflexivity. Qed.

(** A call followed by the rest of the run: either the call fails and
    the world stays, or the rest runs on the world the call leaves. *)
Lemma f_call_bind {A B} (m : M A) (f : A -> Faulty.F B) a w1 sc w o s' :
  m w = (Return a, w1) ->
  (Faulty.call m ≫= f) {| Faulty.pending := sc; Faulty.current := w |} = (o, s') ->
  (exists x rest, o = Raise x /\ s' = {| Faulty.pending := rest; Faulty.current := w |}) \/
  f a {| Faulty.pending := tail sc; Faulty.current := w1 |} = (o, s').
Proof.
  intros Hm. unfold Faulty.call, Faulty.local, mbind, Faulty.F_bind.
  cbn [Faulty.pending Faulty.current].
  destruct sc as [|[x|] rest]; rewrite ?Hm; [by right| |by right].
  intros [= <- <-]. left. eauto.
Qed.

Lemma partly_migrated_users sess k_enc k_search rows w0 d :
  partly_migrated P E sess k_enc k_search rows w0 d -> users d = users (store w0).
Proof.
  intros (done & rest & w1 & _ & Hd & Hst).
  apply for_each_migrate_frame in Hd as (Hu & _).
  destruct Hst as [->|(entry & rest' & title & body & m & _ & _ & [->| ->])]; exact Hu.
Qed.

Lemma faulty_change_password_trace sess current_password new_password s o s' :
  Faulty.change_password_logged_in P E sess current_password new_password s = (o, s') ->
  let w := Faulty.current s in
  let w' := Faulty.current s' in
  let k_enc := hkdf_derive P (drawn E (cursor w) 32) HKDF_INFO_ENC 32 in
  let k_search := hkdf_derive P (drawn E (cursor w) 32) HKDF_INFO_HMAC 32 in
  (store w' = store w \/
   backups w' = copy_to (now_strftime E) (store w) (backups w)) /\
  match o with
  | Raise _ =>
      users (store w') = users (store w) /\
      partly_migrated P E sess k_enc k_search
        (list_entry_rows_for_user (user_id sess) (store w)) (loop_start E w) (store w')
  | Return _ => True
  end.
Proof.
  intros H w w' k_enc k_search.
  assert (Hearly : forall x, o = Raise x -> store w' = store w ->
            (store w' = store w \/
             backups w' = copy_to (now_strftime E) (store w) (backups w)) /\
            match o with
            | Raise _ =>
                users (store w') = users (store w) /\
                partly_migrated P E sess k_enc k_search
                  (list_entry_rows_for_user (user_id sess) (store w))
                  (loop_start E w) (store w')
            | Return _ => True
            end).
  { intros x -> Hs. split; [by left|]. split; [by rewrite Hs|]. by apply faulty_early. }
  unfold Faulty.change_password_logged_in in H.
  destruct (negb (Text.truthy current_password));
    [injection H as <- <-; by eapply Hearly|].
  destruct (negb (Text.truthy new_password));
    [injection H as <- <-; by eapply Hearly|].
  apply faulty_bind_inv in H as [(x & -> & H)|(row & s1 & H1 & H)].
  { apply faulty_call_inv in H as [(? & _ & Hc)|Hc]; [|discriminate].
    eapply Hearly; [done|]. subst w'. by rewrite Hc. }
  apply faulty_call_inv in H1 as [(? & ? & _)|H1]; [done|].
  unfold query in H1. injection H1 as <- H1.
  destruct (get_user_by_username (username sess) (store (Faulty.current s))) as [row|];
    [|injection H as <- <-; eapply Hearly; [done|]; subst w'; by rewrite <- H1].
  apply faulty_bind_inv in H as [(x & -> & H)|([] & s2 & H2 & H)].
  { apply faulty_verify_inv in H. eapply Hearly; [done|]. subst w'. by rewrite H, <- H1. }
  apply faulty_verify_inv in H2.
  apply faulty_bind_inv in H as [(x & -> & H)|([] & s3 & H3 & H)].
  { apply faulty_backup_inv in H as (Hs & _). eapply Hearly; [done|].
    subst w'. by rewrite Hs, H2, <- H1. }
  apply faulty_backup_inv in H3 as (Hs3 & Hc3 & Hb3).
  rewrite H2, <- H1 in Hs3, Hc3, Hb3. fold w in Hs3, Hc3, Hb3.
  destruct s3 as [sc [d3 b3 c3]]. cbn [Faulty.current store backups cursor] in Hs3, Hc3, Hb3.
  subst d3 b3 c3.
  assert (Hkept : forall x sc' c, o = Raise x ->
            s' = {| Faulty.pending := sc';
                    Faulty.current :=
                      {| store := store w;
                         backups := copy_to (now_strftime E) (store w) (backups w);
                         cursor := c |} |} ->
            (store w' = store w \/
             backups w' = copy_to (now_strftime E) (store w) (backups w)) /\
            match o with
            | Raise _ =>
                users (store w') = users (store w) /\
                partly_migrated P E sess k_enc k_search
                  (list_entry_rows_for_user (user_id sess) (store w))
                  (loop_start E w) (store w')
            | Return _ => True
            end).
  { intros x sc' c Ho Hs'. eapply Hearly; [exact Ho|]. subst w'. by rewrite Hs'. }
  rewrite fl_token_bytes in H. cbn [store backups cursor] in H.
  eapply f_call_bind in H as [(x & rest & Ho & Hs')|H]; [by eapply Hkept| |reflexivity].
  cbn [store backups cursor] in H. rewrite fl_token_bytes in H.
  cbn [store backups cursor] in H.
  eapply f_call_bind in H as [(x & rest & Ho & Hs')|H]; [by eapply Hkept| |reflexivity].
  rewrite fl_encrypt in H. cbn [store backups cursor] in H.
  unfold Faulty.db_list_entry_rows_for_user in H.
  eapply f_call_bind in H as [(x & rest & Ho & Hs')|H]; [by eapply Hkept| |reflexivity].
  cbn [store] in H.
  apply faulty_bind_inv in H as [(x & -> & H)|([] & s4 & H4 & H)].
  - apply faulty_loop in H as (Hb & done & rest & w1 & Hrows & Hd & Ho).
    cbn [Faulty.current backups] in Hb, Hd.
    split; [right; exact Hb|].
    assert (Hpm : partly_migrated P E sess k_enc k_search
                    (list_entry_rows_for_user (user_id sess) (store w))
                    (loop_start E w) (store w')).
    { exists done, rest, w1. split; [exact Hrows|]. split; [exact Hd|].
      destruct Ho as (entry & rest' & -> & [Hst|(title & body & m & Hopen & Hst)]);
        [by left|].
      right. exists entry, rest', title, body, m. split; [done|]. split; [done|].
      subst w'. destruct Hst as [-> | ->]; auto. }
    split; [|exact Hpm]. by rewrite (partly_migrated_users _ _ _ _ _ _ Hpm).
  - apply faulty_loop in H4 as (Hb & done & rest & w1 & Hrows & Hd & -> & Hw1).
    cbn [Faulty.current backups] in Hb, Hd.
    apply faulty_bind_inv in H as [(x & -> & H)|([] & s5 & H5 & H)].
    + apply faulty_call_inv in H as [(? & _ & Hc)|Hc]; [|discriminate].
      split; [right; subst w'; by rewrite Hc|].
      assert (Hpm : partly_migrated P E sess k_enc k_search
                      (list_entry_rows_for_user (user_id sess) (store w))
                      (loop_start E w) (store w')).
      { exists done, [], w1. split; [exact Hrows|]. split; [exact Hd|].
        left. subst w'. by rewrite Hc, Hw1. }
      split; [|exact Hpm]. by rewrite (partly_migrated_users _ _ _ _ _ _ Hpm).
    + apply faulty_call_inv in H5 as [(? & ? & _)|H5]; [done|].
      injection H as <- <-. injection H5 as H5.
      split; [|done]. right. subst w'. by rewrite <- H5.
Qed.


Lemma faulty_reset_trace name security_answer new_password s o s' :
  Faulty.reset_password_with_security_answer P E name security_answer new_password s
    = (o, s') ->
  let w := Faulty.current s in
  let w' := Faulty.current s' in
  (store w' = store w \/
   backups w' = copy_to (now_strftime E) (store w) (backups w)) /\
  match o with
  | Raise _ =>
      store w' = store w \/
      exists row,
        get_user_by_username name (store w) = Some row /\
        store w' = delete_entries_for_user (u_id row) (store w)
  | Return _ => True
  end.
Proof.
  intros H w w'.
  assert (Hearly : forall x, o = Raise x -> store w' = store w ->
            (store w' = store w \/
             backups w' = copy_to (now_strftime E) (store w) (backups w)) /\
            match o with
            | Raise _ =>
                store w' = store w \/
                exists row,
                  get_user_by_username name (store w) = Some row /\
                  store w' = delete_entries_for_user (u_id row) (store w)
            | Return _ => True
            end).
  { intros x -> Hs. split; by left. }
  unfold Faulty.reset_password_with_security_answer in H.
  destruct (negb (Text.truthy security_answer));
    [injection H as <- <-; by eapply Hearly|].
  destruct (negb (Text.truthy new_password));
    [injection H as <- <-; by eapply Hearly|].
  apply faulty_bind_inv in H as [(x & -> & H)|(row & s1 & H1 & H)].
  { apply faulty_call_inv in H as [(? & _ & Hc)|Hc]; [|discriminate].
    eapply Hearly; [done|]. subst w'. by rewrite Hc. }
  apply faulty_call_inv in H1 as [(? & ? & _)|H1]; [done|].
  unfold query in H1. injection H1 as <- H1.
  destruct (get_user_by_username name (store (Faulty.current s))) as [row|] eqn:Hrow;
    [|injection H as <- <-; eapply Hearly; [done|]; subst w'; by rewrite <- H1].
  apply faulty_bind_inv in H as [(x & -> & H)|([] & s2 & H2 & H)].
  { apply faulty_verify_inv in H. eapply Hearly; [done|]. subst w'. by rewrite H, <- H1. }
  apply faulty_verify_inv in H2.
  apply faulty_bind_inv in H as [(x & -> & H)|([] & s3 & H3 & H)].
  { apply faulty_backup_inv in H as (Hs & _). eapply Hearly; [done|].
    subst w'. by rewrite Hs, H2, <- H1. }
  apply faulty_backup_inv in H3 as (Hs3 & Hc3 & Hb3).
  rewrite H2, <- H1 in Hs3, Hc3, Hb3. fold w in Hs3, Hc3, Hb3.
  destruct s3 as [sc [d3 b3 c3]]. cbn [Faulty.current store backups cursor] in Hs3, Hc3, Hb3.
  subst d3 b3 c3.
  unfold Faulty.db_delete_entries_for_user in H.
  eapply f_call_bind in H as [(x & rest & Ho & Hs')|H]; [| |reflexivity].
  { eapply Hearly; [exact Ho|]. subst w'. by rewrite Hs'. }
  cbn [store backups cursor] in H.
  assert (Hkept : forall x sc' c, o = Raise x ->
            s' = {| Faulty.pending := sc';
                    Faulty.current :=
                      {| store := delete_entries_for_user (u_id row) (store w);
                         backups := copy_to (now_strftime E) (store w) (backups w);
                         cursor := c |} |} ->
            (store w' = store w \/
             backups w' = copy_to (now_strftime E) (store w) (backups w)) /\
            match o with
            | Raise _ =>
                store w' = store w \/
                exists row,
                  get_user_by_username name (store w) = Some row /\
                  store w' = delete_entries_for_user (u_id row) (store w)
            | Return _ => True
            end).
  { intros x sc' c -> Hs'. subst w'. rewrite Hs'. cbn [Faulty.current store backups].
    split; [by right|]. right. exists row. done. }
  rewrite fl_token_bytes in H. cbn [store backups cursor] in H.
  eapply f_call_bind in H as [(x & rest & Ho & Hs')|H]; [by eapply Hkept| |reflexivity].
  cbn [store backups cursor] in H. rewrite fl_token_bytes in H.
  cbn [store backups cursor] in H.
  eapply f_call_bind in H as [(x & rest & Ho & Hs')|H]; [by eapply Hkept| |reflexivity].
  rewrite fl_encrypt in H. cbn [store backups cursor] in H.
  apply faulty_call_inv in H as [(x & -> & Hc)|H].
  - subst w'. rewrite Hc. cbn [Faulty.current store backups].
    split; [by right|]. right. exists row. done.
  - injection H as <- H. split; [|done]. right. subst w'. by rewrite <- H.
Qed.

Lemma login_user_users name pw w1 w2 :
  users (store w1) = users (store w2) ->
  fst (login_user P name pw w1) = fst (login_user P name pw w2).
Proof.
  intros Hu.
  assert (Hg : get_user_by_username name (store w1) = get_user_by_username name (store w2))
    by (unfold get_user_by_username; by rewrite Hu).
  destruct (get_user_by_username name (store w2)) as [row|] eqn:Hrow.
  - rewrite (login_user_row P name pw w1 row Hg), (login_user_row P name pw w2 row Hrow).
    destruct (argon2_verify P (u_pwd_hash row) pw); try reflexivity.
    cbv zeta. by destruct (AESGCM_decrypt P _ _ _ _).
  - by rewrite (login_user_unknown P name pw w1 Hg), (login_user_unknown P name pw w2 Hrow).
Qed.

Lemma faulty_run_inv {A} (m : Faulty.F A) script w o w' :
  Faulty.run m script w = (o, w') ->
  exists s', m {| Faulty.pending := script; Faulty.current := w |} = (o, s') /\
             Faulty.current s' = w'.
Proof.
  unfold Faulty.run. destruct (m _) as [o1 s1]. intros [= <- <-]. eauto.
Qed.

End FaultyFacts.

(** Without failures the two functions of [Faulty] run as the functions
    of [Section Engine]. *)
Section Agreement.
Context (P : Primitives) (E : Env).

Lemma agrees_ret {A} (a : A) : Faulty.agrees (mret a) (mret a).
Proof. intros w. reflexivity. Qed.

Lemma agrees_raise {A} x : Faulty.agrees (@Faulty.raise A x) (raise x).
Proof. intros w. reflexivity. Qed.

Lemma agrees_local {A} (m : M A) : Faulty.agrees (Faulty.local m) m.
Proof. intros w. unfold Faulty.local. cbn. by destruct (m w). Qed.

Lemma agrees_call {A} (m : M A) : Faulty.agrees (Faulty.call m) m.
Proof. intros w. unfold Faulty.call, Faulty.local. cbn. by destruct (m w). Qed.

Lemma agrees_bind {A B} (mf : Faulty.F A) (m : M A) (ff : A -> Faulty.F B) (f : A -> M B) :
  Faulty.agrees mf m -> (forall a, Faulty.agrees (ff a) (f a)) -> Faulty.agrees (mf ≫= ff) (m ≫= f).
Proof.
  intros Hm Hf w. unfold mbind, Faulty.F_bind, M_bind. rewrite Hm.
  destruct (m w) as [[a|x] w1]; cbn [fst snd]; [apply Hf|done].
Qed.

Lemma agrees_call_pure {A B} (a : A) (ff : A -> Faulty.F B) (m : M B) :
  Faulty.agrees (ff a) m -> Faulty.agrees (Faulty.call (mret a) ≫= ff) m.
Proof. intros H w. apply H. Qed.

Lemma agrees_except {A} (mf : Faulty.F A) (m : M A) msg :
  Faulty.agrees mf m -> Faulty.agrees (Faulty.except_mismatch mf msg) (except_mismatch m msg).
Proof.
  intros Hm w. unfold Faulty.except_mismatch, except_mismatch. rewrite Hm.
  destruct (m w) as [[a|[]] w1]; reflexivity.
Qed.

Lemma agrees_for_each {A} (xs : list A) (bf : A -> Faulty.F unit) (body : A -> M unit) :
  (forall x, Faulty.agrees (bf x) (body x)) ->
  Faulty.agrees (Faulty.for_each xs bf) (for_each xs body).
Proof.
  intros Hb. induction xs as [|x xs IH]; [apply agrees_ret|].
  cbn [Faulty.for_each for_each]. apply agrees_bind; [apply Hb|]. intros _. exact IH.
Qed.

Lemma agrees_backup : Faulty.agrees (Faulty._backup_database E) (_backup_database E).
Proof. intros w. reflexivity. Qed.

Lemma agrees_insert_entry_terms pairs :
  Faulty.agrees (Faulty.db_insert_entry_terms pairs) (execute (insert_entry_terms pairs)).
Proof.
  unfold Faulty.db_insert_entry_terms.
  destruct (nonempty pairs) eqn:Hp; cbn [negb]; [apply agrees_call|].
  intros w. unfold execute, insert_entry_terms. rewrite Hp. by destruct w.
Qed.

Lemma agrees_migrate_entry sess k_enc k_search entry :
  Faulty.agrees (Faulty.migrate_entry P E sess k_enc k_search entry)
    (migrate_entry P E sess k_enc k_search entry).
Proof.
  unfold Faulty.migrate_entry, migrate_entry.
  apply agrees_bind; [apply agrees_local|intros title_b].
  apply agrees_bind; [apply agrees_local|intros title].
  apply agrees_bind; [apply agrees_local|intros body_b].
  apply agrees_bind; [apply agrees_local|intros body].
  apply agrees_bind.
  { destruct (e_map_ct entry) as [ct|]; [|apply agrees_ret].
    destruct (nonempty ct); [|apply agrees_ret].
    apply agrees_bind.
    { destruct (e_map_nonce entry); [apply agrees_ret|apply agrees_raise]. }
    intros n. apply agrees_bind; [apply agrees_local|intros map_b].
    apply agrees_bind; [apply agrees_local|intros map_text].
    apply agrees_bind; [apply agrees_local|intros [n' c]]. apply agrees_ret. }
  intros [mn mc]. apply agrees_bind; [apply agrees_local|intros [tn tc]].
  apply agrees_bind; [apply agrees_local|intros [bn bc]].
  apply agrees_bind; [apply agrees_call|intros _].
  apply agrees_bind; [apply agrees_call|intros _].
  apply agrees_insert_entry_terms.
Qed.

Lemma agrees_change_password sess current_password new_password :
  Faulty.agrees (Faulty.change_password_logged_in P E sess current_password new_password)
    (change_password_logged_in P E sess current_password new_password).
Proof.
  unfold Faulty.change_password_logged_in, change_password_logged_in.
  destruct (negb (Text.truthy current_password)); [apply agrees_raise|].
  destruct (negb (Text.truthy new_password)); [apply agrees_raise|].
  apply agrees_bind; [apply agrees_call|intros [row|]]; [|apply agrees_raise].
  apply agrees_bind; [apply agrees_except, agrees_call|intros _].
  apply agrees_bind; [apply agrees_backup|intros _].
  apply agrees_bind; [apply agrees_local|intros new_dek].
  apply agrees_bind; [apply agrees_call|intros new_pwd_hash].
  apply agrees_bind; [apply agrees_local|intros new_kek_salt].
  apply agrees_call_pure.
  apply agrees_bind; [apply agrees_local|intros [new_nonce new_wrapped]].
  apply agrees_bind; [apply agrees_call|intros rows].
  apply agrees_bind; [apply agrees_for_each; intros e; apply agrees_migrate_entry|intros _].
  apply agrees_bind; [apply agrees_call|intros _]. apply agrees_ret.
Qed.

Lemma agrees_reset_password name security_answer new_password :
  Faulty.agrees (Faulty.reset_password_with_security_answer P E name security_answer new_password)
    (reset_password_with_security_answer P E name security_answer new_password).
Proof.
  unfold Faulty.reset_password_with_security_answer, reset_password_with_security_answer.
  destruct (negb (Text.truthy security_answer)); [apply agrees_raise|].
  destruct (negb (Text.truthy new_password)); [apply agrees_raise|].
  apply agrees_bind; [apply agrees_call|intros [row|]]; [|apply agrees_raise].
  apply agrees_bind; [apply agrees_except, agrees_call|intros _].
  apply agrees_bind; [apply agrees_backup|intros _].
  apply agrees_bind; [apply agrees_call|intros _].
  apply agrees_bind; [apply agrees_local|intros new_dek].
  apply agrees_bind; [apply agrees_call|intros new_pwd_hash].
  apply agrees_bind; [apply agrees_local|intros new_kek_salt].
  apply agrees_call_pure.
  apply agrees_bind; [apply agrees_local|intros [new_nonce new_wrapped]].
  apply agrees_call.
Qed.

Lemma agrees_run {A} (mf : Faulty.F A) (m : M A) w :
  Faulty.agrees mf m -> Faulty.run mf [] w = m w.
Proof. intros H. unfold Faulty.run. rewrite H. cbn. by destruct (m w). Qed.

Lemma change_password_without_failures sess current_password new_password w :
  Faulty.run (Faulty.change_password_logged_in P E sess current_password new_password) [] w =
  change_password_logged_in P E sess current_password new_password w.
Proof. apply agrees_run, agrees_change_password. Qed.

Lemma reset_password_without_failures name security_answer new_password w :
  Faulty.run (Faulty.reset_password_with_security_answer P E name security_answer
                new_password) [] w =
  reset_password_with_security_answer P E name security_answer new_password w.
Proof. apply agrees_run, agrees_reset_password. Qed.

End Agreement.

(** C1 (as amended).  [change_password_logged_in] is run with calls that
    can fail.  When it raises, wherever it raises, the [users] table is
    exactly as before, so every login behaves as before the call: no
    credential field has been written.  The entry rows are not rolled
    back.  The loop has completed some first entries of the user, in the
    order of [list_entry_rows_for_user], and the store is the one that
    migrating these entries to the new keys leaves, except that the entry
    on which the run stopped may be half migrated: its row is rewritten
    under the new encryption key while its term rows are still the
    digests under the old search key, or are deleted.  Every other entry
    row is unchanged.  The completed entries can be all of them: then the
    run stopped at the write of the credentials. *)
Theorem change_password_failure (P : Primitives) (E : Env)
    (sess : SessionKeys) (current_password new_password : string)
    (script : list (option exn)) (w w' : world) (x : exn) :
  Faulty.run (Faulty.change_password_logged_in P E sess current_password new_password)
    script w = (Raise x, w') ->
  let k_enc := hkdf_derive P (drawn E (cursor w) 32) HKDF_INFO_ENC 32 in
  let k_search := hkdf_derive P (drawn E (cursor w) 32) HKDF_INFO_HMAC 32 in
  users (store w') = users (store w) /\
  (forall name password,
     fst (login_user P name password w') = fst (login_user P name password w)) /\
  exists done rest w1,
    list_entry_rows_for_user (user_id sess) (store w) = done ++ rest /\
    for_each done (migrate_entry P E sess k_enc k_search) (loop_start E w)
      = (Return tt, w1) /\
    (store w' = store w1 \/
     exists entry rest' title body map_text,
       rest = entry :: rest' /\
       open_entry P sess entry = inr (title, body, map_text) /\
       (store w' =
          store (migrated_upto P E 1 sess k_enc k_search entry title body map_text w1) \/
        store w' =
          store (migrated_upto P E 2 sess k_enc k_search entry title body map_text w1))) /\
    Forall2 (fun r r' => e_id r ∉ map e_id (done ++ take 1 rest) -> r' = r)
      (entries (store w)) (entries (store w')).
Proof.
  intros (s' & H & <-)%faulty_run_inv k_enc k_search.
  apply faulty_change_password_trace in H as (_ & Hu & Hpm).
  cbn [Faulty.current] in Hu, Hpm. fold k_enc k_search in Hpm.
  split; [exact Hu|]. split; [intros name password; by apply login_user_users|].
  destruct Hpm as (done & rest & w1 & Hrows & Hd & Hst).
  exists done, rest, w1. split; [exact Hrows|]. split; [exact Hd|]. split; [exact Hst|].
  pose proof (for_each_migrate_frame P E _ _ _ _ _ _ Hd) as (_ & _ & _ & He).
  cbn [loop_start store] in He.
  destruct Hst as [->|(entry & rest' & title & body & m & -> & _ & Hst)].
  - eapply Forall2_impl; [exact He|]. intros r r' Hr Hnin. apply Hr.
    intros Hin. apply Hnin. rewrite map_app. apply elem_of_app. by left.
  - assert (Hent : exists tn tc bn bc mn mc mf,
               entries (store (Faulty.current s')) =
               entries (update_entry_row_with_map (e_id entry) (user_id sess)
                          tn tc bn bc mn mc mf (store w1))).
    { destruct Hst as [-> | ->]; by eexists _, _, _, _, _, _, _. }
    destruct Hent as (tn & tc & bn & bc & mn & mc & mf & ->).
    eapply Forall2_trans; [|exact He|apply update_entry_row_with_map_frame].
    intros r r1 r2 H1 H2 Hnin. cbn [take] in Hnin.
    rewrite map_app, elem_of_app in Hnin. cbn [map] in Hnin.
    assert (r1 = r) as -> by (apply H1; intros Hin; apply Hnin; by left).
    apply H2. intros Heq. apply Hnin. right. rewrite Heq. by left.
Qed.

Lemma change_password_failure_witness :
  let r := Faulty.run (Faulty.change_password_logged_in Reference.primitives Reference.env
                         Reference.alice_session "Pw1!" "Pw2!")
             (Faulty.fails_at 9 (OperationalError "database is locked"))
             Reference.journal_world in
  fst r = Raise (OperationalError "database is locked") /\
  users (store (snd r)) = users (store Reference.journal_world) /\
  fst (login_user Reference.primitives "alice" "Pw1!" (snd r)) =
    Return Reference.alice_session.
Proof.
  intros r.
  assert (Hr : r = (Raise (OperationalError "database is locked"), snd r))
    by (vm_compute; reflexivity).
  destruct (change_password_failure Reference.primitives Reference.env
              Reference.alice_session "Pw1!" "Pw2!" _ Reference.journal_world (snd r) _ Hr)
    as (Hu & Hlogin & _).
  split; [vm_compute; reflexivity|]. split; [exact Hu|].
  rewrite Hlogin. vm_compute. reflexivity.
Defined.

(** When the last statement, the write of the credentials, fails, every
    entry is under the new key and the [users] row still wraps the old
    DEK: the old password logs in, and its session can read no entry. *)
Example change_password_credentials_write_fails :
  let r := Faulty.run (Faulty.change_password_logged_in Reference.primitives Reference.env
                         Reference.alice_session "Pw1!" "Pw2!")
             (Faulty.fails_at 14 (OperationalError "database is locked"))
             Reference.journal_world in
  fst r = Raise (OperationalError "database is locked") /\
  fst (login_user Reference.primitives "alice" "Pw1!" (snd r)) =
    Return Reference.alice_session /\
  fst (get_entry Reference.primitives Reference.alice_session 1 (snd r)) = Raise InvalidTag /\
  fst (get_entry Reference.primitives Reference.alice_session 2 (snd r)) = Raise InvalidTag.
Proof. vm_compute. repeat split; reflexivity. Qed.

(** C1, as stated, fails.  Alice's journal has two entries and the title
    ciphertext of the older one is damaged.  The loop re-encrypts the
    newer entry and commits it, then raises on the older one.  The
    credential row is untouched, but the newer entry, which decrypted
    under the old encryption key, no longer does, and its term rows are
    now digests under the new search key. *)
Lemma change_password_partial_migration :
  let r := change_password_logged_in Reference.primitives Reference.env
             Reference.alice_session "Pw1!" "Pw2!" Reference.damaged_world in
  fst r = Raise InvalidTag /\
  ~ remains_on_old_keys Reference.primitives Reference.alice_session
      (store Reference.damaged_world) (store (snd r)).
Proof.
  intros r. split; [vm_compute; reflexivity|].
  intros (_ & Hread & _).
  assert (He : exists e', entries (store (snd r)) !! 1%nat = Some e' /\ e_id e' = 2 /\
                 readable Reference.primitives Reference.alice_session e' = false).
  { vm_compute. eexists. split; [reflexivity|]. split; vm_compute; reflexivity. }
  destruct He as (e' & Hin & Hid & Hno).
  apply list_elem_of_lookup_2 in Hin.
  assert (Hin0 : Reference.entry2 ∈ entries (store Reference.damaged_world)).
  { cbn. right. left. }
  specialize (Hread Reference.entry2 e' Hin0 Hin).
  rewrite Hno in Hread. discriminate Hread.
  - by rewrite Hid.
  - reflexivity.
  - vm_compute. reflexivity.
Qed.

(* ================================================================== *)
(** * Further properties of the code                                  *)
(* ================================================================== *)

(* ------------------------------------------------------------------ *)
(** ** The shape of tokens                                            *)
(* ------------------------------------------------------------------ *)

Lemma split_from_chars (Q : ascii -> bool) flag s :
  Text.all_chars Q s = true ->
  Forall (fun w => Text.all_chars (fun c => negb (Text.is_sep c) && Q c) w = true)
    (uncurry cons (Text.split_from flag s)).
Proof.
  revert flag. induction s as [|c s IH]; intros flag; simpl.
  - intros _. by repeat constructor.
  - intros [Hc Hs]%andb_true_iff.
    destruct (Text.is_sep c) eqn:Hsep.
    + destruct flag; simpl; [by apply IH|]. constructor; [done|by apply IH].
    + specialize (IH false Hs).
      destruct (Text.split_from false s) as [w ws]. simpl in *.
      apply Forall_cons in IH as [Hw Hws]. constructor; [|done].
      simpl. by rewrite Hsep, Hc, Hw.
Qed.

Lemma lower_fixed s :
  Text.all_chars (fun c => bool_decide (Text.lower_char c = c)) (Text.lower s) = true.
Proof.
  induction s as [|c s IH]; simpl; [done|].
  rewrite IH, andb_true_r. apply bool_decide_eq_true, TextFacts.lower_char_idem.
Qed.

Lemma token_chars_lower w :
  Text.all_chars token_char w = true -> Text.lower w = w.
Proof.
  induction w as [|c w IH]; simpl; [done|].
  intros [[_ Hc%bool_decide_eq_true]%andb_true_iff Hw]%andb_true_iff.
  by rewrite Hc, IH.
Qed.

Lemma split_from_word w :
  Text.all_chars token_char w = true -> Text.split_from false w = (w, []).
Proof.
  induction w as [|c w IH]; simpl; [done|].
  intros [[Hc _]%andb_true_iff Hw]%andb_true_iff.
  apply negb_true_iff in Hc. by rewrite Hc, IH.
Qed.

(** X1.  Every token that [normalize_tokens] returns is non-empty, is in
    lower case and contains no separator character (so no whitespace, no
    punctuation and no underscore). *)
Theorem normalize_tokens_shape (text w : string) :
  w ∈ Text.normalize_tokens text ->
  w <> "" /\ Text.lower w = w /\ Text.all_chars (fun c => negb (Text.is_sep c)) w = true.
Proof.
  intros Hin.
  assert (Hne : Text.truthy w = true) by by apply TextFacts.normalize_tokens_truthy in Hin.
  assert (Hch : Text.all_chars token_char w = true).
  { unfold Text.normalize_tokens, Text.re_split in Hin.
    apply list_elem_of_In, filter_In in Hin as [Hin _]. apply list_elem_of_In in Hin.
    pose proof (split_from_chars _ false _ (lower_fixed text)) as Hall.
    rewrite Forall_forall in Hall. exact (Hall w Hin). }
  split; [by destruct w|]. split; [by apply token_chars_lower|].
  clear -Hch. induction w as [|c w IH]; simpl in *; [done|].
  apply andb_true_iff in Hch as [[Hc _]%andb_true_iff Hw].
  by rewrite Hc, IH.
Qed.

Lemma normalize_tokens_shape_witness :
  "storm" <> "" /\ Text.lower "storm" = "storm" /\
  Text.all_chars (fun c => negb (Text.is_sep c)) "storm" = true.
Proof.
  apply (normalize_tokens_shape "Night_Storm!" "storm").
  change (Text.normalize_tokens "Night_Storm!") with ["night"; "storm"].
  right. left.
Defined.

(** X2.  A token is a fixed point of tokenization: tokenizing a token of
    any text gives back that token alone, so a query made of a stored
    token is hashed to the digest that was stored for it. *)
Theorem normalize_tokens_token (text w : string) :
  w ∈ Text.normalize_tokens text -> Text.normalize_tokens w = [w].
Proof.
  intros Hin.
  assert (Hne : Text.truthy w = true) by by apply TextFacts.normalize_tokens_truthy in Hin.
  assert (Hch : Text.all_chars token_char w = true).
  { unfold Text.normalize_tokens, Text.re_split in Hin.
    apply list_elem_of_In, filter_In in Hin as [Hin _]. apply list_elem_of_In in Hin.
    pose proof (split_from_chars _ false _ (lower_fixed text)) as Hall.
    rewrite Forall_forall in Hall. exact (Hall w Hin). }
  unfold Text.normalize_tokens, Text.re_split.
  rewrite (token_chars_lower w Hch), (split_from_word w Hch). simpl. by rewrite Hne.
Qed.

Lemma normalize_tokens_token_witness : Text.normalize_tokens "rained" = ["rained"].
Proof.
  apply (normalize_tokens_token "It rained." "rained").
  change (Text.normalize_tokens "It rained.") with ["it"; "rained"].
  right. left.
Defined.

(** X3.  For text of the code points U+0000..U+00FF, tokenization
    distributes over a non-empty run of separators: the tokens of
    [a + s + r] are the tokens of [a] followed by the tokens of [r], in
    order and with repetitions. *)
Theorem normalize_tokens_concat (a s r : string) :
  Text.all_chars Text.is_sep s = true -> s <> "" ->
  Text.normalize_tokens (a +:+ s +:+ r) = Text.normalize_tokens a ++ Text.normalize_tokens r.
Proof. apply TextFacts.normalize_tokens_app_seps. Qed.

Lemma normalize_tokens_concat_witness :
  Text.normalize_tokens ("Day 1" +:+ " - " +:+ "It rained.") =
  Text.normalize_tokens "Day 1" ++ Text.normalize_tokens "It rained.".
Proof.
  apply (normalize_tokens_concat "Day 1" " - " "It rained."); [reflexivity|discriminate].
Defined.

(* ------------------------------------------------------------------ *)
(** ** The row store: lookups after writes, and the schema invariants *)
(* ------------------------------------------------------------------ *)

Lemma map_map_preserve {A B} (g : A -> B) (f : A -> A) (l : list A) :
  (forall x, g (f x) = g x) -> map g (map f l) = map g l.
Proof. intros H. induction l as [|x l IH]; simpl; [done|]. by rewrite H, IH. Qed.

Lemma NoDup_map_filter {A B} (g : A -> B) (p : A -> bool) (l : list A) :
  NoDup (map g l) -> NoDup (map g (List.filter p l)).
Proof.
  induction l as [|x l IH]; simpl; [done|].
  intros [Hx Hl]%NoDup_cons. destruct (p x); simpl; [|by apply IH].
  apply NoDup_cons. split; [|by apply IH].
  intros Hin. apply Hx.
  apply list_elem_of_In, in_map_iff in Hin as (y & Hy & Hin).
  apply filter_In in Hin as [Hin _].
  apply list_elem_of_In, in_map_iff. eauto.
Qed.

Lemma Forall_filter_list {A} (Q : A -> Prop) (p : A -> bool) (l : list A) :
  Forall Q l -> Forall Q (List.filter p l).
Proof.
  induction 1 as [|x l Hx Hl IH]; simpl; [constructor|].
  destruct (p x); [by constructor|done].
Qed.

Lemma find_None_username name us :
  List.find (fun r => bool_decide (u_username r = name)) us = None ->
  name ∉ map u_username us.
Proof.
  induction us as [|r us IH]; simpl; [intros _; apply not_elem_of_nil|].
  case_bool_decide as Hr; [discriminate|]. intros H.
  apply not_elem_of_cons. split; [congruence|by apply IH].
Qed.

Lemma fresh_id {A} (g : A -> Z) (seq : Z) (l : list A) :
  Forall (fun r => g r <= seq) l -> seq + 1 ∉ map g l.
Proof.
  induction 1 as [|x l Hx Hl IH]; simpl; [apply not_elem_of_nil|].
  apply not_elem_of_cons. split; [lia|done].
Qed.

Lemma NoDup_snoc {A} (l : list A) (x : A) : NoDup l -> x ∉ l -> NoDup (l ++ [x]).
Proof.
  intros Hl Hx. apply NoDup_app. split; [done|]. split; [|apply NoDup_singleton].
  intros y Hy ->%list_elem_of_singleton. done.
Qed.

Section StoreInvariant.

Lemma insert_user_well_formed name ph ks dw dn q ah ca d d' :
  insert_user name ph ks dw dn q ah ca d = inr d' -> well_formed d -> well_formed d'.
Proof.
  unfold insert_user. destruct (get_user_by_username name d) eqn:Hget; [discriminate|].
  intros [= <-] [H1 H2 H3 H4 H5 H6].
  constructor; cbn [users users_seq entries entries_seq entry_terms with_users]; try done.
  - rewrite map_app. apply NoDup_snoc; [done|]. simpl. by apply find_None_username.
  - rewrite map_app. apply NoDup_snoc; [done|]. simpl. by apply fresh_id.
  - apply Forall_app. split.
    + eapply Forall_impl; [exact H3|]. intros r Hr. simpl in *. lia.
    + constructor; [simpl; lia|constructor].
Qed.

Lemma update_user_credentials_well_formed uid ph ks dw dn d :
  well_formed d -> well_formed (update_user_credentials uid ph ks dw dn d).
Proof.
  intros [H1 H2 H3 H4 H5 H6]. unfold update_user_credentials.
  constructor; cbn [users users_seq entries entries_seq entry_terms with_users]; try done.
  - rewrite map_map_preserve; [done|]. intros r. by destruct (bool_decide _).
  - rewrite map_map_preserve; [done|]. intros r. by destruct (bool_decide _).
  - apply Forall_forall. intros r' Hin.
    apply list_elem_of_In, in_map_iff in Hin as (r & <- & Hin).
    rewrite Forall_forall in H3. specialize (H3 r).
    destruct (bool_decide _); simpl; apply H3; by apply list_elem_of_In.
Qed.

Lemma insert_entry_row_well_formed uid ca tn tc bn bc mn mc mf d :
  well_formed d -> well_formed (snd (insert_entry_row uid ca tn tc bn bc mn mc mf d)).
Proof.
  intros [H1 H2 H3 H4 H5 H6]. unfold insert_entry_row.
  constructor; cbn [snd users users_seq entries entries_seq entry_terms with_entries];
    try done.
  - rewrite map_app. apply NoDup_snoc; [done|]. simpl. by apply fresh_id.
  - apply Forall_app. split.
    + eapply Forall_impl; [exact H5|]. intros r Hr. simpl in *. lia.
    + constructor; [simpl; lia|constructor].
Qed.

(** A write that maps the rows of [entries] and keeps their ids. *)
Lemma map_entries_well_formed (f : entry_row -> entry_row) d :
  (forall r, e_id (f r) = e_id r) ->
  well_formed d -> well_formed (with_entries (map f (entries d)) (entries_seq d) d).
Proof.
  intros Hf [H1 H2 H3 H4 H5 H6].
  constructor; cbn [users users_seq entries entries_seq entry_terms with_entries]; try done.
  - by rewrite map_map_preserve.
  - apply Forall_forall. intros r' Hin.
    apply list_elem_of_In, in_map_iff in Hin as (r & <- & Hin).
    rewrite Forall_forall in H5. rewrite Hf. apply H5. by apply list_elem_of_In.
Qed.

Lemma update_entry_row_well_formed eid uid tn tc bn bc d :
  well_formed d -> well_formed (update_entry_row eid uid tn tc bn bc d).
Proof.
  apply map_entries_well_formed. intros r. by destruct (entry_is eid uid r).
Qed.

Lemma update_entry_row_with_map_well_formed eid uid tn tc bn bc mn mc mf d :
  well_formed d -> well_formed (update_entry_row_with_map eid uid tn tc bn bc mn mc mf d).
Proof.
  apply map_entries_well_formed. intros r. by destruct (entry_is eid uid r).
Qed.

Lemma update_entry_map_row_well_formed eid uid mn mc mf d :
  well_formed d -> well_formed (update_entry_map_row eid uid mn mc mf d).
Proof.
  apply map_entries_well_formed. intros r. by destruct (entry_is eid uid r).
Qed.

Lemma delete_entries_where_well_formed conn p d :
  well_formed d -> well_formed (delete_entries_where conn p d).
Proof.
  intros [H1 H2 H3 H4 H5 H6]. unfold delete_entries_where.
  constructor; cbn [users users_seq entries entries_seq entry_terms]; try done.
  - by apply NoDup_map_filter.
  - by apply Forall_filter_list.
  - destruct (foreign_keys conn); [by apply NoDup_filter_list|done].
Qed.

Lemma clear_entry_terms_well_formed eid d :
  well_formed d -> well_formed (clear_entry_terms eid d).
Proof.
  intros [H1 H2 H3 H4 H5 H6]. unfold clear_entry_terms.
  constructor; cbn [users users_seq entries entries_seq entry_terms with_entry_terms];
    try done.
  by apply NoDup_filter_list.
Qed.

Lemma insert_entry_terms_well_formed pairs d :
  well_formed d -> well_formed (insert_entry_terms pairs d).
Proof.
  intros [H1 H2 H3 H4 H5 H6].
  destruct (insert_entry_terms_frame pairs d) as (Hu & Hus & He & Hes).
  constructor; rewrite ?Hu, ?Hus, ?He, ?Hes; try done.
  by apply insert_entry_terms_NoDup.
Qed.

End StoreInvariant.

(* ------------------------------------------------------------------ *)
(** ** What a computation preserves                                   *)
(* ------------------------------------------------------------------ *)

Section Preserves.
Context (I : world -> Prop).

Lemma preserves_ret {A} (a : A) : preserves I (mret a).
Proof. intros w o w' [= <- <-]. done. Qed.

Lemma preserves_raise {A} (x : exn) : preserves I (raise x : M A).
Proof. intros w o w' [= <- <-]. done. Qed.

Lemma preserves_bind {A B} (m : M A) (f : A -> M B) :
  preserves I m -> (forall a, preserves I (f a)) -> preserves I (m ≫= f).
Proof.
  intros Hm Hf w o w' H Hw. unfold mbind, M_bind in H.
  destruct (m w) as [[a|x] w1] eqn:Hmw.
  - eapply Hf; [exact H|]. eapply Hm; eauto.
  - injection H as <- <-. eapply Hm; eauto.
Qed.

Lemma preserves_query {A} (f : database -> A) : preserves I (query f).
Proof. intros w o w' [= <- <-]. done. Qed.

Lemma preserves_except {A} (m : M A) msg :
  preserves I m -> preserves I (except_mismatch m msg).
Proof.
  intros Hm w o w' H Hw. unfold except_mismatch in H.
  destruct (m w) as [[a|x] w1] eqn:Hmw.
  - injection H as <- <-. eapply Hm; eauto.
  - assert (w' = w1) as -> by (destruct x; by injection H). eapply Hm; eauto.
Qed.

Lemma preserves_for_each {A} (xs : list A) (body : A -> M unit) :
  (forall x, preserves I (body x)) -> preserves I (for_each xs body).
Proof.
  intros Hb. induction xs as [|x xs IH]; cbn [for_each].
  - apply preserves_ret.
  - apply preserves_bind; [apply Hb|]. intros _. exact IH.
Qed.

Lemma preserves_collect {A B} (xs : list A) (body : A -> M B) :
  (forall x, preserves I (body x)) -> preserves I (collect xs body).
Proof.
  intros Hb. induction xs as [|x xs IH]; cbn [collect].
  - apply preserves_ret.
  - apply preserves_bind; [apply Hb|]. intros y.
    apply preserves_bind; [exact IH|]. intros ys. apply preserves_ret.
Qed.

Lemma preserves_PH_verify P h pw : preserves I (PH_verify P h pw).
Proof.
  unfold PH_verify. destruct (argon2_verify P h pw);
    [apply preserves_ret|apply preserves_raise|apply preserves_raise].
Qed.

Lemma preserves_aesgcm_decrypt P k n c a : preserves I (aesgcm_decrypt P k n c a).
Proof.
  unfold aesgcm_decrypt. destruct (AESGCM_decrypt P k n c a);
    [apply preserves_ret|apply preserves_raise].
Qed.

Lemma preserves_decode P x : preserves I (decode P x).
Proof.
  unfold decode. destruct (bytes_decode P x); [apply preserves_ret|apply preserves_raise].
Qed.

End Preserves.

(** The steps that only move the tape or add a backup keep every
    property of the store. *)
Section PreservesStore.
Context (J : database -> Prop).

Lemma preserves_token_bytes E n : preserves (on_store J) (token_bytes E n).
Proof. intros w o w' [= <- <-]. done. Qed.

Lemma preserves_PH_hash P E pw : preserves (on_store J) (PH_hash P E pw).
Proof.
  unfold PH_hash. apply preserves_bind; [apply preserves_token_bytes|].
  intros salt. apply preserves_ret.
Qed.

Lemma preserves_aesgcm_encrypt P E k m a : preserves (on_store J) (aesgcm_encrypt P E k m a).
Proof.
  unfold aesgcm_encrypt. apply preserves_bind; [apply preserves_token_bytes|].
  intros n. apply preserves_ret.
Qed.

Lemma preserves_backup E : preserves (on_store J) (_backup_database E).
Proof. intros w o w' [= <- <-]. done. Qed.

Lemma preserves_execute (f : database -> database) :
  (forall d, J d -> J (f d)) -> preserves (on_store J) (execute f).
Proof. intros Hf w o w' [= <- <-]. apply Hf. Qed.

End PreservesStore.

(** Walks a computation of the engine down to its store writes. *)
Ltac preserve_steps :=
  repeat first
    [ apply preserves_ret
    | apply preserves_raise
    | apply preserves_query
    | apply preserves_PH_verify
    | apply preserves_aesgcm_decrypt
    | apply preserves_decode
    | apply preserves_token_bytes
    | apply preserves_PH_hash
    | apply preserves_aesgcm_encrypt
    | apply preserves_backup
    | apply preserves_except
    | apply preserves_for_each; intros ?
    | apply preserves_collect; intros ?
    | apply preserves_bind; [|intros ?]
    | match goal with
      | |- preserves _ (match ?x with _ => _ end) => destruct x
      | |- preserves _ (let '(_, _) := ?x in _) => destruct x
      end ].

Section Invariant.
Context (P : Primitives) (E : Env).

Lemma register_user_keeps name pw q a : preserves (on_store well_formed) (register_user P E name pw q a).
Proof.
  unfold register_user. preserve_steps.
  intros w o w' H Hw. unfold db_insert_user in H.
  destruct (insert_user _ _ _ _ _ _ _ _ (store w)) as [x|d] eqn:Hins;
    injection H as <- <-; [done|].
  eapply insert_user_well_formed; eauto.
Qed.

Lemma update_entry_keeps sess eid t bd : preserves (on_store well_formed) (update_entry P E sess eid t bd).
Proof.
  unfold update_entry. preserve_steps;
    apply preserves_execute; intros d Hd;
    auto using update_entry_row_well_formed, clear_entry_terms_well_formed,
      insert_entry_terms_well_formed.
Qed.

Lemma delete_entry_keeps sess eid : preserves (on_store well_formed) (delete_entry sess eid).
Proof.
  unfold delete_entry. apply preserves_execute. intros d Hd.
  by apply delete_entries_where_well_formed.
Qed.

Lemma add_entry_keeps render sess t bd : preserves (on_store well_formed) (add_entry P E render sess t bd).
Proof.
  unfold add_entry. preserve_steps.
  - intros w o w' H Hw.
    match type of H with
    | context [insert_entry_row ?u ?c ?x1 ?x2 ?x3 ?x4 ?x5 ?x6 ?x7 (store w)] =>
        pose proof (insert_entry_row_well_formed u c x1 x2 x3 x4 x5 x6 x7 (store w) Hw) as Hwf;
        destruct (insert_entry_row u c x1 x2 x3 x4 x5 x6 x7 (store w)) as [eid d]
    end.
    injection H as <- <-. exact Hwf.
  - apply preserves_execute. intros d Hd. by apply insert_entry_terms_well_formed.
Qed.

Lemma migrate_entry_keeps sess k1 k2 entry : preserves (on_store well_formed) (migrate_entry P E sess k1 k2 entry).
Proof.
  unfold migrate_entry. preserve_steps;
    apply preserves_execute; intros d Hd;
    auto using update_entry_row_with_map_well_formed, clear_entry_terms_well_formed,
      insert_entry_terms_well_formed.
Qed.

Lemma change_password_keeps sess cur new : preserves (on_store well_formed) (change_password_logged_in P E sess cur new).
Proof.
  unfold change_password_logged_in. preserve_steps;
    apply preserves_execute; intros d Hd;
    auto using update_entry_row_with_map_well_formed, clear_entry_terms_well_formed,
      insert_entry_terms_well_formed, update_user_credentials_well_formed.
Qed.

Lemma reset_password_keeps name a new :
  preserves (on_store well_formed) (reset_password_with_security_answer P E name a new).
Proof.
  unfold reset_password_with_security_answer. preserve_steps.
  - apply preserves_execute. intros d Hd. by apply delete_entries_where_well_formed.
  - apply preserves_execute. intros d Hd. by apply update_user_credentials_well_formed.
Qed.

End Invariant.

Lemma journal_world_well_formed : well_formed (store Reference.journal_world).
Proof.
  constructor; apply (bool_decide_unpack _); vm_compute; exact I.
Qed.

(** X4.  Registration, password change and password reset keep the
    invariants of the schema: whatever their outcome, usernames and user
    ids stay unique, no id exceeds its AUTOINCREMENT counter, entry ids
    stay unique and no [(entry_id, term_hash)] pair is stored twice. *)
Theorem credential_operations_keep_schema (P : Primitives) (E : Env) (w : world) :
  well_formed (store w) ->
  (forall name pw q a o w',
     register_user P E name pw q a w = (o, w') -> well_formed (store w')) /\
  (forall sess cur new o w',
     change_password_logged_in P E sess cur new w = (o, w') -> well_formed (store w')) /\
  (forall name a new o w',
     reset_password_with_security_answer P E name a new w = (o, w') ->
     well_formed (store w')).
Proof.
  intros Hw. split; [|split].
  - intros name pw q a o w' H. exact (register_user_keeps P E name pw q a w o w' H Hw).
  - intros sess cur new o w' H. exact (change_password_keeps P E sess cur new w o w' H Hw).
  - intros name a new o w' H. exact (reset_password_keeps P E name a new w o w' H Hw).
Qed.

Lemma credential_operations_keep_schema_witness :
  well_formed
    (store (snd (change_password_logged_in Reference.primitives Reference.env
                   Reference.alice_session "Pw1!" "Pw2!" Reference.journal_world))).
Proof.
  pose proof (credential_operations_keep_schema Reference.primitives Reference.env
                Reference.journal_world journal_world_well_formed) as (_ & H & _).
  eapply H. apply surjective_pairing.
Defined.

(** X5.  Adding, updating and deleting an entry keep the invariants of
    the schema, whatever the session, the entry id and the texts. *)
Theorem entry_operations_keep_schema (P : Primitives) (E : Env)
    (render : string -> string -> string) (sess : SessionKeys) (w : world) :
  well_formed (store w) ->
  (forall title body o w',
     add_entry P E render sess title body w = (o, w') -> well_formed (store w')) /\
  (forall eid title body o w',
     update_entry P E sess eid title body w = (o, w') -> well_formed (store w')) /\
  (forall eid o w', delete_entry sess eid w = (o, w') -> well_formed (store w')).
Proof.
  intros Hw. split; [|split].
  - intros t bd o w' H. exact (add_entry_keeps P E render sess t bd w o w' H Hw).
  - intros eid t bd o w' H. exact (update_entry_keeps P E sess eid t bd w o w' H Hw).
  - intros eid o w' H. exact (delete_entry_keeps sess eid w o w' H Hw).
Qed.

Lemma entry_operations_keep_schema_witness :
  well_formed
    (store (snd (add_entry Reference.primitives Reference.env (fun _ _ => "~~~")
                   Reference.alice_session "Day 3" "Sunshine"
                   Reference.journal_world))).
Proof.
  pose proof (entry_operations_keep_schema Reference.primitives Reference.env
                (fun _ _ => "~~~") Reference.alice_session
                Reference.journal_world journal_world_well_formed) as (H & _ & _).
  eapply H. apply surjective_pairing.
Defined.

(** X6.  [insert_user] succeeds exactly when the username is not taken.
    When it succeeds, looking the name up returns the inserted row, whose
    id is one more than the last id handed out; every other name looks up
    as before; and the two entry tables are untouched. *)
Theorem insert_user_lookup name ph ks dw dn q ah ca (d : database) :
  match insert_user name ph ks dw dn q ah ca d with
  | inl x =>
      x = IntegrityError "UNIQUE constraint failed: users.username" /\
      get_user_by_username name d <> None
  | inr d' =>
      get_user_by_username name d = None /\
      get_user_by_username name d' =
        Some {| u_id := users_seq d + 1; u_username := name; u_pwd_hash := ph;
                u_kek_salt := ks; u_dek_wrapped := dw; u_dek_wrap_nonce := dn;
                u_security_question := q; u_security_answer_hash := ah;
                u_created_at := ca |} /\
      (forall other, other <> name ->
         get_user_by_username other d' = get_user_by_username other d) /\
      entries d' = entries d /\ entry_terms d' = entry_terms d
  end.
Proof.
  unfold insert_user. destruct (get_user_by_username name d) eqn:Hget; [done|].
  split; [done|]. unfold get_user_by_username in *. cbn [users with_users].
  split; [|split; [|done]].
  - rewrite find_app_None by done. cbn [u_username]. by rewrite bool_decide_true.
  - intros other Hne.
    destruct (List.find (fun r => bool_decide (u_username r = other)) (users d)) as [r|] eqn:Hf.
    + clear Hget. induction (users d) as [|y l IH]; simpl in *; [discriminate|].
      destruct (bool_decide (u_username y = other)); [done|]. by apply IH.
    + rewrite find_app_None by done. cbn [u_username]. by rewrite bool_decide_false.
Qed.

Lemma fold_insert_or_ignore_present pairs ts :
  (forall p, p ∈ pairs -> p ∈ ts) -> fold_left insert_or_ignore pairs ts = ts.
Proof.
  revert ts. induction pairs as [|p pairs IH]; intros ts H; simpl; [done|].
  unfold insert_or_ignore at 2. rewrite bool_decide_true by (apply H; by left).
  apply IH. intros q Hq. apply H. by right.
Qed.

(** X8.  [insert_entry_terms] is idempotent: inserting a batch of pairs a
    second time changes nothing, and inserting pairs that are all stored
    already changes nothing. *)
Theorem insert_entry_terms_idempotent (pairs : list (Z * bytes)) (d : database) :
  insert_entry_terms pairs (insert_entry_terms pairs d) = insert_entry_terms pairs d /\
  ((forall p, p ∈ pairs -> p ∈ entry_terms d) ->
   entry_terms (insert_entry_terms pairs d) = entry_terms d).
Proof.
  assert (Hpresent : forall d0, (forall p, p ∈ pairs -> p ∈ entry_terms d0) ->
            insert_entry_terms pairs d0 = d0).
  { intros d0 H. unfold insert_entry_terms. destruct (nonempty pairs); [|done].
    rewrite fold_insert_or_ignore_present by done. by destruct d0. }
  split.
  - apply Hpresent. intros p Hp. apply insert_entry_terms_elem. by right.
  - intros H. by rewrite Hpresent.
Qed.

(* ------------------------------------------------------------------ *)
(** ** Reading the journal                                            *)
(* ------------------------------------------------------------------ *)

Lemma search_entries_run (P : Primitives) sess q w :
  search_entries P sess q w = (Return (search_ids P sess q (store w)), w).
Proof.
  unfold search_entries, search_ids. rewrite TextFacts.filter_truthy_normalize.
  destruct (Text.normalize_tokens q) as [|t ts] eqn:Hq; [done|].
  cbn [nonempty negb].
  erewrite bind_Return;
    [|exact (collect_query
               (fun token => get_entry_ids_for_term (hmac_token P (search_key sess) token))
               (fun ids => (list_to_set ids : gset Z)) (t :: ts) w)].
  reflexivity.
Qed.

Lemma search_ids_elem (P : Primitives) sess q d eid :
  eid ∈ search_ids P sess q d <->
  Text.normalize_tokens q <> [] /\
  forall t, t ∈ Text.normalize_tokens q ->
    (eid, hmac_token P (search_key sess) t) ∈ entry_terms d.
Proof.
  unfold search_ids. destruct (Text.normalize_tokens q) as [|t ts]; cbn [map].
  - split; [intros H; by apply elem_of_nil in H|]. intros [H _]. done.
  - rewrite elem_of_sorted_reverse, elem_of_set_intersection.
    rewrite elem_of_list_to_set, elem_of_get_entry_ids_for_term.
    rewrite Forall_fmap, Forall_forall. split.
    + intros [Ht Hts]. split; [done|]. intros t' [->|Hin]%elem_of_cons; [done|].
      specialize (Hts t' Hin). simpl in Hts.
      by rewrite elem_of_list_to_set, elem_of_get_entry_ids_for_term in Hts.
    + intros [_ H]. split; [apply H; by left|].
      intros t' Hin. simpl.
      rewrite elem_of_list_to_set, elem_of_get_entry_ids_for_term.
      apply H. by right.
Qed.

Lemma get_security_question_cases name w :
  get_security_question name w =
  match get_user_by_username name (store w) with
  | None => (Raise (ValueError "User not found"), w)
  | Some row =>
      if Text.all_chars Text.isspace (u_security_question row)
      then (Raise (ValueError "Security question not set"), w)
      else (Return (Text.strip (u_security_question row)), w)
  end.
Proof.
  unfold get_security_question, get_user_security_question.
  unfold mbind, M_bind, query.
  destruct (get_user_by_username name (store w)) as [row|]; [|done].
  cbn [option_map]. rewrite strip_blank.
  by destruct (Text.all_chars Text.isspace (u_security_question row)).
Qed.

(** X9.  After a successful [register_user], [get_security_question]
    returns the registered question with its surrounding whitespace
    removed, and this is never the empty string.  On any store it raises
    [ValueError("User not found")] for a name without a row and
    [ValueError("Security question not set")] for a row whose question is
    empty or blank; it never changes the world. *)
Theorem get_security_question_spec (P : Primitives) (E : Env)
    (name password question answer : string) (w w' : world) :
  register_user P E name password question answer w = (Return tt, w') ->
  get_security_question name w' = (Return (Text.strip question), w') /\
  Text.strip question <> "" /\
  (forall v n, get_user_by_username n (store v) = None ->
     get_security_question n v = (Raise (ValueError "User not found"), v)) /\
  (forall v n row, get_user_by_username n (store v) = Some row ->
     Text.all_chars Text.isspace (u_security_question row) = true ->
     get_security_question n v = (Raise (ValueError "Security question not set"), v)).
Proof.
  intros Hreg.
  destruct (Text.all_chars Text.isspace question || Text.all_chars Text.isspace answer)
    eqn:Hb.
  { rewrite register_user_blank in Hreg by done. discriminate. }
  apply orb_false_iff in Hb as [Hq Ha].
  assert (Hb : Text.all_chars Text.isspace question || Text.all_chars Text.isspace answer
               = false) by by rewrite Hq, Ha.
  rewrite register_user_insert in Hreg by done. cbv zeta in Hreg.
  unfold insert_user in Hreg.
  destruct (get_user_by_username name (store w)) eqn:Hnone; [discriminate|].
  injection Hreg as <-.
  split; [|split; [|split]].
  - rewrite get_security_question_cases. unfold get_user_by_username in *.
    cbn [store users with_users]. rewrite find_app_None by done.
    cbn [u_username u_security_question]. rewrite bool_decide_true by done.
    cbn [u_security_question]. by rewrite Hq.
  - pose proof (strip_blank question) as Hs. rewrite Hq in Hs.
    intros Heq. rewrite Heq in Hs. discriminate.
  - intros v n Hn. by rewrite get_security_question_cases, Hn.
  - intros v n row Hr Hblank. by rewrite get_security_question_cases, Hr, Hblank.
Qed.

Lemma get_security_question_spec_witness :
  get_security_question "alice" Reference.alice_world =
    (Return "pet name?", Reference.alice_world).
Proof.
  exact (proj1 (get_security_question_spec Reference.primitives Reference.env
                  "alice" "Pw1!" "pet name?" "Rex"
                  Reference.empty_world Reference.alice_world eq_refl)).
Defined.

(** X10.  The read operations never change the world: whether they
    return or raise, [login_user], [get_security_question], [list_entries],
    [get_entry], [get_entry_with_map] and [search_entries] leave the
    store, the backups and the entropy cursor exactly as they found
    them. *)
Theorem read_operations_leave_world (P : Primitives) (sess : SessionKeys) (w w' : world) :
  (forall name pw o, login_user P name pw w = (o, w') -> w' = w) /\
  (forall name o, get_security_question name w = (o, w') -> w' = w) /\
  (forall o, list_entries P sess w = (o, w') -> w' = w) /\
  (forall eid o, get_entry P sess eid w = (o, w') -> w' = w) /\
  (forall eid o, get_entry_with_map P sess eid w = (o, w') -> w' = w) /\
  (forall q o, search_entries P sess q w = (o, w') -> w' = w).
Proof.
  assert (Hp : forall A (m : M A) o, preserves (fun v => v = w) m -> m w = (o, w') -> w' = w).
  { intros A m o Hm H. exact (Hm w o w' H eq_refl). }
  repeat split.
  - intros name pw o. apply Hp. unfold login_user. preserve_steps.
  - intros name o. apply Hp. unfold get_security_question. preserve_steps.
  - intros o. apply Hp. unfold list_entries. preserve_steps.
  - intros eid o. apply Hp. unfold get_entry. preserve_steps.
  - intros eid o. apply Hp. unfold get_entry_with_map. preserve_steps.
  - intros q o. rewrite search_entries_run. by intros [= _ <-].
Qed.

(* ------------------------------------------------------------------ *)
(** ** Writing the journal                                            *)
(* ------------------------------------------------------------------ *)

Section JournalFacts.
Context (P : Primitives) (E : Env) (render : string -> string -> string).

(** [add_entry] always ends normally; its result and the world it leaves. *)
Lemma add_entry_run sess title body w :
  add_entry P E render sess title body w =
  (Return (entries_seq (store w) + 1),
   {| store :=
        insert_entry_terms
          (index_pairs P (search_key sess) (entries_seq (store w) + 1) title body)
          (with_entries (entries (store w) ++ [added_row P E render sess title body w])
             (entries_seq (store w) + 1) (store w));
      backups := backups w;
      cursor := (cursor w + 12 + 12 + 12)%nat |}).
Proof. reflexivity. Qed.

(** [get_entry] on a row that the session can open. *)
Lemma get_entry_row_found sess eid w r title body :
  get_entry_row (user_id sess) eid (store w) = Some r ->
  AESGCM_decrypt P (enc_key sess) (e_title_nonce r) (e_title_ct r)
    (Some (str_encode P (username sess))) = Some (str_encode P title) ->
  AESGCM_decrypt P (enc_key sess) (e_body_nonce r) (e_body_ct r)
    (Some (str_encode P (username sess))) = Some (str_encode P body) ->
  codec_roundtrip P ->
  get_entry P sess eid w = (Return (e_created_at r, title, body), w).
Proof.
  intros Hr Ht Hb Hc. unfold get_entry.
  erewrite bind_Return; [|unfold query; by rewrite Hr].
  unfold aesgcm_decrypt, decode. rewrite Ht, bind_ret_l, Hc, bind_ret_l.
  rewrite Hb, bind_ret_l, Hc, bind_ret_l. reflexivity.
Qed.

Lemma find_app_fresh (p : entry_row -> bool) (l : list entry_row) (x : entry_row) :
  Forall (fun r => p r = false) l -> p x = true -> List.find p (l ++ [x]) = Some x.
Proof.
  intros Hl Hx. induction Hl as [|y l Hy Hl IH]; simpl; [by rewrite Hx|].
  by rewrite Hy.
Qed.

End JournalFacts.

(** X11.  [add_entry] always succeeds and returns the next id of the
    AUTOINCREMENT counter.  On a store whose entry ids do not exceed the
    counter, [get_entry] with the same session then returns the creation
    time, the title and the body that were added. *)
Theorem add_entry_then_get_entry (P : Primitives) (E : Env) (HP : Ideal P)
    (render : string -> string -> string)
    (sess : SessionKeys) (title body : string) (w : world) :
  codec_roundtrip P ->
  Forall (fun r => e_id r <= entries_seq (store w)) (entries (store w)) ->
  exists w',
    add_entry P E render sess title body w = (Return (entries_seq (store w) + 1), w') /\
    get_entry P sess (entries_seq (store w) + 1) w' =
      (Return (utcnow_isoformat E, title, body), w').
Proof.
  intros Hc Hseq. eexists. split; [apply add_entry_run|].
  apply (get_entry_row_found P sess _ _ (added_row P E render sess title body w)).
  - cbn [store]. destruct (insert_entry_terms_frame
      (index_pairs P (search_key sess) (entries_seq (store w) + 1) title body)
      (with_entries (entries (store w) ++ [added_row P E render sess title body w])
         (entries_seq (store w) + 1) (store w))) as (_ & _ & He & _).
    unfold get_entry_row. rewrite He. cbn [entries with_entries].
    apply find_app_fresh.
    + eapply Forall_impl; [exact Hseq|]. intros r Hr. simpl in Hr.
      rewrite bool_decide_false by lia. done.
    + cbn. by rewrite !bool_decide_true.
  - cbn. apply (aead_roundtrip P HP).
  - cbn. apply (aead_roundtrip P HP).
  - exact Hc.
Qed.

Lemma reference_codec : codec_roundtrip Reference.primitives.
Proof. intros s. simpl. by rewrite string_of_list_byte_of_string. Qed.

Lemma add_entry_then_get_entry_witness :
  exists w',
    add_entry Reference.primitives Reference.env (fun _ _ => "~~~")
      Reference.alice_session "Day 3" "Sunshine" Reference.journal_world
      = (Return 3, w') /\
    get_entry Reference.primitives Reference.alice_session 3 w' =
      (Return ("2024-01-03T00:00:00", "Day 3", "Sunshine"), w').
Proof.
  apply (add_entry_then_get_entry Reference.primitives Reference.env ReferenceFacts.ideal
           (fun _ _ => "~~~") Reference.alice_session "Day 3" "Sunshine"
           Reference.journal_world reference_codec).
  apply journal_world_well_formed.
Defined.

(** X12.  After [add_entry], a search by the same session for a query
    whose tokens all occur in the title or the body of the new entry
    returns a list that contains the id of the new entry. *)
Theorem add_entry_then_search (P : Primitives) (E : Env)
    (render : string -> string -> string)
    (sess : SessionKeys) (title body q : string) (w : world) :
  Text.normalize_tokens q <> [] ->
  (forall t, t ∈ Text.normalize_tokens q -> t ∈ Text.tokenize title ∪ Text.tokenize body) ->
  exists eid w' ids,
    add_entry P E render sess title body w = (Return eid, w') /\
    search_entries P sess q w' = (Return ids, w') /\
    eid ∈ ids.
Proof.
  intros Hne Hq. eexists _, _, _. split; [apply add_entry_run|].
  split; [apply search_entries_run|].
  apply search_ids_elem. split; [done|]. intros t Ht. cbn [store].
  apply insert_entry_terms_elem. right. apply index_pairs_elem. split; [done|].
  exists t. split; [by apply Hq|done].
Qed.

Lemma add_entry_then_search_witness :
  exists eid w' ids,
    add_entry Reference.primitives Reference.env (fun _ _ => "~~~")
      Reference.alice_session "Day 1" "It rained." Reference.alice_world
      = (Return eid, w') /\
    search_entries Reference.primitives Reference.alice_session "rained" w'
      = (Return ids, w') /\
    eid ∈ ids.
Proof.
  apply (add_entry_then_search Reference.primitives Reference.env (fun _ _ => "~~~")
           Reference.alice_session "Day 1" "It rained." "rained" Reference.alice_world).
  - discriminate.
  - intros t Ht. change (Text.normalize_tokens "rained") with ["rained"] in Ht.
    apply list_elem_of_singleton in Ht as ->.
    apply elem_of_union_r. unfold Text.tokenize.
    change (Text.normalize_tokens "It rained.") with ["it"; "rained"].
    apply elem_of_list_to_set. right. left.
Defined.

Lemma find_map_keep (p : entry_row -> bool) (f : entry_row -> entry_row) l r :
  (forall x, p (f x) = p x) -> List.find p l = Some r -> List.find p (map f l) = Some (f r).
Proof.
  intros Hp. induction l as [|x l IH]; simpl; [discriminate|].
  rewrite Hp. destruct (p x); [by intros [= ->]|exact IH].
Qed.

(** X13.  When the session owns the entry, [get_entry] after
    [update_entry] returns the new title and the new body with the
    creation time the entry had before. *)
Theorem update_entry_then_get_entry (P : Primitives) (E : Env) (HP : Ideal P)
    (sess : SessionKeys) (entry_id : Z) (new_title new_body : string)
    (w : world) (r : entry_row) :
  codec_roundtrip P ->
  get_entry_row (user_id sess) entry_id (store w) = Some r ->
  exists w',
    update_entry P E sess entry_id new_title new_body w = (Return tt, w') /\
    get_entry P sess entry_id w' = (Return (e_created_at r, new_title, new_body), w').
Proof.
  intros Hc Hr. eexists. split; [apply update_entry_run|].
  set (tn := drawn E (cursor w) 12). set (bn := drawn E (cursor w + 12) 12).
  set (aad := Some (str_encode P (username sess))).
  apply (get_entry_row_found P sess entry_id _
           (set_title_body tn (AESGCM_encrypt P (enc_key sess) tn (str_encode P new_title) aad)
              bn (AESGCM_encrypt P (enc_key sess) bn (str_encode P new_body) aad) r)).
  - cbn [store].
    match goal with
    | |- get_entry_row _ _ (insert_entry_terms ?ps ?d) = _ =>
        destruct (insert_entry_terms_frame ps d) as (_ & _ & He & _)
    end.
    unfold get_entry_row in *. rewrite He.
    cbn [entries clear_entry_terms with_entry_terms update_entry_row with_entries].
    pose proof (find_some _ _ Hr) as [_ Hp]. cbn beta in Hp.
    match goal with
    | |- List.find ?p (map ?f _) = _ =>
        assert (Hf : forall x, p (f x) = p x);
        [intros x; unfold entry_is;
         destruct (bool_decide (e_id x = entry_id)
                   && bool_decide (e_user_id x = user_id sess)) eqn:Hx;
         cbn [e_id e_user_id set_title_body]; by rewrite ?Hx
        |rewrite (find_map_keep p f _ r Hf Hr)]
    end.
    unfold entry_is. by rewrite Hp.
  - cbn. apply (aead_roundtrip P HP).
  - cbn. apply (aead_roundtrip P HP).
  - exact Hc.
Qed.

Lemma update_entry_then_get_entry_witness :
  exists w',
    update_entry Reference.primitives Reference.env Reference.alice_session 2
      "Day two" "Calm night" Reference.journal_world = (Return tt, w') /\
    get_entry Reference.primitives Reference.alice_session 2 w' =
      (Return ("2024-01-02T09:00:00", "Day two", "Calm night"), w').
Proof.
  apply (update_entry_then_get_entry Reference.primitives Reference.env ReferenceFacts.ideal
           Reference.alice_session 2 "Day two" "Calm night" Reference.journal_world
           Reference.entry2 reference_codec).
  reflexivity.
Defined.

Lemma find_filter_negb (p : entry_row -> bool) (l : list entry_row) :
  List.find p (List.filter (fun r => negb (p r)) l) = None.
Proof.
  induction l as [|x l IH]; simpl; [done|].
  destruct (p x) eqn:Hx; simpl; [done|]. by rewrite Hx.
Qed.

(** X14.  [delete_entry] removes the rows with the given id that belong
    to the session's user and nothing else: the other entry rows stay in
    place, [get_entry] for the id then raises
    [ValueError("Entry not found")], and the [users] table is untouched.
    The term rows of the deleted entry stay in the index, so every search
    returns what it returned before the deletion, the deleted id
    included. *)
Theorem delete_entry_spec (P : Primitives) (sess : SessionKeys) (entry_id : Z) (w : world) :
  exists w',
    delete_entry sess entry_id w = (Return tt, w') /\
    entries (store w') =
      List.filter (fun r => negb (entry_is entry_id (user_id sess) r)) (entries (store w)) /\
    users (store w') = users (store w) /\
    entry_terms (store w') = entry_terms (store w) /\
    get_entry P sess entry_id w' = (Raise (ValueError "Entry not found"), w') /\
    (forall s q, search_entries P s q w' = (Return (search_ids P s q (store w)), w')).
Proof.
  eexists. split; [reflexivity|]. cbn [store].
  split; [reflexivity|]. split; [reflexivity|]. split; [reflexivity|]. split.
  - unfold get_entry, mbind, M_bind, query, get_entry_row.
    cbn [store entries delete_entry_row delete_entries_where].
    by rewrite (find_filter_negb (entry_is entry_id (user_id sess))).
  - intros s q. rewrite search_entries_run. reflexivity.
Qed.

Example delete_entry_search_stale :
  let w' := snd (delete_entry Reference.alice_session 2 Reference.journal_world) in
  fst (get_entry Reference.primitives Reference.alice_session 2 w')
    = Raise (ValueError "Entry not found") /\
  fst (search_entries Reference.primitives Reference.alice_session "storm" w') = Return [2].
Proof. split; vm_compute; reflexivity. Qed.

Lemma search_ids_set (P : Primitives) sess q1 q2 d :
  Text.tokenize q1 = Text.tokenize q2 -> search_ids P sess q1 d = search_ids P sess q2 d.
Proof.
  intros Hq.
  assert (Hmem : forall t, t ∈ Text.normalize_tokens q1 <-> t ∈ Text.normalize_tokens q2).
  { intros t. unfold Text.tokenize in Hq.
    rewrite <- (elem_of_list_to_set (C := gset string)), Hq, elem_of_list_to_set. done. }
  assert (Hnil : Text.normalize_tokens q1 = [] <-> Text.normalize_tokens q2 = []).
  { split; intros H.
    - destruct (Text.normalize_tokens q2) as [|t ts] eqn:E2; [done|].
      assert (t ∈ Text.normalize_tokens q1) as Ht by (apply Hmem; by left).
      rewrite H in Ht. by apply elem_of_nil in Ht.
    - destruct (Text.normalize_tokens q1) as [|t ts] eqn:E1; [done|].
      assert (t ∈ Text.normalize_tokens q2) as Ht by (apply Hmem; by left).
      rewrite H in Ht. by apply elem_of_nil in Ht. }
  assert (Hset : forall eid, eid ∈ search_ids P sess q1 d <-> eid ∈ search_ids P sess q2 d).
  { intros eid. rewrite !search_ids_elem. rewrite Hnil. setoid_rewrite Hmem. done. }
  unfold search_ids in *.
  destruct (Text.normalize_tokens q1) as [|t1 ts1] eqn:E1;
    destruct (Text.normalize_tokens q2) as [|t2 ts2] eqn:E2; cbn [map] in *.
  - done.
  - destruct Hnil as [Hn _]. specialize (Hn eq_refl). discriminate.
  - destruct Hnil as [_ Hn]. specialize (Hn eq_refl). discriminate.
  - unfold sorted_reverse. f_equal. f_equal. apply set_eq. intros eid.
    specialize (Hset eid). by rewrite !elem_of_sorted_reverse in Hset.
Qed.

(** X15.  The result of [search_entries] depends on the query only
    through its token set: two queries with the same tokens, whatever
    their case, punctuation, word order and repetitions, return the same
    list of ids. *)
Theorem search_entries_token_set (P : Primitives) (sess : SessionKeys)
    (q1 q2 : string) (w : world) :
  Text.tokenize q1 = Text.tokenize q2 ->
  search_entries P sess q1 w = search_entries P sess q2 w.
Proof.
  intros Hq. rewrite !search_entries_run. by rewrite (search_ids_set P sess q1 q2).
Qed.

Lemma search_entries_token_set_witness :
  search_entries Reference.primitives Reference.alice_session "Storm, NIGHT storm!"
    Reference.journal_world =
  search_entries Reference.primitives Reference.alice_session "night storm"
    Reference.journal_world.
Proof.
  apply (search_entries_token_set Reference.primitives Reference.alice_session
           "Storm, NIGHT storm!" "night storm" Reference.journal_world).
  unfold Text.tokenize.
  change (Text.normalize_tokens "Storm, NIGHT storm!") with ["storm"; "night"; "storm"].
  change (Text.normalize_tokens "night storm") with ["night"; "storm"].
  apply set_eq. intros t. rewrite !elem_of_list_to_set, !elem_of_cons, !elem_of_nil. tauto.
Defined.

(** X16.  [register_user] ends normally exactly when neither the
    question nor the answer is blank and the username is not taken.  It
    then adds one user row, with the next id, the given question and the
    clock reading, and leaves all other rows, the entries, the index and
    the backups as they were. *)
Theorem register_user_success (P : Primitives) (E : Env)
    (name password question answer : string) (w : world) :
  ((exists w', register_user P E name password question answer w = (Return tt, w')) <->
   Text.all_chars Text.isspace question = false /\
   Text.all_chars Text.isspace answer = false /\
   get_user_by_username name (store w) = None) /\
  (forall w', register_user P E name password question answer w = (Return tt, w') ->
     exists row,
       users (store w') = users (store w) ++ [row] /\
       u_id row = users_seq (store w) + 1 /\ u_username row = name /\
       u_security_question row = question /\ u_created_at row = utcnow_isoformat E /\
       entries (store w') = entries (store w) /\
       entry_terms (store w') = entry_terms (store w) /\
       backups w' = backups w).
Proof.
  destruct (Text.all_chars Text.isspace question || Text.all_chars Text.isspace answer)
    eqn:Hb.
  - rewrite register_user_blank by done. split.
    + split; [intros [w' H]; discriminate|].
      intros (Hq & Ha & _). by rewrite Hq, Ha in Hb.
    + intros w' H. discriminate.
  - rewrite register_user_insert by done. cbv zeta.
    apply orb_false_iff in Hb as [Hq Ha]. unfold insert_user.
    destruct (get_user_by_username name (store w)) eqn:Hget.
    + split; [|intros w' H; discriminate].
      split; [intros [w' H]; discriminate|]. intros (_ & _ & H). discriminate.
    + split.
      * split; [done|]. intros _. eexists. reflexivity.
      * intros w' [= <-]. eexists. cbn. repeat split; reflexivity.
Qed.

(* ------------------------------------------------------------------ *)
(** ** Reset and change of the password, continued                    *)
(* ------------------------------------------------------------------ *)

(** X17.  [reset_password_with_security_answer] is run with calls that can
    fail.  When it raises, the [users] table and the term rows are as
    before, so every login behaves as before and the password is not
    reset.  Either the store is untouched, or the run stopped after its
    DELETE, while hashing the new password, deriving the key or writing
    the credentials: then the entries of the user are deleted, and the
    backup holds the store as it was. *)
Theorem reset_password_failure (P : Primitives) (E : Env)
    (name security_answer new_password : string)
    (script : list (option exn)) (w w' : world) (x : exn) :
  Faulty.run (Faulty.reset_password_with_security_answer P E name security_answer
                new_password) script w = (Raise x, w') ->
  users (store w') = users (store w) /\
  entry_terms (store w') = entry_terms (store w) /\
  (forall n password,
     fst (login_user P n password w') = fst (login_user P n password w)) /\
  (store w' = store w \/
   exists row,
     get_user_by_username name (store w) = Some row /\
     store w' = delete_entries_for_user (u_id row) (store w) /\
     backups w' = copy_to (now_strftime E) (store w) (backups w)).
Proof.
  intros (s' & H & <-)%faulty_run_inv.
  apply faulty_reset_trace in H as (Hb & Hst). cbn [Faulty.current] in Hb, Hst.
  assert (Hu : users (store (Faulty.current s')) = users (store w)).
  { destruct Hst as [->|(row & _ & ->)]; done. }
  split; [exact Hu|]. split.
  { destruct Hst as [->|(row & _ & ->)]; done. }
  split; [intros n password; by apply login_user_users|].
  destruct Hst as [Hst|(row & Hrow & Hst)]; [by left|].
  destruct Hb as [Hb|Hb]; [by left|]. right. exists row. done.
Qed.

Lemma reset_password_failure_witness :
  let r := Faulty.run (Faulty.reset_password_with_security_answer Reference.primitives
                         Reference.env "alice" "Rex" "Pw2!")
             (Faulty.fails_at 6 HashingError) Reference.journal_world in
  fst r = Raise HashingError /\
  entries (store (snd r)) = [] /\
  fst (login_user Reference.primitives "alice" "Pw1!" (snd r)) =
    Return Reference.alice_session /\
  fst (login_user Reference.primitives "alice" "Pw2!" (snd r)) =
    Raise (ValueError "Invalid password").
Proof.
  intros r.
  assert (Hr : r = (Raise HashingError, snd r)) by (vm_compute; reflexivity).
  destruct (reset_password_failure Reference.primitives Reference.env
              "alice" "Rex" "Pw2!" _ Reference.journal_world (snd r) _ Hr)
    as (_ & _ & Hlogin & _).
  split; [vm_compute; reflexivity|]. split; [vm_compute; reflexivity|].
  rewrite !Hlogin. split; vm_compute; reflexivity.
Defined.

Lemma reset_password_rest_witness :
  let r := reset_password_with_security_answer Reference.primitives Reference.env
             "alice" "Rex" "Pw2!" Reference.journal_world in
  fst r = Return tt /\
  fst (login_user Reference.primitives "alice" "Pw2!" (snd r)) =
    Return {| user_id := 1; username := "alice";
              dek := drawn Reference.env (cursor Reference.journal_world) 32;
              enc_key := hkdf_derive Reference.primitives
                           (drawn Reference.env (cursor Reference.journal_world) 32)
                           HKDF_INFO_ENC 32;
              search_key := hkdf_derive Reference.primitives
                              (drawn Reference.env (cursor Reference.journal_world) 32)
                              HKDF_INFO_HMAC 32 |} /\
  login_user Reference.primitives "alice" "Pw1!" (snd r) =
    (Raise (ValueError "Invalid password"), snd r).
Proof.
  intros r.
  assert (Hr : r = (Return tt, snd r)) by (vm_compute; reflexivity).
  destruct (proj1 (reset_password_rest Reference.primitives Reference.env
                     ReferenceFacts.ideal "alice" "Rex" "Pw2!" Reference.journal_world)
              (snd r) Hr) as (row & Hrow & _ & Hlogin & Hold).
  split; [vm_compute; reflexivity|]. split.
  - rewrite Hlogin. cbn [fst]. vm_compute in Hrow. injection Hrow as <-. reflexivity.
  - apply Hold. discriminate.
Defined.

Section ChangePasswordMore.
Context (P : Primitives) (E : Env).

(** The loop leaves the [users] table, the user counter and the backups
    alone, whether it completes or raises. *)
Lemma for_each_migrate_users sess k_enc k_search rows w o w' :
  for_each rows (migrate_entry P E sess k_enc k_search) w = (o, w') ->
  users (store w') = users (store w) /\
  users_seq (store w') = users_seq (store w) /\
  backups w' = backups w.
Proof.
  destruct o as [[]|x]; intros H.
  - apply for_each_migrate_frame in H as (? & ? & ? & _). done.
  - apply for_each_raise in H as (done & failing & rest & w1 & _ & Hd & Hf).
    apply migrate_entry_raise in Hf as ->.
    apply for_each_migrate_frame in Hd as (? & ? & ? & _). done.
Qed.

End ChangePasswordMore.

(** X18.  Neither [change_password_logged_in] nor
    [reset_password_with_security_answer] writes to the store before its
    backup is complete: whatever fails and whatever the outcome, either
    the store is as before the call or the backup file named by the clock
    holds the store as it was before the call. *)
Theorem backup_precedes_writes (P : Primitives) (E : Env) (w : world) :
  (forall sess current_password new_password script o w',
     Faulty.run (Faulty.change_password_logged_in P E sess current_password new_password)
       script w = (o, w') ->
     store w' = store w \/
     backups w' = copy_to (now_strftime E) (store w) (backups w)) /\
  (forall name security_answer new_password script o w',
     Faulty.run (Faulty.reset_password_with_security_answer P E name security_answer
                   new_password) script w = (o, w') ->
     store w' = store w \/
     backups w' = copy_to (now_strftime E) (store w) (backups w)).
Proof.
  split.
  - intros sess cp np script o w' (s' & H & <-)%faulty_run_inv.
    by apply faulty_change_password_trace in H as (Hb & _).
  - intros name sa np script o w' (s' & H & <-)%faulty_run_inv.
    by apply faulty_reset_trace in H as (Hb & _).
Qed.

(** X19.  After a successful [change_password_logged_in] by a session
    whose user id is the id of its user row, the returned session holds
    the DEK drawn during the call and its two subkeys; [login_user] with
    the new password returns exactly this session, and [login_user] with
    any other password, the old one included, raises
    [ValueError("Invalid password")]. *)
Theorem change_password_then_login (P : Primitives) (E : Env) (HP : Ideal P)
    (sess sess' : SessionKeys) (current_password new_password : string)
    (w w' : world) (row : user_row) :
  change_password_logged_in P E sess current_password new_password w = (Return sess', w') ->
  get_user_by_username (username sess) (store w) = Some row ->
  u_id row = user_id sess ->
  sess' = {| user_id := user_id sess; username := username sess;
             dek := drawn E (cursor w) 32;
             enc_key := hkdf_derive P (drawn E (cursor w) 32) HKDF_INFO_ENC 32;
             search_key := hkdf_derive P (drawn E (cursor w) 32) HKDF_INFO_HMAC 32 |} /\
  login_user P (username sess) new_password w' = (Return sess', w') /\
  (forall pw, pw <> new_password ->
     login_user P (username sess) pw w' = (Raise (ValueError "Invalid password"), w')).
Proof.
  rewrite change_password_cases. intros H Hrow Hid.
  destruct (negb (Text.truthy current_password)); [discriminate|].
  destruct (negb (Text.truthy new_password)); [discriminate|].
  rewrite Hrow in H.
  destruct (argon2_verify P (u_pwd_hash row) current_password); try discriminate.
  cbv zeta in H.
  destruct (for_each _ _ _) as [[u|x] w1] eqn:Hloop; [|discriminate].
  apply for_each_migrate_users in Hloop as (Hu & _ & _). cbn [store] in Hu.
  injection H as <- <-. split; [reflexivity|].
  pose proof (get_user_by_username_name _ _ _ Hrow) as Hname.
  match goal with
  | |- context [login_user P (username sess) new_password ?v] => set (w2 := v)
  end.
  assert (Hnew : exists row',
             get_user_by_username (username sess) (store w2) = Some row' /\
             u_id row' = user_id sess /\ u_username row' = username sess /\
             u_pwd_hash row' = argon2_hash P (drawn E (cursor w + 32) 16) new_password /\
             AESGCM_decrypt P
               (hkdf_derive P (scrypt_kdf P new_password (u_kek_salt row') 32)
                  (b "wrap-key") 32)
               (u_dek_wrap_nonce row') (u_dek_wrapped row')
               (Some (str_encode P (u_username row'))) = Some (drawn E (cursor w) 32)).
  { eexists. split.
    - subst w2. cbn [store]. unfold update_user_credentials, get_user_by_username in *.
      cbn [users with_users]. rewrite Hu, find_map_preserve.
      + rewrite Hrow. cbn [option_map]. rewrite bool_decide_true by done. reflexivity.
      + intros y. by destruct (bool_decide (u_id y = user_id sess)).
    - cbn. rewrite Hname, (aead_roundtrip P HP). done. }
  destruct Hnew as (row' & Hrow' & Hid' & Hn & Hh & Hd).
  split.
  - rewrite (login_user_row P _ new_password w2 row' Hrow').
    rewrite Hh, (argon2_spec P HP), decide_True by done. cbv zeta.
    rewrite Hd, Hid', Hn. reflexivity.
  - intros pw Hpw.
    rewrite (login_user_row P _ pw w2 row' Hrow').
    rewrite Hh, (argon2_spec P HP), decide_False by done. reflexivity.
Qed.

Lemma change_password_then_login_witness :
  let r := change_password_logged_in Reference.primitives Reference.env
             Reference.alice_session "Pw1!" "Pw2!" Reference.journal_world in
  exists sess',
    r = (Return sess', snd r) /\
    login_user Reference.primitives "alice" "Pw2!" (snd r) = (Return sess', snd r) /\
    login_user Reference.primitives "alice" "Pw1!" (snd r) =
      (Raise (ValueError "Invalid password"), snd r).
Proof.
  intros r.
  destruct (fst r) as [sess'|x] eqn:Hfst; [|vm_compute in Hfst; discriminate].
  assert (Hr : r = (Return sess', snd r)) by (rewrite <- Hfst; apply surjective_pairing).
  exists sess'. split; [exact Hr|].
  assert (Hrow : exists row,
            get_user_by_username (username Reference.alice_session)
              (store Reference.journal_world) = Some row /\
            u_id row = user_id Reference.alice_session).
  { vm_compute. eexists. split; reflexivity. }
  destruct Hrow as (row & Hrow & Hid).
  destruct (change_password_then_login Reference.primitives Reference.env
              ReferenceFacts.ideal Reference.alice_session sess' "Pw1!" "Pw2!"
              Reference.journal_world (snd r) row Hr Hrow Hid) as (_ & Hnew & Hold).
  split; [exact Hnew|]. apply Hold. discriminate.
Defined.

(* ------------------------------------------------------------------ *)
(** ** Re-encryption                                                  *)
(* ------------------------------------------------------------------ *)

Section Reencryption.
Context (P : Primitives) (E : Env).

Lemma migrate_entry_rows (HP : Ideal P) sess k_enc k_search entry w w' :
  migrate_entry P E sess k_enc k_search entry w = (Return tt, w') ->
  Forall2 (migrated_rows P sess k_enc [entry]) (entries (store w)) (entries (store w')).
Proof.
  rewrite migrate_entry_cases.
  destruct (open_entry P sess entry) as [y|[[title body] m]] eqn:Hopen; [discriminate|].
  intros [= <-]. unfold migrated. cbn [store].
  match goal with
  | |- Forall2 _ _ (entries (insert_entry_terms ?ps ?d)) =>
      destruct (insert_entry_terms_frame ps d) as (_ & _ & He & _); rewrite He
  end.
  cbn [entries clear_entry_terms with_entry_terms update_entry_row_with_map with_entries].
  apply Forall2_map_self. intros r. unfold migrated_rows.
  destruct (entry_is (e_id entry) (user_id sess) r) eqn:His.
  - cbn [e_id e_user_id e_created_at set_map set_title_body].
    split; [done|]. split; [done|]. split; [done|]. split.
    + intros Hnin. exfalso. apply Hnin. cbn [map].
      apply andb_true_iff in His as [His _]. apply bool_decide_eq_true in His.
      rewrite His. by left.
    + intros e ->%list_elem_of_singleton _ _. exists title, body, m. split; [done|].
      split; cbn; apply (aead_roundtrip P HP).
  - split; [done|]. split; [done|]. split; [done|]. split; [done|].
    intros e ->%list_elem_of_singleton Hid Huid. exfalso.
    unfold entry_is in His. by rewrite Hid, Huid, !bool_decide_true in His.
Qed.

Lemma for_each_migrate_rows (HP : Ideal P) sess k_enc k_search done w w' :
  NoDup (map e_id done) ->
  for_each done (migrate_entry P E sess k_enc k_search) w = (Return tt, w') ->
  Forall2 (migrated_rows P sess k_enc done) (entries (store w)) (entries (store w')).
Proof.
  revert w. induction done as [|a done IH]; intros w Hnd.
  - intros [= <-]. apply Forall2_same_length_lookup_2; [done|].
    intros i r r' H1 H2. assert (r' = r) as -> by congruence.
    repeat split; try done. intros e He. by apply elem_of_nil in He.
  - cbn [for_each]. intros ([] & w1 & Ha & H)%bind_inv_Return.
    cbn [map] in Hnd. apply NoDup_cons in Hnd as [Hnin Hnd].
    apply (migrate_entry_rows HP) in Ha. apply (IH _ Hnd) in H.
    apply Forall2_same_length_lookup_2.
    + apply Forall2_length in Ha, H. congruence.
    + intros i r r' Hr Hr'.
      destruct (Forall2_lookup_l _ _ _ _ _ Ha Hr) as (r1 & Hr1 & (Hi1 & Hu1 & Hc1 & Hs1 & Hm1)).
      destruct (Forall2_lookup_l _ _ _ _ _ H Hr1) as (r2 & Hr2 & (Hi2 & Hu2 & Hc2 & Hs2 & Hm2)).
      assert (r2 = r') as -> by congruence.
      split; [congruence|]. split; [congruence|]. split; [congruence|]. split.
      * intros Hn. cbn [map] in Hn. apply not_elem_of_cons in Hn as [Hne Hn].
        rewrite Hs2 by (by rewrite Hi1). apply Hs1. cbn [map].
        intros Hin%list_elem_of_singleton. done.
      * intros e [->|He]%elem_of_cons Hid Huid.
        -- destruct (Hm1 a) as (title & body & m & Hopen & Hsealed); [by left|done|done|].
           exists title, body, m. split; [done|].
           rewrite Hs2; [done|]. by rewrite Hi1, <- Hid.
        -- assert (r1 = r) as ->.
           { apply Hs1. cbn [map]. intros Hin%list_elem_of_singleton.
             apply Hnin. rewrite <- Hin, <- Hid.
             apply list_elem_of_In, in_map, list_elem_of_In. done. }
           by apply Hm2.
Qed.

Lemma NoDup_map_unique {A B} (g : A -> B) (l : list A) x y :
  NoDup (map g l) -> x ∈ l -> y ∈ l -> g x = g y -> x = y.
Proof.
  induction l as [|z l IH]; simpl; [intros _ H; by apply elem_of_nil in H|].
  intros [Hz Hl]%NoDup_cons [->|Hx]%elem_of_cons [->|Hy]%elem_of_cons Hg; auto.
  - exfalso. apply Hz. rewrite Hg. by apply list_elem_of_In, in_map, list_elem_of_In.
  - exfalso. apply Hz. rewrite <- Hg. by apply list_elem_of_In, in_map, list_elem_of_In.
Qed.

(** With unique ids, the row of an id is the row that [get_entry_row]
    finds for its owner. *)
Lemma get_entry_row_unique d r :
  NoDup (map e_id (entries d)) -> r ∈ entries d ->
  get_entry_row (e_user_id r) (e_id r) d = Some r.
Proof.
  intros Hnd Hin. unfold get_entry_row.
  destruct (List.find _ (entries d)) as [x|] eqn:Hf.
  - apply find_some in Hf as [Hx Hp]. apply list_elem_of_In in Hx.
    apply andb_true_iff in Hp as [Hp _]. apply bool_decide_eq_true in Hp.
    f_equal. by apply (NoDup_map_unique e_id (entries d)).
  - exfalso. apply list_elem_of_In in Hin.
    pose proof (find_none _ _ Hf r Hin) as Hp. cbn beta in Hp.
    by rewrite !bool_decide_true in Hp.
Qed.

(** [get_entry] on a row whose title and body open. *)
Lemma get_entry_open sess eid w r title body :
  get_entry_row (user_id sess) eid (store w) = Some r ->
  open_field P (enc_key sess) (e_title_nonce r) (e_title_ct r)
    (Some (str_encode P (username sess))) = inr title ->
  open_field P (enc_key sess) (e_body_nonce r) (e_body_ct r)
    (Some (str_encode P (username sess))) = inr body ->
  get_entry P sess eid w = (Return (e_created_at r, title, body), w).
Proof.
  intros Hr Ht Hb. unfold get_entry.
  erewrite bind_Return; [|unfold query; by rewrite Hr].
  unfold open_field in Ht, Hb. unfold aesgcm_decrypt, decode.
  destruct (AESGCM_decrypt P (enc_key sess) (e_title_nonce r) _ _) as [tb|]; [|discriminate].
  rewrite bind_ret_l.
  destruct (bytes_decode P tb) as [t|]; [|discriminate]. injection Ht as ->.
  rewrite bind_ret_l.
  destruct (AESGCM_decrypt P (enc_key sess) (e_body_nonce r) _ _) as [bb|]; [|discriminate].
  rewrite bind_ret_l.
  destruct (bytes_decode P bb) as [b0|]; [|discriminate]. injection Hb as ->.
  rewrite bind_ret_l. reflexivity.
Qed.

Lemma open_entry_fields sess e title body m :
  open_entry P sess e = inr (title, body, m) ->
  open_field P (enc_key sess) (e_title_nonce e) (e_title_ct e)
    (Some (str_encode P (username sess))) = inr title /\
  open_field P (enc_key sess) (e_body_nonce e) (e_body_ct e)
    (Some (str_encode P (username sess))) = inr body.
Proof.
  unfold open_entry.
  destruct (open_field P (enc_key sess) (e_title_nonce e) _ _) as [x|t]; [discriminate|].
  destruct (open_field P (enc_key sess) (e_body_nonce e) _ _) as [x|b0]; [discriminate|].
  intros H.
  assert (t = title /\ b0 = body) as [-> ->]; [|done].
  destruct (e_map_ct e) as [ct|]; [|by injection H as -> ->].
  destruct (nonempty ct); [|by injection H as -> ->].
  destruct (e_map_nonce e) as [n|]; [|discriminate].
  destruct (open_field P (enc_key sess) n ct _) as [x|mt]; [discriminate|].
  by injection H as -> ->.
Qed.

End Reencryption.

Lemma Forall2_map_eq {A B} (g : A -> B) (R : A -> A -> Prop) (l l' : list A) :
  Forall2 R l l' -> (forall x y, R x y -> g y = g x) -> map g l' = map g l.
Proof.
  intros H Hg. induction H as [|x y l l' Hxy _ IH]; simpl; [done|].
  by rewrite (Hg x y Hxy), IH.
Qed.

(** X20.  The re-encryption invariant.  After a successful
    [change_password_logged_in] on a store with unique entry ids, every
    entry of the session's user reads the same before and after:
    [get_entry] with the old session on the old store and [get_entry]
    with the returned session on the new store both end normally with the
    same creation time, title and body. *)
Theorem change_password_keeps_entries (P : Primitives) (E : Env) (HP : Ideal P)
    (sess sess' : SessionKeys) (current_password new_password : string)
    (w w' : world) (r : entry_row) :
  change_password_logged_in P E sess current_password new_password w = (Return sess', w') ->
  codec_roundtrip P ->
  NoDup (map e_id (entries (store w))) ->
  r ∈ entries (store w) -> e_user_id r = user_id sess ->
  exists title body,
    get_entry P sess (e_id r) w = (Return (e_created_at r, title, body), w) /\
    get_entry P sess' (e_id r) w' = (Return (e_created_at r, title, body), w').
Proof.
  rewrite change_password_cases. intros H Hc Hnd Hin Huid.
  destruct (negb (Text.truthy current_password)); [discriminate|].
  destruct (negb (Text.truthy new_password)); [discriminate|].
  destruct (get_user_by_username (username sess) (store w)) as [row|]; [|discriminate].
  destruct (argon2_verify P (u_pwd_hash row) current_password); try discriminate.
  cbv zeta in H.
  destruct (for_each _ _ _) as [[u|x] w1] eqn:Hloop; [|discriminate].
  injection H as <- <-. destruct u.
  set (rows := list_entry_rows_for_user (user_id sess) (store w)) in *.
  assert (Hrows : rows ≡ₚ List.filter (fun r0 => bool_decide (e_user_id r0 = user_id sess))
                           (entries (store w))) by apply merge_sort_Permutation.
  assert (Hnd_rows : NoDup (map e_id rows)).
  { rewrite Hrows. by apply NoDup_map_filter. }
  assert (Hr_rows : r ∈ rows).
  { rewrite Hrows. apply list_elem_of_In, filter_In. split; [by apply list_elem_of_In|].
    by apply bool_decide_eq_true. }
  apply (for_each_migrate_rows P E HP _ _ _ _ _ _ Hnd_rows) in Hloop.
  cbn [store] in Hloop.
  apply list_elem_of_lookup in Hin as [i Hi].
  destruct (Forall2_lookup_l _ _ _ _ _ Hloop Hi) as (r' & Hi' & (Hid & Hu & Hca & _ & Hm)).
  destruct (Hm r Hr_rows eq_refl Huid) as (title & body & m & Hopen & Hst & Hsb).
  apply open_entry_fields in Hopen as [Hot Hob].
  exists title, body. split.
  - apply (get_entry_open P sess (e_id r) w r); [|done|done].
    rewrite <- Huid. apply get_entry_row_unique; [done|].
    by apply list_elem_of_lookup_2 in Hi.
  - rewrite <- Hca.
    apply (get_entry_open P _ (e_id r) _ r').
    + cbn [user_id store]. rewrite <- Hid, <- Huid, <- Hu.
      apply get_entry_row_unique.
      * cbn [entries update_user_credentials with_users].
        rewrite (Forall2_map_eq e_id _ _ _ Hloop); [done|].
        intros a c Hac. apply Hac.
      * cbn [entries update_user_credentials with_users].
        by apply list_elem_of_lookup_2 in Hi'.
    + cbn [enc_key username]. unfold open_field. by rewrite Hst, Hc.
    + cbn [enc_key username]. unfold open_field. by rewrite Hsb, Hc.
Qed.

Lemma change_password_keeps_entries_witness :
  let r := change_password_logged_in Reference.primitives Reference.env
             Reference.alice_session "Pw1!" "Pw2!" Reference.journal_world in
  exists sess' title body,
    fst r = Return sess' /\
    get_entry Reference.primitives Reference.alice_session 1 Reference.journal_world
      = (Return ("2024-01-01T09:00:00", title, body), Reference.journal_world) /\
    get_entry Reference.primitives sess' 1 (snd r)
      = (Return ("2024-01-01T09:00:00", title, body), snd r).
Proof.
  intros r.
  destruct (fst r) as [sess'|x] eqn:Hfst; [|vm_compute in Hfst; discriminate].
  assert (Hr : r = (Return sess', snd r)) by (rewrite <- Hfst; apply surjective_pairing).
  destruct (change_password_keeps_entries Reference.primitives Reference.env
              ReferenceFacts.ideal Reference.alice_session sess' "Pw1!" "Pw2!"
              Reference.journal_world (snd r) Reference.entry1 Hr reference_codec)
    as (title & body & Hold & Hnew).
  - apply (wf_entry_ids _ journal_world_well_formed).
  - cbn. left.
  - reflexivity.
  - exists sess', title, body. split; [reflexivity|]. split; [exact Hold|exact Hnew].
Defined.

Section Reindexing.
Context (P : Primitives) (E : Env).

Lemma migrate_entry_terms sess k_enc k_search entry w w' :
  migrate_entry P E sess k_enc k_search entry w = (Return tt, w') ->
  migrated_terms P sess k_search [entry] (entry_terms (store w)) (entry_terms (store w')).
Proof.
  rewrite migrate_entry_cases.
  destruct (open_entry P sess entry) as [y|[[title body] m]] eqn:Hopen; [discriminate|].
  intros [= <-]. unfold migrated. cbn [store]. intros eid h.
  rewrite insert_entry_terms_elem, clear_entry_terms_elem, index_pairs_elem.
  cbn [entry_terms update_entry_row_with_map with_entries]. split.
  - intros Hn. cbn [map] in Hn. apply not_elem_of_cons in Hn as [Hne _]. tauto.
  - intros e He Hid. apply list_elem_of_singleton in He. rewrite He in Hid.
    exists title, body, m. split; [by rewrite He|].
    rewrite insert_entry_terms_elem, clear_entry_terms_elem, index_pairs_elem.
    split; [intros [[Hin0 Hne]|[Heq Hex]]; [done|exact Hex]|intros Hex; right; done].
Qed.

Lemma for_each_migrate_terms sess k_enc k_search done w w' :
  NoDup (map e_id done) ->
  for_each done (migrate_entry P E sess k_enc k_search) w = (Return tt, w') ->
  migrated_terms P sess k_search done (entry_terms (store w)) (entry_terms (store w')).
Proof.
  revert w. induction done as [|a done IH]; intros w Hnd.
  - intros [= <-] eid h. split; [done|]. intros e He. by apply elem_of_nil in He.
  - cbn [for_each]. intros ([] & w1 & Ha & H)%bind_inv_Return.
    cbn [map] in Hnd. apply NoDup_cons in Hnd as [Hnin Hnd].
    apply migrate_entry_terms in Ha. apply (IH _ Hnd) in H.
    intros eid h. destruct (Ha eid h) as [Ha1 Ha2]. destruct (H eid h) as [H1 H2]. split.
    + intros Hn. cbn [map] in Hn. apply not_elem_of_cons in Hn as [Hne Hn].
      rewrite H1 by done. apply Ha1. cbn [map]. by intros ?%list_elem_of_singleton.
    + intros e [->|He]%elem_of_cons Hid.
      * destruct (Ha2 a) as (title & body & m & Hopen & Hiff); [by left|done|].
        exists title, body, m. split; [done|].
        rewrite H1; [done|]. by rewrite <- Hid.
      * by apply H2.
Qed.

End Reindexing.

(** X21.  After a successful [change_password_logged_in] on a store with
    unique entry ids, the index of every entry of the session's user is
    rebuilt under the new search key: its term rows are exactly the
    digests, under the search key of the returned session, of the tokens
    of the title and body that [get_entry] returned for it before the
    change.  The term rows of every id that is not an entry of the user
    are the same as before. *)
Theorem change_password_rebuilds_index (P : Primitives) (E : Env)
    (sess sess' : SessionKeys) (current_password new_password : string)
    (w w' : world) :
  change_password_logged_in P E sess current_password new_password w = (Return sess', w') ->
  NoDup (map e_id (entries (store w))) ->
  (forall r, r ∈ entries (store w) -> e_user_id r = user_id sess ->
     exists title body,
       get_entry P sess (e_id r) w = (Return (e_created_at r, title, body), w) /\
       forall h,
         (e_id r, h) ∈ entry_terms (store w') <->
         exists t, t ∈ Text.tokenize title ∪ Text.tokenize body /\
                   h = hmac_token P (search_key sess') t) /\
  (forall eid h,
     (forall r, r ∈ entries (store w) -> e_id r = eid -> e_user_id r <> user_id sess) ->
     ((eid, h) ∈ entry_terms (store w') <-> (eid, h) ∈ entry_terms (store w))).
Proof.
  rewrite change_password_cases. intros H Hnd.
  destruct (negb (Text.truthy current_password)); [discriminate|].
  destruct (negb (Text.truthy new_password)); [discriminate|].
  destruct (get_user_by_username (username sess) (store w)) as [row|]; [|discriminate].
  destruct (argon2_verify P (u_pwd_hash row) current_password); try discriminate.
  cbv zeta in H.
  destruct (for_each _ _ _) as [[u|x] w1] eqn:Hloop; [|discriminate].
  injection H as <- <-. destruct u.
  set (rows := list_entry_rows_for_user (user_id sess) (store w)) in *.
  assert (Hrows : rows ≡ₚ List.filter (fun r0 => bool_decide (e_user_id r0 = user_id sess))
                           (entries (store w))) by apply merge_sort_Permutation.
  assert (Hnd_rows : NoDup (map e_id rows)).
  { rewrite Hrows. by apply NoDup_map_filter. }
  apply (for_each_migrate_terms P E _ _ _ _ _ _ Hnd_rows) in Hloop.
  cbn [store] in Hloop.
  cbn [store entry_terms update_user_credentials with_users search_key].
  split.
  - intros r Hin Huid.
    assert (Hr_rows : r ∈ rows).
    { rewrite Hrows. apply list_elem_of_In, filter_In. split; [by apply list_elem_of_In|].
      by apply bool_decide_eq_true. }
    destruct (Hloop (e_id r) []) as [_ Hm].
    destruct (Hm r Hr_rows eq_refl) as (title & body & m & Hopen & _).
    exists title, body. split.
    + apply open_entry_fields in Hopen as [Hot Hob].
      apply (get_entry_open P sess (e_id r) w r); [|done|done].
      rewrite <- Huid. by apply get_entry_row_unique.
    + intros h. destruct (Hloop (e_id r) h) as [_ Hm'].
      destruct (Hm' r Hr_rows eq_refl) as (title' & body' & m' & Hopen' & Hiff).
      rewrite Hopen in Hopen'. injection Hopen' as <- <- <-. exact Hiff.
  - intros eid h Hother. destruct (Hloop eid h) as [Hn _]. apply Hn.
    intros Hin. apply list_elem_of_In, in_map_iff in Hin as (r & Hid & Hr).
    apply list_elem_of_In in Hr. rewrite Hrows in Hr.
    apply list_elem_of_In, filter_In in Hr as [Hr Hu].
    apply bool_decide_eq_true in Hu. apply list_elem_of_In in Hr.
    by apply (Hother r Hr Hid).
Qed.

Lemma change_password_rebuilds_index_witness :
  let r := change_password_logged_in Reference.primitives Reference.env
             Reference.alice_session "Pw1!" "Pw2!" Reference.journal_world in
  exists sess' title body,
    fst r = Return sess' /\
    get_entry Reference.primitives Reference.alice_session 1 Reference.journal_world
      = (Return ("2024-01-01T09:00:00", title, body), Reference.journal_world) /\
    forall h,
      (1, h) ∈ entry_terms (store (snd r)) <->
      exists t, t ∈ Text.tokenize title ∪ Text.tokenize body /\
                h = hmac_token Reference.primitives (search_key sess') t.
Proof.
  intros r.
  destruct (fst r) as [sess'|x] eqn:Hfst; [|vm_compute in Hfst; discriminate].
  assert (Hr : r = (Return sess', snd r)) by (rewrite <- Hfst; apply surjective_pairing).
  destruct (change_password_rebuilds_index Reference.primitives Reference.env
              Reference.alice_session sess' "Pw1!" "Pw2!"
              Reference.journal_world (snd r) Hr
              (wf_entry_ids _ journal_world_well_formed)) as [Hown _].
  destruct (Hown Reference.entry1) as (title & body & Hget & Hterms).
  - cbn. left.
  - reflexivity.
  - exists sess', title, body. split; [reflexivity|]. split; [exact Hget|exact Hterms].
Defined.

Lemma list_entries_none (P : Primitives) sess w :
  (forall r, r ∈ entries (store w) -> e_user_id r <> user_id sess) ->
  list_entries P sess w = (Return [], w).
Proof.
  intros Hnone. unfold list_entries, mbind, M_bind, query, list_entry_headers.
  replace (List.filter (fun r => bool_decide (e_user_id r = user_id sess)) (entries (store w)))
    with (@nil entry_row); [reflexivity|].
  symmetry. induction (entries (store w)) as [|r l IH]; simpl; [done|].
  rewrite bool_decide_false by (apply Hnone; by left).
  apply IH. intros r' Hr'. apply Hnone. by right.
Qed.

(** X23.  After a successful reset the user starts from an empty journal
    under a new key: no entry row of the user is left, so [list_entries]
    for the user returns the empty list; [login_user] with the new
    password returns a session whose DEK is the one drawn during the
    reset; and [login_user] with any other password raises
    [ValueError("Invalid password")]. *)
Theorem reset_password_then_login (P : Primitives) (E : Env) (HP : Ideal P)
    (name security_answer new_password : string) (w w' : world) :
  reset_password_with_security_answer P E name security_answer new_password w
    = (Return tt, w') ->
  exists sess,
    login_user P name new_password w' = (Return sess, w') /\
    username sess = name /\ dek sess = drawn E (cursor w) 32 /\
    list_entries P sess w' = (Return [], w') /\
    (forall pw, pw <> new_password ->
       login_user P name pw w' = (Raise (ValueError "Invalid password"), w')).
Proof.
  intros H.
  destruct (proj1 (reset_password_rest P E HP name security_answer new_password w) w' H)
    as (row & Hrow & Hnone & Hlogin & Hold).
  eexists. split; [exact Hlogin|]. cbn [username dek user_id].
  split; [done|]. split; [done|]. split; [|exact Hold].
  apply list_entries_none. exact Hnone.
Qed.

Lemma reset_password_then_login_witness :
  let r := reset_password_with_security_answer Reference.primitives Reference.env
             "alice" "Rex" "Pw2!" Reference.journal_world in
  exists sess,
    login_user Reference.primitives "alice" "Pw2!" (snd r) = (Return sess, snd r) /\
    list_entries Reference.primitives sess (snd r) = (Return [], snd r) /\
    login_user Reference.primitives "alice" "Pw1!" (snd r) =
      (Raise (ValueError "Invalid password"), snd r).
Proof.
  intros r.
  assert (Hr : r = (Return tt, snd r)) by (vm_compute; reflexivity).
  destruct (reset_password_then_login Reference.primitives Reference.env
              ReferenceFacts.ideal "alice" "Rex" "Pw2!" Reference.journal_world
              (snd r) Hr) as (sess & Hlogin & _ & _ & Hlist & Hold).
  exists sess. split; [exact Hlogin|]. split; [exact Hlist|]. apply Hold. discriminate.
Defined.
